(** * cdecl: the lexer and the parser of C declarations

    A shallow embedding of [cdecl.py].  The program reads a C declaration
    such as [int ( *f)(char, int* )], lexes it into a tree of tokens in which
    every parenthesised span is a token group, and parses that tree into a
    declarator tree of [Array], [Pointer], [Type] and [Function] nodes.

    Conventions of the embedding.
    - A Python [str] is a [string]; its characters are the code points
      below 256, classified as Python's [str.isalpha], [str.isdigit] and
      [str.isspace] classify them.
    - An exception is a value of [exn].  The caret line that the program
      prints under the echoed input just before it raises is recorded next
      to the exception as a pair (column in the input, number of carets).
    - The lexer object is its immutable [string] (a section variable) and
      its cursor [curIndex], which is passed explicitly.
    - Recursion that Python leaves unbounded takes a [fuel] argument; the
      character and token loops are bounded by what is left to read.
    - [display] and the main loop print; the model returns the text
      printed. *)

From Stdlib Require Import String Ascii List Arith Lia Bool ZArith.
From Stdlib Require Import DecimalString DecimalPos.
Import ListNotations.

#[local] Set Warnings "-register-all".
#[local] Open Scope string_scope.
#[local] Open Scope list_scope.
#[local] Open Scope nat_scope.

(** ** Constants *)

Definition PROMPT : string := "cdecl: ".

Definition PUNCTUATION : list ascii := ["["; "]"; ","; "*"]%char.

Definition PRIMTYPES : list string :=
  ["bool"; "int"; "short"; "long"; "char"; "void"; "float"; "double";
   "long double"; "long long"; "long int"].

Definition LONGTYPES : list string := ["double"; "long"; "int"].

Definition MODIFIERS : list string := ["unsigned"; "signed"; "const"; "struct"].

Definition KEYWORDS : list string := PRIMTYPES ++ MODIFIERS.

(** [sys.get_int_max_str_digits()]: CPython (3.11 and later) refuses to
    read with [int] or to write with [str] a decimal text of more digits;
    4300 is its default. *)
Definition MAX_STR_DIGITS : nat := 4300.

(** ** Python's character classes on the code points below 256 *)

Definition between (lo hi n : nat) : bool := (lo <=? n) && (n <=? hi).

Definition isalpha (c : ascii) : bool :=
  let n := nat_of_ascii c in
  between 65 90 n || between 97 122 n || (n =? 170) || (n =? 181)
  || (n =? 186) || between 192 214 n || between 216 246 n
  || between 248 255 n.

Definition isdigit (c : ascii) : bool :=
  let n := nat_of_ascii c in
  between 48 57 n || (n =? 178) || (n =? 179) || (n =? 185).

Definition isspace (c : ascii) : bool :=
  let n := nat_of_ascii c in
  between 9 13 n || between 28 32 n || (n =? 133) || (n =? 160).

(** [x in l] for a string and a list of strings, for a character and a list
    of characters. *)
Definition str_in (x : string) (l : list string) : bool :=
  existsb (String.eqb x) l.

Definition chr_in (c : ascii) (l : list ascii) : bool :=
  existsb (Ascii.eqb c) l.

(** ** Exceptions and results *)

Inductive exn : Type :=
| LexerError (msg : string)
| ParserError (msg : string)
| RuntimeError (msg : string)
| TypeError
| ValueError
| IndexError
| AttributeError.

(** What a call does: it returns, it raises (after having printed the caret
    line [shown], if any), or the model ran out of fuel. *)
Inductive result (A : Type) : Type :=
| Ok (a : A)
| Raise (e : exn) (shown : option (nat * nat))
| OutOfFuel.

Arguments Ok {A} a.
Arguments Raise {A} e shown.
Arguments OutOfFuel {A}.

Definition bind {A B : Type} (m : result A) (k : A -> result B) : result B :=
  match m with
  | Ok a => k a
  | Raise e shown => Raise e shown
  | OutOfFuel => OutOfFuel
  end.

Notation "x <- m ;; k" := (bind m (fun x => k))
  (at level 61, m at next level, right associativity).
Notation "' pat <- m ;; k" := (bind m (fun x => match x with pat => k end))
  (at level 61, pat pattern, m at next level, right associativity).

(** ** Tokens

    [Token.__init__] builds two shapes of object: a leaf ([string] given,
    [length = len(string)], [items = None]) and a group ([string = None],
    [length = None] until it is set, [items = []]).  A leaf is always
    created with an integer [start]; a group gets [start = None] when the
    parser builds it for one parameter. *)

Inductive Token : Type :=
| Leaf (start : nat) (string : string) (modifiers : list String.string)
       (length : nat)
| Group (start : option nat) (modifiers : list String.string)
        (length : option nat) (items : list Token).

Module Token.

(** [Token(start, string)] and [Token(start)]. *)
Definition leaf (start : nat) (s : String.string) : Token :=
  Leaf start s [] (String.length s).

Definition group (start : option nat) : Token := Group start [] None [].

Definition start (t : Token) : option nat :=
  match t with Leaf s _ _ _ => Some s | Group s _ _ _ => s end.

Definition string (t : Token) : option String.string :=
  match t with Leaf _ s _ _ => Some s | Group _ _ _ _ => None end.

Definition modifiers (t : Token) : list String.string :=
  match t with Leaf _ _ m _ => m | Group _ m _ _ => m end.

Definition length (t : Token) : option nat :=
  match t with Leaf _ _ _ l => Some l | Group _ _ l _ => l end.

(** [items] of a leaf is [None]; the program reads [items], [len(tok)] and
    [tok[i]] only behind an [is_group] test, so a leaf's are never read. *)
Definition items (t : Token) : list Token :=
  match t with Leaf _ _ _ _ => [] | Group _ _ _ its => its end.

Definition len (t : Token) : nat := List.length (items t).

(** [tok.string] where the program has just established a leaf. *)
Definition str (t : Token) : String.string :=
  match string t with Some s => s | None => "" end.

(** [tok.string == s] and [tok.string in l]; both are [False] on a group,
    whose [string] is [None]. *)
Definition string_is (t : Token) (s : String.string) : bool :=
  match string t with Some s' => String.eqb s' s | None => false end.

Definition string_in (t : Token) (l : list String.string) : bool :=
  match string t with Some s' => str_in s' l | None => false end.

Definition set_length (t : Token) (n : nat) : Token :=
  match t with
  | Leaf s str m _ => Leaf s str m n
  | Group s m _ its => Group s m (Some n) its
  end.

(** [tok.string = s]; the program assigns it to leaves only. *)
Definition set_string (t : Token) (s : String.string) : Token :=
  match t with
  | Leaf st _ m l => Leaf st s m l
  | Group _ _ _ _ => t
  end.

Definition is_group (t : Token) : bool :=
  match string t with None => true | Some _ => false end.

Definition is_name (t : Token) : bool :=
  match string t with
  | Some (String c _) => Ascii.eqb c "_" || isalpha c
  | _ => false
  end.

Definition is_type (t : Token) : bool :=
  is_name t && (string_in t PRIMTYPES || str_in "struct" (modifiers t)).

Definition add_modifier (t : Token) (modStr : String.string)
  : result Token :=
  if str_in modStr (modifiers t) || negb (str_in modStr MODIFIERS)
  then Raise (RuntimeError "internal error") None
  else Ok match t with
          | Leaf s str m l => Leaf s str (m ++ [modStr]) l
          | Group s m l its => Group s (m ++ [modStr]) l its
          end.

Definition has_modifier (t : Token) (modStr : String.string) : bool :=
  str_in modStr (modifiers t).

Definition is_num (t : Token) : bool :=
  match string t with
  | Some (String c _) => isdigit c
  | _ => false
  end.

(** The decimal value of a run of [isdigit] characters, from the value
    [acc] of the digits before it: [ValueError] when one of them is no
    ASCII digit (the superscript digits are [isdigit] and are not
    decimal). *)
Fixpoint int_of (acc : Z) (s : String.string) : result Z :=
  match s with
  | EmptyString => Ok acc
  | String c s' =>
      let n := nat_of_ascii c in
      if between 48 57 n
      then int_of (10 * acc + Z.of_nat (n - 48))%Z s'
      else Raise ValueError None
  end.

(** [int(s)] on a run of [isdigit] characters: [ValueError] when it has
    more than [MAX_STR_DIGITS] characters (leading zeros count) or a
    character that is no ASCII digit, its decimal value otherwise. *)
Definition int (s : String.string) : result Z :=
  if MAX_STR_DIGITS <? String.length s then Raise ValueError None
  else int_of 0%Z s.

Definition get_num (t : Token) : result Z :=
  if is_group t || negb (is_num t)
  then Raise (RuntimeError "internal error") None
  else int (str t).

Definition append (t tok : Token) : Token :=
  match t with
  | Leaf _ _ _ _ => t
  | Group s m l its => Group s m l (its ++ [tok])
  end.

(** The caret line of [underline]: [start + len(PROMPT)] spaces, then
    [length] carets; either is a [TypeError] on [None]. *)
Definition underline (t : Token) : result (nat * nat) :=
  match start t, length t with
  | Some s, Some l => Ok (s, l)
  | _, _ => Raise TypeError None
  end.

(** Nesting depth of groups. *)
Fixpoint depth (t : Token) : nat :=
  match t with
  | Leaf _ _ _ _ => 0
  | Group _ _ _ its => S (fold_right (fun x d => Nat.max (depth x) d) 0 its)
  end.

End Token.

(** ** The lexer *)

Module Lexer.

Section WithInput.

(** [self.string]. *)
Variable declString : string.

(** The caret of [Lexer.underline]: one caret under the cursor. *)
Definition underline (curIndex : nat) : nat * nat := (curIndex, 1).

Definition nextchar (curIndex : nat) : nat * option ascii :=
  let curIndex := curIndex + 1 in
  (curIndex,
   if String.length declString <=? curIndex then None
   else String.get curIndex declString).

Definition peekchar (curIndex : nat) : option ascii :=
  if String.length declString <=? curIndex + 1 then None
  else String.get (curIndex + 1) declString.

Definition curchar (curIndex : nat) : option ascii :=
  if String.length declString <=? curIndex then None
  else String.get curIndex declString.

(** [while ch != None and P(ch): ch = self.nextchar()], which runs at most
    [n] times when [n] characters are left. *)
Fixpoint while_char (P : ascii -> bool) (n curIndex : nat)
         (ch : option ascii) : nat * option ascii :=
  match n, ch with
  | S n', Some c =>
      if P c
      then let '(curIndex, ch) := nextchar curIndex in
           while_char P n' curIndex ch
      else (curIndex, ch)
  | _, _ => (curIndex, ch)
  end.

Definition skip_space (curIndex : nat) : nat * option ascii :=
  while_char isspace (String.length declString - curIndex) curIndex
             (curchar curIndex).

Definition ident_start (c : ascii) : bool := Ascii.eqb c "_" || isalpha c.

Definition ident_char (c : ascii) : bool :=
  Ascii.eqb c "_" || isalpha c || isdigit c.

Definition parse_ident (curIndex : nat) : nat * option Token :=
  let '(curIndex, ch) := skip_space curIndex in
  match ch with
  | Some c =>
      if ident_start c then
        let nameStart := curIndex in
        let '(curIndex, ch) := nextchar curIndex in
        let '(curIndex, _) :=
          while_char ident_char (String.length declString - curIndex)
                     curIndex ch in
        let tokStr := substring nameStart (curIndex - nameStart) declString in
        (curIndex, Some (Token.leaf nameStart tokStr))
      else (curIndex, None)
  | None => (curIndex, None)
  end.

(** [tok.length = self.curIndex - tok.start]. *)
Definition set_length_to (tok : Token) (curIndex : nat) : result Token :=
  match Token.start tok with
  | Some s => Ok (Token.set_length tok (curIndex - s))
  | None => Raise TypeError None
  end.

(** [nextTok in mods] compares a [Token] object with each string of
    [mods]; [Token] defines no [__eq__], so each comparison is [False]. *)
Definition token_eq_str (tok : Token) (s : string) : bool := false.

(** [for mod in mods: tok.add_modifier(mod)]. *)
Fixpoint add_modifiers (tok : Token) (mods : list string) : result Token :=
  match mods with
  | [] => Ok tok
  | m :: mods' => tok <- Token.add_modifier tok m ;; add_modifiers tok mods'
  end.

(** The end of the modifier branch of [parse_type], from the test that
    follows the [while] loop to the loop that attaches the modifiers. *)
Definition resolve_modifiers (curIndex : nat) (tok : Token)
           (mods : list string) (beforeNextTok : nat)
           (nextTok : option Token) : result (nat * Token) :=
  '(curIndex, tok) <-
    (if match nextTok with
        | None => true
        | Some nt => negb (Token.string_in nt PRIMTYPES)
        end
     then
       if str_in (last mods "") ["signed"; "unsigned"]
       then Ok (beforeNextTok, Token.set_string tok "int")
       else match nextTok with
            | None =>
                Raise (LexerError "expected a type name or modifier")
                      (Some (underline curIndex))
            | Some nt =>
                c <- Token.underline nt ;;
                Raise (LexerError "expected a type name or modifier")
                      (Some c)
            end
     else
       Ok (curIndex,
           Token.set_string tok
             (match nextTok with Some nt => Token.str nt | None => "" end))) ;;
  tok <- set_length_to tok curIndex ;;
  tok <- add_modifiers tok mods ;;
  Ok (curIndex, tok).

Fixpoint parse_type (fuel curIndex : nat) (tok : Token) {struct fuel}
  : result (nat * option Token) :=
  match fuel with
  | 0 => OutOfFuel
  | S fuel =>
    if Token.string_is tok "struct" then
      let '(curIndex, name) := parse_ident curIndex in
      match name with
      | None =>
          Raise (LexerError "expected an identifier")
                (Some (underline curIndex))
      | Some name =>
          if Token.string_in name KEYWORDS then
            c <- Token.underline name ;;
            Raise (LexerError ("cannot use '" ++ Token.str name
                               ++ "' as an identifier")%string) (Some c)
          else
            tok <- set_length_to tok curIndex ;;
            tok <- Token.add_modifier tok "struct" ;;
            Ok (curIndex, Some (Token.set_string tok (Token.str name)))
      end
    else if Token.string_in tok PRIMTYPES then
      if Token.string_is tok "long" then
        let initialIndex := curIndex in
        let '(curIndex, nextTok) := parse_ident curIndex in
        if match nextTok with
           | Some nt => Token.string_in nt LONGTYPES
           | None => false
           end
        then
          let tok :=
            Token.set_string tok
              (Token.str tok ++ " "
               ++ match nextTok with Some nt => Token.str nt | None => "" end)%string
          in
          tok <- set_length_to tok curIndex ;;
          Ok (curIndex, Some tok)
        else Ok (initialIndex, Some tok)
      else Ok (curIndex, Some tok)
    else if Token.string_in tok MODIFIERS then
      let mods := [Token.str tok] in
      let beforeNextTok := curIndex in
      let '(curIndex, nextTok) := parse_ident curIndex in
      parse_type_mods fuel curIndex tok mods beforeNextTok nextTok
    else Ok (curIndex, None)
  end

(** The [while] loop of the modifier branch, entered with [nextTok] read;
    it ends in [resolve_modifiers] and the re-parse of the token. *)
with parse_type_mods (fuel curIndex : nat) (tok : Token)
       (mods : list string) (beforeNextTok : nat) (nextTok : option Token)
       {struct fuel} : result (nat * option Token) :=
  match fuel with
  | 0 => OutOfFuel
  | S fuel =>
    match nextTok with
    | Some nt =>
      if Token.string_in nt MODIFIERS then
        if existsb (token_eq_str nt) mods then
          c <- Token.underline nt ;;
          Raise (LexerError "cannot use modifiers twice") (Some c)
        else if Token.string_is nt "struct" then
          if negb (List.length mods =? 1)
             || negb (String.eqb (nth 0 mods "") "const")
          then
            tok <- set_length_to tok curIndex ;;
            c <- Token.underline tok ;;
            Raise (LexerError
                     "the only valid modifier for struct is 'const'")
                  (Some c)
          else
            tok <- set_length_to tok curIndex ;;
            tok <- Token.add_modifier tok "const" ;;
            parse_type fuel curIndex (Token.set_string tok "struct")
        else if Token.string_in nt ["signed"; "unsigned"]
                && (str_in "signed" mods || str_in "unsigned" mods)
        then
          tok <- set_length_to tok curIndex ;;
          c <- Token.underline tok ;;
          Raise (LexerError "cannot have signed and unsigned") (Some c)
        else
          let mods := mods ++ [Token.str nt] in
          let beforeNextTok := curIndex in
          let '(curIndex, nextTok) := parse_ident curIndex in
          parse_type_mods fuel curIndex tok mods beforeNextTok nextTok
      else
        '(curIndex, tok) <-
          resolve_modifiers curIndex tok mods beforeNextTok nextTok ;;
        parse_type fuel curIndex tok
    | None =>
        '(curIndex, tok) <-
          resolve_modifiers curIndex tok mods beforeNextTok nextTok ;;
        parse_type fuel curIndex tok
    end
  end.

(** A punctuation token of one character, after the cursor moved past
    it. *)
Definition punctuation (curIndex : nat) (ch : ascii)
  : result (nat * option Token) :=
  let '(curIndex, _) := nextchar curIndex in
  Ok (curIndex, Some (Token.leaf (curIndex - 1) (String ch ""))).

Fixpoint next_token (fuel curIndex : nat) {struct fuel}
  : result (nat * option Token) :=
  match fuel with
  | 0 => OutOfFuel
  | S fuel =>
    let '(curIndex, ch) := skip_space curIndex in
    match ch with
    | None => Ok (curIndex, None)
    | Some ch =>
      if chr_in ch PUNCTUATION then
        if Ascii.eqb ch "*" then
          let initialPos := curIndex in
          let '(curIndex, _) := nextchar curIndex in
          let '(curIndex, ident) := parse_ident curIndex in
          if match ident with
             | Some i => Token.string_is i "const"
             | None => false
             end
          then
            tok <- Token.add_modifier
                     (Token.leaf initialPos (String ch "")) "const" ;;
            Ok (curIndex,
                Some (Token.set_length tok (curIndex - initialPos)))
          else punctuation initialPos ch
        else punctuation curIndex ch
      else
        let '(curIndex, tok) := parse_ident curIndex in
        match tok with
        | Some tok =>
            if Token.string_in tok KEYWORDS
            then parse_type fuel curIndex tok
            else Ok (curIndex, Some tok)
        | None =>
            if isdigit ch then
              let numStart := curIndex in
              let '(curIndex, ch) := nextchar curIndex in
              let '(curIndex, _) :=
                while_char isdigit (String.length declString - curIndex)
                           curIndex ch in
              let tokStr :=
                substring numStart (curIndex - numStart) declString in
              Ok (curIndex, Some (Token.leaf numStart tokStr))
            else if Ascii.eqb ch "(" then
              let '(curIndex, _) := nextchar curIndex in
              '(curIndex, group) <-
                parse_tokens_loop fuel true
                  (Token.group (Some (curIndex - 1))) curIndex ;;
              Ok (curIndex, Some group)
            else
              Raise (LexerError (if Ascii.eqb ch ")" then "unmatched )"
                                 else "invalid character"))
                    (Some (curIndex, 1))
        end
    end
  end

(** The [while True] loop of [parse_tokens] on the group built so far. *)
with parse_tokens_loop (fuel : nat) (nested : bool) (group : Token)
       (curIndex : nat) {struct fuel} : result (nat * Token) :=
  match fuel with
  | 0 => OutOfFuel
  | S fuel =>
    if nested && match curchar curIndex with
                 | Some c => Ascii.eqb c ")"
                 | None => false
                 end
    then
      let '(curIndex, _) := nextchar curIndex in
      group <- set_length_to group curIndex ;;
      Ok (curIndex, group)
    else
      '(curIndex, tok) <- next_token fuel curIndex ;;
      match tok with
      | None =>
          if nested then Raise (LexerError "expected closing )") None
          else
            group <- set_length_to group curIndex ;;
            Ok (curIndex, group)
      | Some tok =>
          parse_tokens_loop fuel nested (Token.append group tok) curIndex
      end
  end.

Definition parse_tokens (fuel : nat) (nested : bool) (curIndex : nat)
  : result (nat * Token) :=
  parse_tokens_loop fuel nested
    (Token.group (Some (if nested then curIndex - 1 else curIndex)))
    curIndex.

End WithInput.

End Lexer.

(** [Lexer(line).parse_tokens(nested=False)]: the root group of [line].  The
    fuel is enough for every input (see [lex_total]). *)
Definition lex_fuel (line : string) : nat := 2 * String.length line + 4.

Definition lex (line : string) : result Token :=
  '(_, tokens) <- Lexer.parse_tokens line (lex_fuel line) false 0 ;;
  Ok tokens.

(** ** Declarator nodes

    Every node has the [child] and the [warnings] of [Node.__init__]; a
    [Type] node has no child. *)

Inductive Node : Type :=
| Array (child : option Node) (warnings : list string) (size : option Z)
| Pointer (child : option Node) (warnings : list string) (is_const : bool)
| Type_ (warnings : list string) (type_name : string)
        (modifiers : list string)
| Function (child : option Node) (warnings : list string)
           (params : option (list Node)).

Module Node.

Definition child (n : Node) : option Node :=
  match n with
  | Array c _ _ | Pointer c _ _ | Function c _ _ => c
  | Type_ _ _ _ => None
  end.

Definition warnings (n : Node) : list string :=
  match n with
  | Array _ w _ | Pointer _ w _ | Type_ w _ _ | Function _ w _ => w
  end.

Definition add_warning (n : Node) (msg : string) : Node :=
  match n with
  | Array c w s => Array c (w ++ [msg]) s
  | Pointer c w k => Pointer c (w ++ [msg]) k
  | Type_ w t m => Type_ (w ++ [msg]) t m
  | Function c w ps => Function c (w ++ [msg]) ps
  end.

(** [type(node) == Function]; [None] is of another type. *)
Definition is_Function (n : option Node) : bool :=
  match n with Some (Function _ _ _) => true | _ => false end.

Definition is_Pointer (n : option Node) : bool :=
  match n with Some (Pointer _ _ _) => true | _ => false end.

(** [Type(typeTok)]. *)
Definition of_type_token (typeTok : Token) : Node :=
  Type_ [] (Token.str typeTok) (Token.modifiers typeTok).

End Node.

(** ** The parser *)

Module Parser.

Record t : Type := Build { tokens : Token; child : option Node; index : nat }.

Definition set_child (p : t) (c : option Node) : t :=
  Build (tokens p) c (index p).

(** [Parser(tokens, child)]. *)
Definition init (tokens : Token) (child : option Node) : result t :=
  if negb (Token.is_group tokens) || (Token.len tokens =? 0) then
    c <- Token.underline tokens ;;
    Raise (ParserError "expected more tokens here") (Some c)
  else Ok (Build tokens child 0).

(** [error_at(tok, msg)]; [tok] is [None] when no [void] token was kept. *)
Definition error_at {A : Type} (tok : option Token) (msg : string)
  : result A :=
  match tok with
  | None => Raise AttributeError None
  | Some tok =>
      match Token.start tok, Token.length tok with
      | Some s, Some l => Raise (ParserError msg) (Some (s, l))
      | _, _ => Raise TypeError None
      end
  end.

Definition error {A : Type} (p : t) (msg : string) : result A :=
  let i := index p in
  if Token.len (tokens p) <=? i then
    match last (map Some (Token.items (tokens p))) None with
    | None => Raise IndexError None
    | Some lastToken =>
        match Token.start lastToken, Token.length lastToken with
        | Some s, Some l => Raise (ParserError msg) (Some (s + l, 1))
        | _, _ => Raise TypeError None
        end
    end
  else error_at (nth_error (Token.items (tokens p)) i) msg.

Definition current (p : t) : option Token :=
  if Token.len (tokens p) <=? index p then None
  else nth_error (Token.items (tokens p)) (index p).

Definition peek (p : t) : option Token :=
  if Token.len (tokens p) <=? index p + 1 then None
  else nth_error (Token.items (tokens p)) (index p + 1).

Definition next (p : t) : t * option Token :=
  let p := Build (tokens p) (child p) (index p + 1) in
  (p, current p).

Definition expect (p : t) : result Token :=
  match current p with
  | None => error p "expected another token"
  | Some tok => Ok tok
  end.

(** [check_void_decl(voidTok)] followed by [return self.child]. *)
Definition check_void_decl (p : t) (voidTok : option Token) : result Node :=
  match child p with
  | None => error_at voidTok "void on its own is not a valid type"
  | Some c => Ok c
  end.

(** The pointer loop; [n] bounds it by the tokens left. *)
Fixpoint parse_pointers (n : nat) (p : t) : t :=
  match n, current p with
  | S n', Some tok =>
      if Token.string_is tok "*" then
        let isConst := Token.has_modifier tok "const" in
        let p := set_child p (Some (Pointer (child p) [] isConst)) in
        parse_pointers n' (fst (next p))
      else p
  | _, _ => p
  end.

(** The optional name or group; returns [parentGroup]. *)
Definition parse_name_or_group (p : t) : result (t * option Token) :=
  match current p with
  | None => Ok (p, None)
  | Some tok =>
      if Token.is_name tok then
        if Token.string_in tok KEYWORDS then
          error p ("cannot use '" ++ Token.str tok ++ "' as an identifier")%string
        else Ok (fst (next p), None)
      else if Token.is_group tok then Ok (fst (next p), Some tok)
      else Ok (p, None)
  end.

(** The inner loop of the parameter list: the tokens of [rest] up to a
    [','], and what follows that comma. *)
Fixpoint take_param (rest : list Token) : list Token * list Token :=
  match rest with
  | [] => ([], [])
  | tok :: rest' =>
      if Token.string_is tok "," then ([], rest')
      else let '(param, rest'') := take_param rest' in (tok :: param, rest'')
  end.

(** The array dimensions; [n] bounds the loop by the tokens left. *)
Fixpoint parse_dimensions (n : nat) (p : t) (dimensions : list (option Z))
  : result (t * list (option Z)) :=
  match n, current p with
  | S n', Some tok =>
      if Token.string_is tok "[" then
        let p := fst (next p) in
        tok <- expect p ;;
        '(p, dimensions) <-
          (if Token.is_num tok then
             num <- Token.get_num tok ;;
             Ok (fst (next p), dimensions ++ [Some num])
           else Ok (p, dimensions ++ [None])) ;;
        tok <- expect p ;;
        if negb (Token.string_is tok "]") then error p "expected ]"
        else parse_dimensions n' (fst (next p)) dimensions
      else Ok (p, dimensions)
  | _, _ => Ok (p, dimensions)
  end.

(** [for dim in reversed(dimensions)], on the dimensions already
    reversed. *)
Fixpoint wrap_arrays (voidTok : option Token) (child : option Node)
         (dims : list (option Z)) : result (option Node) :=
  match dims with
  | [] => Ok child
  | dim :: dims' =>
      _ <- (match child with
            | None => error_at voidTok "arrays cannot store void"
            | Some _ => Ok tt
            end) ;;
      let array := Array child [] dim in
      let array :=
        if Node.is_Function child
        then Node.add_warning array
               "illegal in C: arrays cannot store raw functions"
        else array in
      wrap_arrays voidTok (Some array) dims'
  end.

(** The parameter list and the recursion into the parent group call the
    parser on a sub-group; [parse], below, ties the knot on the fuel, and the
    pieces of its body take the recursive call as the argument [parse]. *)

(** The loop over a parameter group that must be split: [rest] holds the
    tokens of the group from index [i] on, [n] bounds the loop. *)
Fixpoint parse_params (parse : t -> result Node) (n : nat)
         (rest : list Token) (params : list Node) : result (list Node) :=
  match n, rest with
  | S n', _ :: _ =>
      let '(items, rest') := take_param rest in
      q <- init (Group None [] None items) None ;;
      node <- parse q ;;
      let node :=
        if Node.is_Function (Some node)
        then Node.add_warning node
               "illegal in C: this is a raw function being passed as a parameter"
        else node in
      parse_params parse n' rest' (params ++ [node])
  | _, _ => Ok params
  end.

(** The optional parameter list; returns [isFunction] and [params]. *)
Definition parse_parameter_list (parse : t -> result Node) (p : t)
  : result (t * bool * option (list Node)) :=
  match current p with
  | Some paramGroup =>
      if Token.is_group paramGroup then
        params <-
          (if Token.len paramGroup =? 0 then Ok None
           else if (Token.len paramGroup =? 1)
                   && match Token.items paramGroup with
                      | tok :: _ => Token.string_is tok "void"
                      | [] => false
                      end
           then Ok (Some [])
           else
             ps <- parse_params parse (Token.len paramGroup)
                     (Token.items paramGroup) [] ;;
             Ok (Some ps)) ;;
        Ok (fst (next p), true, params)
      else Ok (p, false, Some [])
  | None => Ok (p, false, Some [])
  end.

(** [parse] from the pointers to the end. *)
Definition declarator (parse : t -> result Node) (p : t)
           (voidTok : option Token) : result Node :=
  let p := parse_pointers (Token.len (tokens p) - index p) p in
  '(p, parentGroup) <- parse_name_or_group p ;;
  '(p, isFunction, params) <- parse_parameter_list parse p ;;
  '(p, dimensions) <-
    parse_dimensions (Token.len (tokens p) - index p) p [] ;;
  c <- wrap_arrays voidTok (child p) (rev dimensions) ;;
  let p := set_child p c in
  _ <- (match current p with
        | Some _ => error p "unexpected tokens"
        | None => Ok tt
        end) ;;
  let p :=
    if isFunction : bool then
      let func := Function (child p) [] params in
      let func :=
        if Node.is_Function (child p)
        then Node.add_warning func
               "illegal in C: you cannot return a raw function"
        else func in
      set_child p (Some func)
    else p in
  p <- (match parentGroup with
        | Some parentGroup =>
            q <- init parentGroup (child p) ;;
            node <- parse q ;;
            Ok (set_child p (Some node))
        | None => Ok p
        end) ;;
  check_void_decl p voidTok.

(** The body of [parse]: the base type, then the declarator. *)
Definition parse_body (parse : t -> result Node) (p : t) : result Node :=
  match child p with
  | None =>
      tok <- expect p ;;
      _ <- (if negb (Token.is_type tok)
            then error p "expected a type name" else Ok tt) ;;
      let '(p, voidTok) :=
        if Token.string_is tok "void" then (p, Some tok)
        else (set_child p (Some (Node.of_type_token tok)), None) in
      let '(p, nxt) := next p in
      match nxt with
      | None => check_void_decl p voidTok
      | Some _ => declarator parse p voidTok
      end
  | Some _ => declarator parse p None
  end.

Fixpoint parse (fuel : nat) (p : t) {struct fuel} : result Node :=
  match fuel with
  | 0 => OutOfFuel
  | S fuel => parse_body (parse fuel) p
  end.

End Parser.

(** One round of the main loop on a line (already stripped, as the main
    loop strips it): lex it, build the parser on the root group and parse.
    The fuel is the nesting depth of the groups, which is enough (see
    [cdecl_total]). *)
Definition cdecl (line : string) : result Node :=
  tokens <- lex line ;;
  parser <- Parser.init tokens None ;;
  Parser.parse (Token.depth tokens) parser.

(** The exceptions that the main loop catches and reports as a failed
    lexing or parsing; any other one ends the program with a traceback. *)
Definition user_facing (e : exn) : bool :=
  match e with
  | LexerError _ | ParserError _ => true
  | _ => false
  end.

(** Does a [Pointer] stand on the chain of children that leads from the
    root of the tree to its base type? *)
Fixpoint wrapped_in_pointer (n : Node) : bool :=
  match n with
  | Pointer _ _ _ => true
  | Array c _ _ | Function c _ _ =>
      match c with Some c' => wrapped_in_pointer c' | None => false end
  | Type_ _ _ _ => false
  end.

(** [n] pointers around [child], one for each ['*'] token of [stars], the
    first one innermost. *)
Definition pointers (child : option Node) (stars : list Token) : option Node :=
  fold_left
    (fun c tok => Some (Pointer c [] (Token.has_modifier tok "const")))
    stars child.

(** ** Vocabulary of the properties of the lexer *)

(** The characters of [s] from [i] up to [j] satisfy [P], and the character
    at [j], if there is one, does not: a [while] loop over [P] entered at [i]
    leaves the cursor at [j]. *)
Definition run (P : ascii -> bool) (s : string) (i j : nat) : Prop :=
  i <= j
  /\ (forall k, i <= k < j -> exists c, String.get k s = Some c /\ P c = true)
  /\ match String.get j s with Some c => P c = false | None => True end.

(** What [parse_ident] returns from the cursor [i]: the cursor it leaves and
    the identifier it read, if any. *)
Inductive ident_at (s : string) (i : nat) : nat -> option Token -> Prop :=
| ident_none (p : nat) :
    run isspace s i p ->
    match String.get p s with
    | Some c => Lexer.ident_start c = false
    | None => True
    end ->
    ident_at s i p None
| ident_some (p j : nat) (c : ascii) :
    run isspace s i p ->
    String.get p s = Some c ->
    Lexer.ident_start c = true ->
    run Lexer.ident_char s (p + 1) j ->
    ident_at s i j (Some (Token.leaf p (substring p (j - p) s))).

(** The token [t] with every start moved [a] characters to the left: the
    token as it stands in the substring that begins at [a]. *)
Fixpoint rebase (a : nat) (t : Token) : Token :=
  match t with
  | Leaf p str ms len => Leaf (p - a) str ms len
  | Group p ms len its =>
      Group (option_map (fun p => p - a) p) ms len (map (rebase a) its)
  end.

(** The tokens below [t] in its tree. *)
Fixpoint subtokens (t : Token) : list Token :=
  match t with
  | Leaf _ _ _ _ => []
  | Group _ _ _ its => flat_map (fun x => x :: subtokens x) its
  end.

(** Equivalent tokens: two leaves with the same lexeme and the same
    modifiers, two groups with as many items, equivalent one by one. *)
Fixpoint equivalent (t t' : Token) : Prop :=
  match t, t' with
  | Leaf _ str ms _, Leaf _ str' ms' _ => str = str' /\ ms = ms'
  | Group _ _ _ its, Group _ _ _ its' =>
      (fix all2 (l l' : list Token) : Prop :=
         match l, l' with
         | [], [] => True
         | x :: l, x' :: l' => equivalent x x' /\ all2 l l'
         | _, _ => False
         end) its its'
  | _, _ => False
  end.

(** The characters of [line] that the token spans. *)
Definition span_of (line : string) (t : Token) : option string :=
  match Token.start t, Token.length t with
  | Some a, Some l => Some (substring a l line)
  | _, _ => None
  end.

(** The identifier [nextTok], read ahead in the modifier branch of
    [parse_type], becomes part of the token: it is a modifier or the name of
    a primitive type. *)
Definition consumed (nextTok : option Token) : Prop :=
  match nextTok with
  | Some nt =>
      Token.string_in nt MODIFIERS = true \/ Token.string_in nt PRIMTYPES = true
  | None => False
  end.

(** [t] is a token of [s] that spans the characters from [a] up to [j]:
    [next_token], called with the cursor on [a], returns it and leaves the
    cursor on [j]. *)
Definition lexed_at (s : string) (t : Token) (a j : nat) : Prop :=
  Token.start t = Some a
  /\ Token.length t = Some (j - a)
  /\ a < j <= String.length s
  /\ exists fuel, Lexer.next_token s fuel a = Ok (j, Some t).

Definition lexed (s : string) (t : Token) : Prop :=
  exists a j, lexed_at s t a j.

(** Reading ahead from the cursor [j] sees the same characters in [s] and in
    its substring of length [l] at [a]: either the substring ends at [j], or
    a closing parenthesis stands between [j] and the end of the substring,
    and no identifier reaches across it. *)
Definition safe (s : string) (a l j : nat) : Prop :=
  j = a + l
  \/ exists q, j <= q /\ q < a + l /\ String.get q s = Some ")"%char.

(** Lexing again the characters that a token of [line] spans. *)
Definition relex (line : string) (t : Token) : option (result Token) :=
  option_map lex (span_of line t).

(** ** Rendering a declarator tree

    [display] prints to the standard output; the model returns the text
    printed, a line ending in [NL].  [self.child.display] on a child that is
    [None] is an [AttributeError]; running out of [fuel] stands for the
    [RecursionError] of a tree that is higher than Python's recursion limit
    allows. *)

Definition INDENT : string := "    ".

(** The characters ['\033'] and ['\n']. *)
Definition ESC : string := String "027"%char "".

Definition NL : string := String "010"%char "".

(** [s * n]. *)
Fixpoint repeat_str (s : string) (n : nat) : string :=
  match n with
  | 0 => ""
  | S n' => (s ++ repeat_str s n')%string
  end.

(** [str(n)] of an integer: its decimal text, [ValueError] when that has
    more than [MAX_STR_DIGITS] digits. *)
Definition str_of_int (n : Z) : result string :=
  if MAX_STR_DIGITS
     <? String.length (NilZero.string_of_int (Z.to_int (Z.abs n)))
  then Raise ValueError None
  else Ok (NilZero.string_of_int (Z.to_int n)).

Module Display.

(** [Node.colour_name]. *)
Definition colour_name (warnings : list string) (name : string) : string :=
  if 0 <? List.length warnings
  then (ESC ++ "[33;1m" ++ name ++ ESC ++ "[0;0m")%string
  else (ESC ++ "[1m" ++ name ++ ESC ++ "[0m")%string.

(** [Node.display], the method of the base class: one line for each
    warning. *)
Definition node_display (warnings : list string) (indent : nat) : string :=
  String.concat ""
    (map (fun warn =>
            (repeat_str INDENT indent ++ ESC ++ "[33;1mWarning:" ++ ESC
             ++ "[0;0m " ++ warn ++ NL)%string)
         warnings).

(** [for param in self.params: param.display(indent)], with the [display]
    of the parameters as the argument [display]. *)
Fixpoint display_params (display : nat -> Node -> result string)
         (indent : nat) (params : list Node) : result string :=
  match params with
  | [] => Ok ""
  | param :: params' =>
      out <- display indent param ;;
      outs <- display_params display indent params' ;;
      Ok (out ++ outs)%string
  end.

(** The [display] of [Array], [Pointer], [Type] and [Function].  A call
    of [display] on a child or on a parameter is nested in the call on the
    node; [fuel] is the number of nested calls that are left, which Python
    bounds by its recursion limit. *)
Fixpoint display (fuel indent : nat) (n : Node) {struct fuel}
  : result string :=
  match fuel with
  | 0 => OutOfFuel
  | S fuel =>
    match n with
    | Array child warnings size =>
        size <- match size with
                | Some z => str_of_int z
                | None => Ok "??"
                end ;;
        let head :=
          (repeat_str INDENT indent ++ colour_name warnings "array"
           ++ " of size " ++ size ++ " containing" ++ NL
           ++ node_display warnings indent)%string in
        match child with
        | None => Raise AttributeError None
        | Some c =>
            out <- display fuel (indent + 1) c ;; Ok (head ++ out)%string
        end
    | Pointer child warnings is_const =>
        let head :=
          (repeat_str INDENT indent
           ++ (if is_const then "constant " else "")
           ++ colour_name warnings "pointer" ++ " to ")%string in
        match child with
        | None =>
            Ok (head ++ "void" ++ NL ++ node_display warnings indent)%string
        | Some c =>
            out <- display fuel (indent + 1) c ;;
            Ok (head ++ NL ++ node_display warnings indent ++ out)%string
        end
    | Type_ warnings type_name modifiers =>
        Ok (repeat_str INDENT indent
            ++ (if str_in "const" modifiers then "constant " else "")
            ++ String.concat ""
                 (map (fun m => (m ++ " ")%string)
                    (filter (fun m => negb (String.eqb m "signed")
                                      && negb (String.eqb m "const"))
                       modifiers))
            ++ colour_name warnings type_name ++ NL)%string
    | Function child warnings params =>
        let head :=
          (repeat_str INDENT indent ++ colour_name warnings "function"
           ++ " that returns ")%string in
        returned <-
          match child with
          | None =>
              Ok (head ++ "nothing" ++ NL
                  ++ node_display warnings indent)%string
          | Some c =>
              out <- display fuel (indent + 1) c ;;
              Ok (head ++ NL ++ node_display warnings indent ++ out)%string
          end ;;
        taken <-
          match params with
          | None =>
              Ok (repeat_str INDENT indent
                  ++ "and takes any number of parameters" ++ NL)%string
          | Some [] =>
              Ok (repeat_str INDENT indent ++ "and takes no parameters"
                  ++ NL)%string
          | Some params =>
              outs <- display_params (display fuel) (indent + 1) params ;;
              Ok (repeat_str INDENT indent ++ "and takes the parameters"
                  ++ NL ++ outs)%string
          end ;;
        Ok (returned ++ taken)%string
    end
  end.

(** The nested calls that [display] makes on a tree: the nodes on its
    longest path through children and parameters. *)
Fixpoint height (n : Node) : nat :=
  match n with
  | Type_ _ _ _ => 1
  | Array child _ _ | Pointer child _ _ =>
      S (match child with Some c => height c | None => 0 end)
  | Function child _ params =>
      S (Nat.max
           (match child with Some c => height c | None => 0 end)
           (match params with
            | Some params =>
                fold_right (fun param h => Nat.max (height param) h) 0 params
            | None => 0
            end))
  end.

End Display.

(** ** The main loop *)

(** [line.strip()]: the line without the whitespace at its ends. *)
Fixpoint lstrip (s : string) : string :=
  match s with
  | String c s' => if isspace c then lstrip s' else s
  | EmptyString => EmptyString
  end.

Fixpoint rstrip (s : string) : string :=
  match s with
  | String c s' =>
      match rstrip s' with
      | EmptyString => if isspace c then EmptyString else String c EmptyString
      | r => String c r
      end
  | EmptyString => EmptyString
  end.

Definition strip (s : string) : string := rstrip (lstrip s).

(** The caret line as it is printed: the spaces under the prompt and up to
    the column, then the carets. *)
Definition caret_line (shown : option (nat * nat)) : string :=
  match shown with
  | Some (column, carets) =>
      (repeat_str " " (column + String.length PROMPT)
       ++ repeat_str "^" carets ++ NL)%string
  | None => ""
  end.

(** One round of the [while True] loop of the main program on the line
    read: what it prints before it reads the next line, or the exception
    that it does not catch.  The fuel of [display] is the height of the
    tree, which is enough (see [display_of_parsed_tree]). *)
Definition main_round (line : string) : result string :=
  let line := strip line in
  if String.length line =? 0 then Ok ""
  else
    match lex line with
    | Raise (LexerError msg) shown =>
        Ok (caret_line shown ++ ESC ++ "[33;1mLexer failed" ++ ESC
            ++ "[0;0m: " ++ msg ++ NL)%string
    | Raise e shown => Raise e shown
    | OutOfFuel => OutOfFuel
    | Ok tokens =>
        match parser <- Parser.init tokens None ;;
              Parser.parse (Token.depth tokens) parser with
        | Raise (ParserError msg) shown =>
            Ok (caret_line shown ++ ESC ++ "[31;1mParser failed" ++ ESC
                ++ "[0;0m: " ++ msg ++ NL)%string
        | Raise e shown => Raise e shown
        | OutOfFuel => OutOfFuel
        | Ok tree => Display.display (Display.height tree) 0 tree
        end
    end.

(** ** Vocabulary of the properties of the failures, of the tokens and of
    the trees *)

(** The caret line lies under the input: its carets stand under characters
    of the line, or it is one caret just after the last character. *)
Definition under_input (line : string) (shown : option (nat * nat)) : Prop :=
  match shown with
  | Some (column, carets) =>
      column + carets <= String.length line
      \/ (column = String.length line /\ carets = 1)
  | None => True
  end.

(** What the lexer raises: a [LexerError], after a caret line that lies
    under the input, or the [RuntimeError] of [add_modifier], which prints
    no caret. *)
Definition lexer_failure (line : string) (e : exn)
           (shown : option (nat * nat)) : Prop :=
  ((exists msg, e = LexerError msg) /\ under_input line shown)
  \/ (e = RuntimeError "internal error" /\ shown = None).

(** What the parser raises: a [ParserError], after a caret line that lies
    under the input, or a [TypeError] or a [ValueError] without a caret
    line. *)
Definition parser_failure (line : string) (e : exn)
           (shown : option (nat * nat)) : Prop :=
  ((exists msg, e = ParserError msg) /\ under_input line shown)
  \/ ((e = TypeError \/ e = ValueError) /\ shown = None).

(** Every token of the tree of [t], [t] included, has a start and a length
    and lies within the first [n] characters. *)
Fixpoint spanned (n : nat) (t : Token) : Prop :=
  match t with
  | Leaf a _ _ l => 0 < l /\ a + l <= n
  | Group st _ len its =>
      (exists a l, st = Some a /\ len = Some l /\ 0 < l /\ a + l <= n)
      /\ (fix all (its : list Token) : Prop :=
            match its with
            | [] => True
            | x :: its' => spanned n x /\ all its'
            end) its
  end.

(** The tokens of the group that a parser reads: there is at least one,
    and each one lies within the first [n] characters. *)
Definition readable (n : nat) (tokens : Token) : Prop :=
  Forall (spanned n) (Token.items tokens) /\ Token.items tokens <> [].

(** The tokens [items] stand one after the other between the columns
    [from] and [to]: each one starts where the one before it ended or
    later, and has at least one character. *)
Fixpoint in_order (from : nat) (items : list Token) (to : nat) : Prop :=
  match items with
  | [] => from <= to
  | t :: items' =>
      exists a l,
        Token.start t = Some a /\ Token.length t = Some l
        /\ from <= a /\ 0 < l /\ in_order (a + l) items' to
  end.

(** The character just before the cursor [j] is not whitespace. *)
Definition ends_on_text (s : string) (j : nat) : Prop :=
  exists c, String.get (j - 1) s = Some c /\ isspace c = false.

(** The modifiers that a token of the lexer can carry: distinct ones of
    [MODIFIERS], never both [signed] and [unsigned], and [struct] alone or
    after [const] only. *)
Definition legal_modifiers (ms : list string) : Prop :=
  NoDup ms
  /\ incl ms MODIFIERS
  /\ ~ (In "signed" ms /\ In "unsigned" ms)
  /\ (In "struct" ms -> ms = ["struct"] \/ ms = ["const"; "struct"]).

(** The warnings of the parser. *)
Definition ARRAY_OF_FUNCTIONS : string :=
  "illegal in C: arrays cannot store raw functions".

Definition FUNCTION_RETURNED : string :=
  "illegal in C: you cannot return a raw function".

Definition FUNCTION_PASSED : string :=
  "illegal in C: this is a raw function being passed as a parameter".

(** [str] writes the size of an array: it is no number, or a number of at
    most [MAX_STR_DIGITS] digits. *)
Definition printable (size : option Z) : Prop :=
  match size with
  | Some z => exists text, str_of_int z = Ok text
  | None => True
  end.

(** The tree is one that the parser builds: an array has a child and a
    size that [str] writes; a node carries a warning exactly when it is an
    array of raw functions, a function that returns a raw function or
    ([as_param]) a raw function that stands as a parameter. *)
Fixpoint well_formed (as_param : bool) (n : Node) : Prop :=
  match n with
  | Type_ w _ _ => w = []
  | Pointer c w _ =>
      w = [] /\ match c with Some c' => well_formed false c' | None => True end
  | Array c w size =>
      w = (if Node.is_Function c then [ARRAY_OF_FUNCTIONS] else [])
      /\ match c with Some c' => well_formed false c' | None => False end
      /\ printable size
  | Function c w ps =>
      w = (if Node.is_Function c then [FUNCTION_RETURNED] else [])
          ++ (if as_param then [FUNCTION_PASSED] else [])
      /\ match c with Some c' => well_formed false c' | None => True end
      /\ match ps with
         | Some ps =>
             (fix all (ps : list Node) : Prop :=
                match ps with
                | [] => True
                | p :: ps' => well_formed true p /\ all ps'
                end) ps
         | None => True
         end
  end.

(** A child that is absent or well formed. *)
Definition well_formed_child (c : option Node) : Prop :=
  match c with Some c' => well_formed false c' | None => True end.

(** The arrays of the dimensions [dims] around [child], the first dimension
    outermost. *)
Fixpoint arrays (child : Node) (dims : list (option Z)) : Node :=
  match dims with
  | [] => child
  | dim :: dims' =>
      let inner := arrays child dims' in
      Array (Some inner)
            (if Node.is_Function (Some inner) then [ARRAY_OF_FUNCTIONS] else [])
            dim
  end.

(** The modifiers that stand at the cursor [k], one identifier after the
    other: their lexemes, the cursor after the last of them, and what
    [parse_ident] returns there, a cursor and an identifier that is no
    modifier, if any.  [n] bounds the run by the characters left. *)
Fixpoint modifiers_at (s : string) (n k : nat)
  : list string * nat * (nat * option Token) :=
  let '(k1, nextTok) := Lexer.parse_ident s k in
  match n, nextTok with
  | S n', Some nt =>
      if Token.string_in nt MODIFIERS then
        let '(mods, before, after) := modifiers_at s n' k1 in
        (Token.str nt :: mods, before, after)
      else ([], k, (k1, nextTok))
  | _, _ => ([], k, (k1, nextTok))
  end.

(** The tokens of one array dimension, ['[' size ']'] or ['[' ']'], and its
    size. *)
Inductive dimension : list Token -> option Z -> Prop :=
| dimension_sized (open num close : Token) (size : Z) :
    Token.string_is open "[" = true ->
    Token.is_num num = true ->
    Token.get_num num = Ok size ->
    Token.string_is close "]" = true ->
    dimension [open; num; close] (Some size)
| dimension_unsized (open close : Token) :
    Token.string_is open "[" = true ->
    Token.string_is close "]" = true ->
    dimension [open; close] None.

(** The tokens of the dimensions of a declarator, as they are written, and
    their sizes. *)
Inductive dimensions : list Token -> list (option Z) -> Prop :=
| dimensions_none : dimensions [] []
| dimensions_more (first rest : list Token) (size : option Z)
                  (sizes : list (option Z)) :
    dimension first size ->
    dimensions rest sizes ->
    dimensions (first ++ rest) (size :: sizes).

(** * Properties *)

(** ** Declarations evaluated *)

(** C1 (as amended).  On ['int f()()'] the lexer succeeds and the parser
    raises ParserError "unexpected tokens", the caret line underlining the
    second pair of parentheses (column 7, two carets): one level of the
    parser reads one parameter list only.  With the declarator in
    parentheses, ['int (f())()'], parsing succeeds and the outer Function
    node carries the warning that a raw function cannot be returned. *)
Theorem function_returning_function :
  cdecl "int f()()" = Raise (ParserError "unexpected tokens") (Some (7, 2))
  /\ cdecl "int (f())()"
     = Ok (Function (Some (Function (Some (Type_ [] "int" [])) [] None))
             ["illegal in C: you cannot return a raw function"] None).
Proof. split; vm_compute; reflexivity. Qed.

(** C1 as stated fails: parsing ['int f()()'] returns no tree. *)
Lemma function_returning_function_unparenthesised :
  ~ (exists node, cdecl "int f()()" = Ok node).
Proof. intros [node H]; vm_compute in H; discriminate H. Qed.

(** C3.  ['const const int x'] repeats a modifier; the lexer does not
    raise a LexerError on it: [add_modifier] raises RuntimeError
    "internal error", which the main loop does not catch. *)
Theorem repeated_modifier_internal_error :
  lex "const const int x" = Raise (RuntimeError "internal error") None
  /\ user_facing (RuntimeError "internal error") = false.
Proof. split; vm_compute; reflexivity. Qed.

(** C2.  On ['('] the lexer raises LexerError "expected closing )" having
    printed no caret line: this failure comes with no offset and no
    length. *)
Theorem missing_paren_has_no_caret :
  lex "(" = Raise (LexerError "expected closing )") None
  /\ cdecl "(" = Raise (LexerError "expected closing )") None.
Proof. split; vm_compute; reflexivity. Qed.

(** C5.  On ['int f(,)'] the first parameter slice is empty; building the
    parser on it underlines a group whose start is [None], which raises
    TypeError before ParserError "expected more tokens here" is reached.
    On ['int f(int,)'] the loop that splits the parameters stops at the
    comma that ends the group: no empty slice is built, and the declaration
    parses with the one parameter. *)
Theorem empty_parameter_type_error :
  cdecl "int f(,)" = Raise TypeError None
  /\ user_facing TypeError = false
  /\ cdecl "int f(int,)"
     = Ok (Function (Some (Type_ [] "int" [])) [] (Some [Type_ [] "int" []])).
Proof. repeat split; vm_compute; reflexivity. Qed.

(** C6.  ['int ( *f)(char, int* )'] is a pointer to a function that returns
    int and takes a char and a pointer to int: the level of [int] builds the
    Function node, and the parser of the group [( *f)], given that node as
    its child, wraps it in the Pointer. *)
Theorem pointer_to_function :
  let func :=
    Function (Some (Type_ [] "int" [])) []
      (Some [Type_ [] "char" [];
             Pointer (Some (Type_ [] "int" [])) [] false]) in
  cdecl "int (*f)(char, int*)" = Ok (Pointer (Some func) [] false)
  /\ (q <- Parser.init
             (Group (Some 4) [] (Some 4) [Leaf 5 "*" [] 1; Leaf 6 "f" [] 1])
             (Some func) ;;
      Parser.parse 1 q)
     = Ok (Pointer (Some func) [] false).
Proof. split; vm_compute; reflexivity. Qed.

(** C8.  ['int f()'] has the parameter list [None] (any number of
    parameters), ['int f(void)'] has the empty list, and the two trees
    differ. *)
Theorem unspecified_and_empty_parameters :
  cdecl "int f()" = Ok (Function (Some (Type_ [] "int" [])) [] None)
  /\ cdecl "int f(void)"
     = Ok (Function (Some (Type_ [] "int" [])) [] (Some []))
  /\ cdecl "int f()" <> cdecl "int f(void)".
Proof.
  split; [|split]; try (vm_compute; reflexivity).
  vm_compute; discriminate.
Qed.

(** ** Building a parser *)

(** C4 (as amended).  Building a parser on an empty group, or on a token
    that is not a group, underlines the token and raises ParserError
    "expected more tokens here" whenever the token has a start and a
    length: the same kind of exception as for any malformed declaration.
    The declaration ['int ()'] reaches it. *)
Theorem init_empty_is_parser_error :
  (forall tokens child a l,
      Token.is_group tokens = false \/ Token.items tokens = [] ->
      Token.start tokens = Some a ->
      Token.length tokens = Some l ->
      Parser.init tokens child
      = Raise (ParserError "expected more tokens here") (Some (a, l)))
  /\ cdecl "int ()"
     = Raise (ParserError "expected more tokens here") (Some (4, 2)).
Proof.
  split; [|vm_compute; reflexivity].
  intros tokens child a l Hshape Hs Hl.
  unfold Parser.init, Token.underline, Token.len.
  rewrite Hs, Hl.
  destruct Hshape as [Hleaf | Hempty].
  - rewrite Hleaf. reflexivity.
  - rewrite Hempty. simpl. rewrite orb_true_r. reflexivity.
Qed.

(** The empty group of ['int ()']. *)
Lemma init_empty_is_parser_error_witness :
  Parser.init (Group (Some 4) [] (Some 2) []) None
  = Raise (ParserError "expected more tokens here") (Some (4, 2)).
Proof.
  apply (proj1 init_empty_is_parser_error
           (Group (Some 4) [] (Some 2) []) None 4 2);
    [right; reflexivity | reflexivity | reflexivity].
Defined.

(** C4 as stated fails: on that group the exception is one that the main
    loop reports as a failed parsing. *)
Lemma init_empty_user_facing :
  ~ (exists e shown,
        Parser.init (Group (Some 4) [] (Some 2) []) None = Raise e shown
        /\ user_facing e = false).
Proof.
  intros [e [shown [H Hk]]]. vm_compute in H.
  injection H as He _. subst e. discriminate Hk.
Qed.

(** ** Modifiers that default to int *)

Lemma add_modifiers_leaf (a : nat) (str : string) (l : nat) :
  forall mods ms,
    NoDup (ms ++ mods) ->
    Forall (fun m => str_in m MODIFIERS = true) mods ->
    Lexer.add_modifiers (Leaf a str ms l) mods = Ok (Leaf a str (ms ++ mods) l).
Proof.
  induction mods as [|m mods IH]; intros ms Hnd Hall.
  - simpl. now rewrite app_nil_r.
  - inversion Hall as [|? ? Hm Hall']; subst.
    cbn [Lexer.add_modifiers]. unfold Token.add_modifier.
    cbn [Token.modifiers].
    assert (Hnot : str_in m ms = false).
    { apply not_true_is_false. intros Hin. unfold str_in in Hin.
      apply existsb_exists in Hin. destruct Hin as [x [Hx Heq]].
      apply String.eqb_eq in Heq. subst x.
      apply NoDup_remove_2 in Hnd. apply Hnd.
      apply in_or_app. now left. }
    rewrite Hnot, Hm. cbn [orb negb bind].
    rewrite IH; [now rewrite <- app_assoc | now rewrite <- app_assoc | easy].
Qed.

(** The modifier loop stopped: on a sequence [mods] of distinct modifiers
    that ends in signed or unsigned, before no identifier or one that is
    neither a modifier nor a primitive type, the token becomes the type int
    with all of [mods] attached, the cursor back where the last modifier
    ended. *)
Lemma modifier_loop_exit declString fuel curIndex a str l mods
      beforeNextTok nextTok :
  str_in (last mods "") ["signed"; "unsigned"] = true ->
  NoDup mods ->
  Forall (fun m => str_in m MODIFIERS = true) mods ->
  match nextTok with
  | None => True
  | Some nt => Token.string_in nt MODIFIERS = false
               /\ Token.string_in nt PRIMTYPES = false
  end ->
  Lexer.parse_type_mods declString (S (S fuel)) curIndex
    (Leaf a str [] l) mods beforeNextTok nextTok
  = Ok (beforeNextTok, Some (Leaf a "int" mods (beforeNextTok - a))).
Proof.
  intros Hlast Hnd Hall Hnext.
  assert (Hres :
    Lexer.resolve_modifiers curIndex (Leaf a str [] l) mods beforeNextTok
      nextTok
    = Ok (beforeNextTok, Leaf a "int" mods (beforeNextTok - a))).
  { unfold Lexer.resolve_modifiers.
    assert (Hc : match nextTok with
                 | None => true
                 | Some nt => negb (Token.string_in nt PRIMTYPES)
                 end = true).
    { destruct nextTok as [nt|]; [|reflexivity].
      destruct Hnext as [_ Hp]. now rewrite Hp. }
    rewrite Hc, Hlast. simpl.
    rewrite (add_modifiers_leaf a "int" (beforeNextTok - a) mods []); easy. }
  assert (Hre : Lexer.parse_type declString (S fuel) beforeNextTok
                  (Leaf a "int" mods (beforeNextTok - a))
                = Ok (beforeNextTok,
                      Some (Leaf a "int" mods (beforeNextTok - a)))).
  { reflexivity. }
  cbn [Lexer.parse_type_mods].
  destruct nextTok as [nt|].
  - destruct Hnext as [Hm _]. rewrite Hm, Hres. simpl bind. exact Hre.
  - rewrite Hres. simpl bind. exact Hre.
Qed.

Lemma str_in_app x l l' : str_in x (l ++ l') = str_in x l || str_in x l'.
Proof. unfold str_in. apply existsb_app. Qed.

Lemma str_in_true x l : str_in x l = true -> In x l.
Proof.
  unfold str_in. intros H. apply existsb_exists in H as [y [Hy Heq]].
  apply String.eqb_eq in Heq. now subst.
Qed.

Lemma In_str_in x l : In x l -> str_in x l = true.
Proof.
  unfold str_in. intros H. apply existsb_exists. exists x.
  split; [exact H|apply String.eqb_refl].
Qed.

(** The modifier loop from any of its states: it reads the modifiers that
    [modifiers_at] finds from the cursor [before] on, appends them to
    [mods], and ends as [modifier_loop_exit] tells. *)
Lemma modifier_loop s p str l : forall n fuel mods before ms before' after,
  modifiers_at s n before = (ms, before', after) ->
  match snd after with
  | None => True
  | Some nt => Token.string_in nt MODIFIERS = false
               /\ Token.string_in nt PRIMTYPES = false
  end ->
  str_in "struct" ms = false ->
  NoDup (mods ++ ms) ->
  Forall (fun m => str_in m MODIFIERS = true) mods ->
  str_in "signed" (mods ++ ms) && str_in "unsigned" (mods ++ ms) = false ->
  str_in (last (mods ++ ms) "") ["signed"; "unsigned"] = true ->
  List.length ms + 2 <= fuel ->
  (let '(k1, nextTok) := Lexer.parse_ident s before in
   Lexer.parse_type_mods s fuel k1 (Leaf p str [] l) mods before nextTok)
  = Ok (before', Some (Leaf p "int" (mods ++ ms) (before' - p))).
Proof.
  assert (Hexit : forall fuel mods before k1 nextTok,
    match nextTok with
    | None => True
    | Some nt => Token.string_in nt MODIFIERS = false
                 /\ Token.string_in nt PRIMTYPES = false
    end ->
    NoDup (mods ++ []) ->
    Forall (fun m => str_in m MODIFIERS = true) mods ->
    str_in (last (mods ++ []) "") ["signed"; "unsigned"] = true ->
    0 + 2 <= fuel ->
    Lexer.parse_type_mods s fuel k1 (Leaf p str [] l) mods before nextTok
    = Ok (before, Some (Leaf p "int" (mods ++ []) (before - p)))).
  { intros fuel mods before k1 nextTok Hnext Hnd Hall Hlast Hfuel.
    rewrite app_nil_r in *.
    destruct fuel as [|[|fuel]]; [lia|lia|].
    now apply modifier_loop_exit. }
  induction n as [|n IH];
    intros fuel mods before ms before' after Hat Hnext Hstruct Hnd Hall
           Hsign Hlast Hfuel;
    cbn [modifiers_at] in Hat;
    destruct (Lexer.parse_ident s before) as [k1 nextTok].
  { destruct nextTok; injection Hat as <- <- <-; cbn [snd] in Hnext;
      now apply Hexit. }
  destruct nextTok as [nt|];
    [|injection Hat as <- <- <-; cbn [snd] in Hnext; now apply Hexit].
  destruct (Token.string_in nt MODIFIERS) eqn:Hmod;
    [|injection Hat as <- <- <-; cbn [snd] in Hnext; now apply Hexit].
  destruct (modifiers_at s n k1) as [[ms' b'] after'] eqn:Hrec.
  injection Hat as <- <- <-.
  destruct nt as [q nstr nms nlen|]; [|discriminate].
  cbn [Token.str Token.string Token.string_in] in *.
  cbn [List.length] in Hfuel.
  destruct fuel as [|fuel]; [lia|].
  cbn [Lexer.parse_type_mods]. cbn [Token.string_in Token.string].
  rewrite Hmod.
  assert (Hnever : existsb (Lexer.token_eq_str (Leaf q nstr nms nlen)) mods
                   = false) by (clear; induction mods; simpl; auto).
  rewrite Hnever. unfold Token.string_is. cbn [Token.string Token.str].
  assert (Hns : String.eqb nstr "struct" = false).
  { cbn [str_in existsb] in Hstruct. unfold str_in in Hstruct.
    cbn [existsb] in Hstruct. apply orb_false_elim in Hstruct as [Hs _].
    now rewrite String.eqb_sym. }
  rewrite Hns.
  assert (Hconflict :
    str_in nstr ["signed"; "unsigned"]
    && (str_in "signed" mods || str_in "unsigned" mods) = false).
  { destruct (str_in nstr ["signed"; "unsigned"]) eqn:Hs; [|reflexivity].
    destruct (str_in "signed" mods || str_in "unsigned" mods) eqn:Hm;
      [exfalso|reflexivity].
    apply str_in_true in Hs. apply orb_true_iff in Hm.
    assert (Hboth : forall x,
              In x mods ->
              (x = "signed" /\ nstr = "unsigned")
              \/ (x = "unsigned" /\ nstr = "signed") -> False).
    { intros x Hx Hxy.
      assert (H1 : str_in x (mods ++ nstr :: ms') = true).
      { apply In_str_in, in_or_app. now left. }
      assert (H2 : str_in nstr (mods ++ nstr :: ms') = true).
      { apply In_str_in, in_or_app. right. now left. }
      destruct Hxy as [[-> Hy] | [-> Hy]]; rewrite Hy in *;
        rewrite H1, H2 in Hsign; discriminate. }
    assert (Hdup : In nstr mods -> False).
    { intros Hin. apply NoDup_remove_2 in Hnd. apply Hnd.
      apply in_or_app. now left. }
    destruct Hm as [Hm | Hm]; apply str_in_true in Hm;
      destruct Hs as [<- | [<- | []]]; eauto. }
  rewrite Hconflict.
  replace (mods ++ nstr :: ms') with ((mods ++ [nstr]) ++ ms')
    in * by now rewrite <- app_assoc.
  apply (IH fuel (mods ++ [nstr]) k1 ms' b' after' Hrec Hnext); try assumption.
  - cbn [str_in existsb] in Hstruct. unfold str_in in Hstruct.
    cbn [existsb] in Hstruct. now apply orb_false_elim in Hstruct as [_ Hs].
  - apply Forall_app. split; [exact Hall|]. now constructor.
  - lia.
Qed.

(** C9.  ['unsigned x'] is the type int with the modifier unsigned.  In
    general, [parse_type] on a modifier [first] other than struct reads the
    modifiers that stand after it ([modifiers_at]); when [first] and these
    are distinct, hold no struct and not both signed and unsigned, the last
    of them is signed or unsigned, and what follows is no identifier or one
    that is neither a modifier nor a primitive type, the token becomes the
    type int with all the modifiers attached in the order read, and the
    cursor goes back to where the last modifier ended. *)
Theorem unsigned_defaults_to_int :
  cdecl "unsigned x" = Ok (Type_ [] "int" ["unsigned"])
  /\ (forall declString fuel n curIndex a first l mods beforeNextTok after,
         str_in first ["unsigned"; "signed"; "const"] = true ->
         modifiers_at declString n curIndex = (mods, beforeNextTok, after) ->
         match snd after with
         | None => True
         | Some nt => Token.string_in nt MODIFIERS = false
                      /\ Token.string_in nt PRIMTYPES = false
         end ->
         str_in "struct" mods = false ->
         NoDup (first :: mods) ->
         str_in "signed" (first :: mods) && str_in "unsigned" (first :: mods)
         = false ->
         str_in (last (first :: mods) "") ["signed"; "unsigned"] = true ->
         List.length mods + 3 <= fuel ->
         Lexer.parse_type declString fuel curIndex (Leaf a first [] l)
         = Ok (beforeNextTok,
               Some (Leaf a "int" (first :: mods) (beforeNextTok - a)))).
Proof.
  split; [vm_compute; reflexivity|].
  intros s fuel n k a first l mods before after
         Hfirst Hat Hnext Hstruct Hnd Hsign Hlast Hfuel.
  destruct fuel as [|fuel]; [lia|]. cbn [Lexer.parse_type].
  unfold Token.string_is, Token.string_in. cbn [Token.string Token.str].
  assert (Hcases : first = "unsigned" \/ first = "signed" \/ first = "const").
  { apply str_in_true in Hfirst. cbn in Hfirst. intuition. }
  assert (Hbranch : String.eqb first "struct" = false
                    /\ str_in first PRIMTYPES = false
                    /\ str_in first MODIFIERS = true).
  { destruct Hcases as [-> | [-> | ->]]; repeat split. }
  destruct Hbranch as [-> [-> Hm]]. rewrite Hm.
  apply (modifier_loop s a first l n fuel [first] k mods before after Hat
           Hnext Hstruct Hnd); [|exact Hsign|exact Hlast|lia].
  constructor; [exact Hm|constructor].
Qed.

(** ['const unsigned x']: [next_token] reads [const] and calls
    [parse_type] on it with the cursor just after it; [parse_type] reads
    [unsigned] and stops on [x]. *)
Lemma unsigned_defaults_to_int_witness :
  lex "const unsigned x"
  = Ok (Group (Some 0) [] (Some 16)
          [Leaf 0 "int" ["const"; "unsigned"] 14; Leaf 15 "x" [] 1])
  /\ Lexer.parse_type "const unsigned x" 4 5 (Leaf 0 "const" [] 5)
     = Ok (14, Some (Leaf 0 "int" ["const"; "unsigned"] (14 - 0))).
Proof.
  split; [reflexivity|].
  apply (proj2 unsigned_defaults_to_int "const unsigned x" 4 16 5 0 "const"
           5 ["unsigned"] 14 (16, Some (Leaf 15 "x" [] 1))).
  - reflexivity.
  - reflexivity.
  - split; reflexivity.
  - reflexivity.
  - repeat constructor; simpl; intuition discriminate.
  - reflexivity.
  - reflexivity.
  - simpl. lia.
Defined.

(** ** The deferred void *)

Lemma current_at st gm gl pre t post c :
  Parser.current (Parser.Build (Group st gm gl (pre ++ t :: post)) c
                    (List.length pre)) = Some t.
Proof.
  unfold Parser.current, Token.len. cbn [Parser.tokens Parser.index Token.items].
  rewrite length_app. cbn [List.length].
  destruct (Nat.leb_spec (List.length pre + S (List.length post)) (List.length pre)); [lia|].
  rewrite nth_error_app2 by lia. now rewrite Nat.sub_diag.
Qed.

Lemma current_end st gm gl its c i :
  List.length its <= i ->
  Parser.current (Parser.Build (Group st gm gl its) c i) = None.
Proof.
  intros H. unfold Parser.current, Token.len.
  cbn [Parser.tokens Parser.index Token.items].
  now apply Nat.leb_le in H as ->.
Qed.

Lemma parse_pointers_stars st gm gl post :
  match post with
  | [] => True
  | t :: _ => Token.string_is t "*" = false
  end ->
  forall stars pre c n,
    Forall (fun tok => Token.string_is tok "*" = true) stars ->
    List.length stars <= n ->
    Parser.parse_pointers n
      (Parser.Build (Group st gm gl (pre ++ stars ++ post)) c (List.length pre))
    = Parser.Build (Group st gm gl (pre ++ stars ++ post)) (pointers c stars)
        (List.length pre + List.length stars).
Proof.
  intros Hpost. induction stars as [|s stars IH]; intros pre c n Hall Hn.
  - cbn [app List.length pointers fold_left]. rewrite Nat.add_0_r.
    destruct n as [|n]; [reflexivity|]. cbn [Parser.parse_pointers].
    destruct post as [|t post].
    + rewrite current_end; [reflexivity|]. rewrite app_nil_r. lia.
    + rewrite current_at, Hpost. reflexivity.
  - inversion Hall as [|? ? Hs Hall']; subst.
    destruct n as [|n]; [simpl in Hn; lia|].
    cbn [Parser.parse_pointers app]. rewrite current_at, Hs.
    cbn [Parser.next fst Parser.set_child Parser.tokens Parser.index Parser.child].
    replace (pre ++ s :: stars ++ post) with ((pre ++ [s]) ++ stars ++ post)
      by (rewrite <- app_assoc; reflexivity).
    replace (List.length pre + 1) with (List.length (pre ++ [s]))
      by (rewrite length_app; reflexivity).
    rewrite IH; [|assumption|simpl in Hn; lia].
    rewrite length_app. cbn [List.length pointers fold_left].
    f_equal. lia.
Qed.

Lemma pointers_none_iff stars c :
  pointers c stars = None <-> (stars = [] /\ c = None).
Proof.
  revert c. induction stars as [|s stars IH]; intros c; simpl.
  - intuition.
  - rewrite IH. split; [intros [_ H]; discriminate | intros [H _]; discriminate].
Qed.

Lemma name_is_no_star nm :
  Token.is_name nm = true -> Token.string_is nm "*" = false.
Proof.
  unfold Token.is_name, Token.string_is. intros Hnm.
  destruct (Token.string nm) as [[|c s]|]; try discriminate.
  cbn [String.eqb].
  destruct (Ascii.eqb_spec c "*") as [->|]; [discriminate Hnm|reflexivity].
Qed.

Lemma void_with_pointers parse st gm gl a ms l stars name :
  Forall (fun tok => Token.string_is tok "*" = true) stars ->
  (name = [] \/
   exists nm, name = [nm] /\ Token.is_name nm = true
              /\ Token.string_in nm KEYWORDS = false) ->
  Parser.parse_body parse
    (Parser.Build (Group st gm gl (Leaf a "void" ms l :: stars ++ name)) None 0)
  = match pointers None stars with
    | None => Raise (ParserError "void on its own is not a valid type")
                    (Some (a, l))
    | Some node => Ok node
    end.
Proof.
  intros Hstars Hname.
  pose (void := Leaf a "void" ms l).
  assert (Hpost : match name with
                  | [] => True
                  | t :: _ => Token.string_is t "*" = false
                  end).
  { destruct Hname as [-> | [nm [-> [Hnm _]]]]; [exact I|].
    now apply name_is_no_star. }
  unfold Parser.parse_body. cbn [Parser.child].
  unfold Parser.expect.
  pose proof (current_at st gm gl [] void (stars ++ name) None) as H0.
  cbn [app List.length] in H0. unfold void in H0. rewrite H0. clear H0.
  cbn [bind].
  change (Token.is_type (Leaf a "void" ms l)) with true.
  change (Token.string_is (Leaf a "void" ms l) "void") with true.
  cbn [negb bind Parser.next Parser.tokens Parser.child Parser.index Nat.add].
  destruct (stars ++ name) as [|t rest] eqn:Hrest.
  - apply app_eq_nil in Hrest as [-> ->].
    rewrite current_end by (simpl; lia). reflexivity.
  - pose proof (current_at st gm gl [void] t rest None) as H1.
    cbn [app List.length] in H1. unfold void in H1. rewrite H1. clear H1.
    rewrite <- Hrest. unfold Parser.declarator.
    cbn [Token.len Token.items Parser.tokens Parser.index List.length].
    pose proof (parse_pointers_stars st gm gl name Hpost stars [void] None
                  (List.length (stars ++ name)) Hstars) as H2.
    cbn [app List.length] in H2. unfold void in H2.
    replace (S (List.length (stars ++ name)) - 1)
      with (List.length (stars ++ name)) by lia.
    rewrite H2 by (rewrite length_app; lia). clear H2.
    cbn [List.length Nat.add].
    assert (Hn : exists i,
      Parser.parse_name_or_group
        (Parser.Build (Group st gm gl (Leaf a "void" ms l :: stars ++ name))
           (pointers None stars) (S (List.length stars)))
      = Ok (Parser.Build (Group st gm gl (Leaf a "void" ms l :: stars ++ name))
              (pointers None stars) i, None)
      /\ S (List.length (stars ++ name)) <= i).
    { unfold Parser.parse_name_or_group.
      destruct Hname as [-> | [nm [-> [Hnm Hkw]]]].
      - rewrite current_end by (cbn [List.length]; rewrite app_nil_r; lia).
        eexists; split; [reflexivity|]. rewrite app_nil_r. lia.
      - pose proof (current_at st gm gl (void :: stars) nm []
                      (pointers None stars)) as H3.
        cbn [app List.length] in H3. unfold void in H3. rewrite H3, Hnm, Hkw.
        cbn [Parser.next fst Parser.tokens Parser.child Parser.index].
        eexists; split; [reflexivity|]. rewrite length_app. simpl. lia. }
    destruct Hn as [i [-> Hi]]. cbn [bind].
    unfold Parser.parse_parameter_list.
    rewrite current_end by (cbn [List.length]; lia). cbn [bind].
    assert (Hd : forall n p ds, Parser.current p = None ->
                 Parser.parse_dimensions n p ds = Ok (p, ds)).
    { intros n p ds Hc.
      destruct n; cbn [Parser.parse_dimensions]; now rewrite ?Hc. }
    rewrite Hd by (apply current_end; cbn [List.length]; lia).
    cbn [bind rev Parser.wrap_arrays Parser.child Parser.set_child
         Parser.tokens Parser.index].
    unfold Parser.set_child. cbn [Parser.tokens Parser.child Parser.index].
    rewrite current_end by (cbn [List.length]; lia). cbn [bind].
    unfold Parser.check_void_decl, Parser.error_at. cbn [Parser.child].
    destruct (pointers None stars); reflexivity.
Qed.

(** C7 (as amended).  ['void'] alone raises ParserError "void on its own is
    not a valid type" with the caret line under the void token, and
    ['void *p'] is a pointer whose child is [None].  In general the final
    check raises exactly when the child of the parser is still [None], that
    is when nothing has wrapped the deferred void: a void token followed by
    ['*'] tokens and an optional name parses to the pointers around [None]
    when there is at least one ['*'] and raises otherwise, and a Function
    wrapper satisfies the check as a Pointer does, so ['void f()'] is a
    function that returns nothing. *)
Theorem void_needs_a_wrapper :
  cdecl "void" = Raise (ParserError "void on its own is not a valid type")
                       (Some (0, 4))
  /\ cdecl "void *p" = Ok (Pointer None [] false)
  /\ cdecl "void f()" = Ok (Function None [] None)
  /\ (forall p voidTok a l,
         Token.start voidTok = Some a ->
         Token.length voidTok = Some l ->
         Parser.check_void_decl p (Some voidTok)
         = Raise (ParserError "void on its own is not a valid type")
                 (Some (a, l))
         <-> Parser.child p = None)
  /\ (forall fuel st gm gl a ms l stars name,
         Forall (fun tok => Token.string_is tok "*" = true) stars ->
         name = [] \/
         (exists nm, name = [nm] /\ Token.is_name nm = true
                     /\ Token.string_in nm KEYWORDS = false) ->
         Parser.parse (S fuel)
           (Parser.Build
              (Group st gm gl (Leaf a "void" ms l :: stars ++ name)) None 0)
         = match pointers None stars with
           | None =>
               Raise (ParserError "void on its own is not a valid type")
                     (Some (a, l))
           | Some node => Ok node
           end
         /\ (pointers None stars = None <-> stars = [])).
Proof.
  repeat split; try (vm_compute; reflexivity).
  - unfold Parser.check_void_decl, Parser.error_at.
    destruct (Parser.child p); [discriminate | reflexivity].
  - intros Hc. unfold Parser.check_void_decl, Parser.error_at.
    rewrite Hc, H, H0. reflexivity.
  - cbn [Parser.parse]. now apply void_with_pointers.
  - intros Hn. now apply pointers_none_iff in Hn.
  - intros ->. reflexivity.
Qed.

(** The tokens of ['void * * const p']. *)
Lemma void_needs_a_wrapper_witness :
  Parser.parse 1
    (Parser.Build
       (Group (Some 0) [] (Some 8)
          (Leaf 0 "void" [] 4
           :: [Leaf 5 "*" [] 1; Leaf 6 "*" ["const"] 7] ++ [Leaf 14 "p" [] 1]))
       None 0)
  = Ok (Pointer (Some (Pointer None [] false)) [] true).
Proof.
  apply (proj1 (proj2 (proj2 (proj2 (proj2 void_needs_a_wrapper))) 0
           (Some 0) [] (Some 8) 0 [] 4
           [Leaf 5 "*" [] 1; Leaf 6 "*" ["const"] 7] [Leaf 14 "p" [] 1]
           ltac:(repeat constructor)
           ltac:(right; exists (Leaf 14 "p" [] 1); repeat split))).
Defined.

(** C7 as stated fails: ['void f()'] parses, and no Pointer wraps the
    void. *)
Lemma void_function_without_pointer :
  exists node,
    cdecl "void f()" = Ok node /\ wrapped_in_pointer node = false.
Proof. exists (Function None [] None). split; reflexivity. Qed.

(** ** Strings *)

Lemma get_none_iff (s : string) : forall i,
  String.get i s = None <-> String.length s <= i.
Proof.
  induction s as [|c s IH]; intros i; simpl.
  - split; [lia|reflexivity].
  - destruct i as [|i]; [split; [discriminate|lia]|].
    rewrite IH. lia.
Qed.

Lemma get_some_lt (s : string) i c :
  String.get i s = Some c -> i < String.length s.
Proof.
  intros H. destruct (Nat.lt_ge_cases i (String.length s)) as [|Hge]; [easy|].
  apply get_none_iff in Hge. congruence.
Qed.

Lemma get_substring (s : string) a l k :
  String.get k (substring a l s)
  = if k <? l then String.get (a + k) s else None.
Proof.
  destruct (Nat.ltb_spec k l).
  - rewrite Nat.add_comm. now apply substring_correct1.
  - now apply substring_correct2.
Qed.

Lemma length_substring (s : string) : forall a l,
  a + l <= String.length s -> String.length (substring a l s) = l.
Proof.
  induction s as [|c s IH]; intros a l H; simpl in *.
  - assert (l = 0) by lia. subst. now destruct a.
  - destruct a as [|a].
    + destruct l as [|l]; [reflexivity|]. simpl. f_equal. apply IH. lia.
    + apply IH. lia.
Qed.

Lemma substring_substring (s : string) a l p n :
  p + n <= l ->
  substring p n (substring a l s) = substring (a + p) n s.
Proof.
  intros H. apply get_correct. intros k.
  rewrite !get_substring.
  destruct (Nat.ltb_spec k n); [|reflexivity].
  destruct (Nat.ltb_spec (p + k) l); [|lia].
  f_equal. lia.
Qed.

Lemma substring_all (s : string) : substring 0 (String.length s) s = s.
Proof. induction s; simpl; congruence. Qed.

(** ** The character loops *)

Lemma curchar_get s i : Lexer.curchar s i = String.get i s.
Proof.
  unfold Lexer.curchar. destruct (Nat.leb_spec (String.length s) i) as [H|H].
  - symmetry. now apply get_none_iff.
  - reflexivity.
Qed.

Lemma nextchar_get s i : Lexer.nextchar s i = (i + 1, String.get (i + 1) s).
Proof.
  unfold Lexer.nextchar. f_equal. apply (curchar_get s (i + 1)).
Qed.

Lemma run_refl P s i :
  match String.get i s with Some c => P c = false | None => True end ->
  run P s i i.
Proof. intros H. repeat split; [lia | intros k Hk; lia | exact H]. Qed.

Lemma run_step P s i j c :
  String.get i s = Some c -> P c = true -> run P s (i + 1) j -> run P s i j.
Proof.
  intros Hc HP [Hle [Hin Hstop]]. split; [lia|]. split; [|exact Hstop].
  intros k Hk. destruct (Nat.eq_dec k i) as [->|Hne]; [eauto|].
  apply Hin. lia.
Qed.

Lemma run_unique P s i j j' : run P s i j -> run P s i j' -> j = j'.
Proof.
  intros [H1 [H2 H3]] [H1' [H2' H3']].
  destruct (Nat.lt_trichotomy j j') as [Hlt | [Heq | Hgt]]; [|easy|].
  - destruct (H2' j) as [c [Hc HP]]; [lia|]. rewrite Hc in H3. congruence.
  - destruct (H2 j') as [c [Hc HP]]; [lia|]. rewrite Hc in H3'. congruence.
Qed.

Lemma run_bound P s i j : run P s i j -> i <= String.length s ->
  j <= String.length s.
Proof.
  intros [H1 [H2 _]] Hi.
  destruct (Nat.le_gt_cases j (String.length s)) as [|Hgt]; [easy|].
  destruct (H2 (String.length s)) as [c [Hc _]]; [lia|].
  apply get_some_lt in Hc. lia.
Qed.

Lemma while_char_run P s : forall n i,
  String.length s - i <= n ->
  exists j, Lexer.while_char s P n i (String.get i s) = (j, String.get j s)
            /\ run P s i j.
Proof.
  induction n as [|n IH]; intros i Hn.
  - exists i. assert (Hnone : String.get i s = None)
      by (apply get_none_iff; lia).
    rewrite Hnone. split; [reflexivity|]. apply run_refl. now rewrite Hnone.
  - destruct (String.get i s) as [c|] eqn:Hc.
    + cbn [Lexer.while_char]. destruct (P c) eqn:HP.
      * rewrite nextchar_get. destruct (IH (i + 1)) as [j [Hw Hr]]; [lia|].
        exists j. split; [exact Hw|]. now apply run_step with c.
      * exists i. rewrite Hc. split; [reflexivity|].
        apply run_refl. now rewrite Hc.
    + exists i. rewrite Hc. split; [reflexivity|].
      apply run_refl. now rewrite Hc.
Qed.

Lemma skip_space_run s i :
  exists p, Lexer.skip_space s i = (p, String.get p s) /\ run isspace s i p.
Proof.
  unfold Lexer.skip_space. rewrite curchar_get.
  now apply while_char_run.
Qed.

Lemma parse_ident_at s i :
  exists j r, Lexer.parse_ident s i = (j, r) /\ ident_at s i j r.
Proof.
  unfold Lexer.parse_ident.
  destruct (skip_space_run s i) as [p [-> Hp]].
  destruct (String.get p s) as [c|] eqn:Hc.
  - destruct (Lexer.ident_start c) eqn:Hst.
    + rewrite nextchar_get.
      destruct (while_char_run Lexer.ident_char s
                  (String.length s - (p + 1)) (p + 1)) as [j [-> Hj]]; [lia|].
      eexists _, _. split; [reflexivity|]. now apply ident_some with c.
    + eexists _, _. split; [reflexivity|]. apply ident_none; [easy|].
      now rewrite Hc.
  - eexists _, _. split; [reflexivity|]. apply ident_none; [easy|].
    now rewrite Hc.
Qed.

Lemma ident_at_fun s i j r j' r' :
  ident_at s i j r -> ident_at s i j' r' -> j = j' /\ r = r'.
Proof.
  intros H H'. destruct H as [p Hp Hn | p j c Hp Hc Hst Hj];
    destruct H' as [p' Hp' Hn' | p' j' c' Hp' Hc' Hst' Hj'];
    pose proof (run_unique _ _ _ _ _ Hp Hp') as <-.
  - easy.
  - rewrite Hc' in Hn. congruence.
  - rewrite Hc in Hn'. congruence.
  - pose proof (run_unique _ _ _ _ _ Hj Hj') as <-. easy.
Qed.

Lemma parse_ident_eq s i j r :
  ident_at s i j r -> Lexer.parse_ident s i = (j, r).
Proof.
  intros H. destruct (parse_ident_at s i) as [j' [r' [-> H']]].
  destruct (ident_at_fun _ _ _ _ _ _ H' H) as [-> ->]. reflexivity.
Qed.

Lemma parse_ident_inv s i j r :
  Lexer.parse_ident s i = (j, r) -> ident_at s i j r.
Proof.
  intros H. destruct (parse_ident_at s i) as [j' [r' [H' Hat]]].
  congruence.
Qed.

Lemma while_char_eq P s n i j :
  run P s i j -> String.length s - i <= n ->
  Lexer.while_char s P n i (String.get i s) = (j, String.get j s).
Proof.
  intros Hr Hn. destruct (while_char_run P s n i Hn) as [j' [-> Hr']].
  now rewrite (run_unique _ _ _ _ _ Hr' Hr).
Qed.

Lemma skip_space_eq s i p :
  run isspace s i p -> Lexer.skip_space s i = (p, String.get p s).
Proof.
  intros Hr. unfold Lexer.skip_space. rewrite curchar_get.
  now apply while_char_eq.
Qed.

Lemma ident_at_le s i j r : ident_at s i j r -> i <= j.
Proof.
  intros [p [Hp _] _ | p j' c [Hp _] _ _ [Hj _]]; lia.
Qed.

Lemma ident_at_bound s i j r :
  ident_at s i j r -> i <= String.length s -> j <= String.length s.
Proof.
  intros [p Hp _ | p j' c Hp Hc _ Hj] Hi.
  - now apply run_bound with isspace i.
  - apply get_some_lt in Hc.
    apply run_bound with Lexer.ident_char (p + 1); [easy|lia].
Qed.

Lemma ident_at_some s i j tok :
  ident_at s i j (Some tok) ->
  exists p, tok = Leaf p (substring p (j - p) s) [] (j - p)
            /\ i <= p < j /\ j <= String.length s.
Proof.
  intros H. inversion H as [| p j' c Hp Hc Hst Hj]; subst.
  pose proof (get_some_lt _ _ _ Hc) as Hlt.
  assert (Hjl : j <= String.length s)
    by (apply run_bound with Lexer.ident_char (p + 1); [easy|lia]).
  destruct Hp as [Hp _]. destruct Hj as [Hj _].
  exists p. split; [|lia].
  unfold Token.leaf. f_equal. apply length_substring. lia.
Qed.

(** ** Results of the monad *)

Lemma bind_ok {A B : Type} (m : result A) (k : A -> result B) (v : B) :
  bind m k = Ok v -> exists x, m = Ok x /\ k x = Ok v.
Proof. destruct m; simpl; [eauto | discriminate | discriminate]. Qed.

Lemma add_modifier_leaf p str ms len m t :
  Token.add_modifier (Leaf p str ms len) m = Ok t ->
  t = Leaf p str (ms ++ [m]) len.
Proof.
  unfold Token.add_modifier.
  destruct (str_in m (Token.modifiers (Leaf p str ms len))
            || negb (str_in m MODIFIERS)); [discriminate|].
  now intros [= <-].
Qed.

Lemma add_modifiers_shape p str len : forall mods ms t,
  Lexer.add_modifiers (Leaf p str ms len) mods = Ok t ->
  exists ms', t = Leaf p str ms' len.
Proof.
  induction mods as [|m mods IH]; intros ms t H; simpl in H.
  - injection H as <-. eauto.
  - apply bind_ok in H as [t1 [H1 H2]].
    apply add_modifier_leaf in H1. subst t1. eauto.
Qed.

(** Case analysis on a run of the monad that returned. *)
Ltac ok_inv H :=
  repeat match type of H with
         | bind _ _ = Ok _ =>
             let x := fresh "x" in
             let H1 := fresh "Hrun" in
             apply bind_ok in H as [x [H1 H]]
         | (let '(_, _) := ?p in _) = Ok _ =>
             let E := fresh "Epair" in destruct p eqn:E
         | Raise _ _ = Ok _ => discriminate H
         | OutOfFuel = Ok _ => discriminate H
         end.

(** Two results that differ in positions only. *)
Ltac same_token :=
  repeat match goal with
         | |- Ok _ = Ok _ => f_equal
         | |- (_, _) = (_, _) => f_equal
         | |- Some _ = Some _ => f_equal
         | |- Leaf _ _ _ _ = Leaf _ _ _ _ => f_equal
         | |- Group _ _ _ _ = Group _ _ _ _ => f_equal
         | |- @eq nat _ _ => lia
         end.

(** ** The span of a type token *)

Lemma token_never_eq_str nt mods :
  existsb (Lexer.token_eq_str nt) mods = false.
Proof. induction mods; simpl; auto. Qed.

Lemma resolve_modifiers_ok k1 p str ms len mods before nextTok cur tok1 :
  Lexer.resolve_modifiers k1 (Leaf p str ms len) mods before nextTok
  = Ok (cur, tok1) ->
  exists str',
    Lexer.add_modifiers (Leaf p str' ms (cur - p)) mods = Ok tok1
    /\ ((cur = before /\ str' = "int"
         /\ str_in (last mods "") ["signed"; "unsigned"] = true
         /\ match nextTok with
            | None => True
            | Some nt => Token.string_in nt PRIMTYPES = false
            end)
        \/ (cur = k1
            /\ exists nt, nextTok = Some nt
                          /\ Token.string_in nt PRIMTYPES = true
                          /\ str' = Token.str nt)).
Proof.
  unfold Lexer.resolve_modifiers. intros H.
  apply bind_ok in H as [[c t] [H1 H2]].
  destruct nextTok as [nt|].
  - destruct (Token.string_in nt PRIMTYPES) eqn:Hprim; cbn [negb] in H1.
    + injection H1 as <- <-. cbn in H2. ok_inv H2. injection H2 as <- <-.
      eexists. split; [eassumption|]. right. eauto.
    + destruct (str_in (last mods "") ["signed"; "unsigned"]) eqn:Hlast;
        [|ok_inv H1].
      injection H1 as <- <-. cbn in H2. ok_inv H2. injection H2 as <- <-.
      eexists. split; [eassumption|]. left. auto.
  - destruct (str_in (last mods "") ["signed"; "unsigned"]) eqn:Hlast;
      [|discriminate].
    injection H1 as <- <-. cbn in H2. ok_inv H2. injection H2 as <- <-.
    eexists. split; [eassumption|]. left. auto.
Qed.

Lemma parse_type_span s : forall f,
  (forall k p str ms j r,
      p <= k <= String.length s ->
      Lexer.parse_type s f k (Leaf p str ms (k - p)) = Ok (j, r) ->
      k <= j <= String.length s
      /\ forall tok', r = Some tok' ->
                      exists str' ms', tok' = Leaf p str' ms' (j - p))
  /\ (forall k1 p str ms len mods before nextTok j r,
         p <= before <= String.length s ->
         ident_at s before k1 nextTok ->
         Lexer.parse_type_mods s f k1 (Leaf p str ms len) mods before nextTok
         = Ok (j, r) ->
         before <= j <= String.length s
         /\ (consumed nextTok -> k1 <= j)
         /\ forall tok', r = Some tok' ->
                         exists str' ms', tok' = Leaf p str' ms' (j - p)).
Proof.
  induction f as [|f [IHt IHm]]; [split; intros; discriminate|].
  split.
  - intros k p str ms j r Hk H. cbn [Lexer.parse_type] in H.
    destruct (Token.string_is _ "struct").
    { destruct (Lexer.parse_ident s k) as [k1 name] eqn:Eid.
      apply parse_ident_inv in Eid.
      destruct name as [nm|]; [|discriminate].
      destruct (Token.string_in nm KEYWORDS); [ok_inv H|].
      cbn in H. ok_inv H. apply add_modifier_leaf in Hrun. subst x.
      injection H as <- <-.
      apply ident_at_some in Eid as [q [_ [Hq Hl]]].
      split; [lia|]. intros tok' [= <-]. eauto. }
    destruct (Token.string_in _ PRIMTYPES).
    { destruct (Token.string_is _ "long").
      - destruct (Lexer.parse_ident s k) as [k1 nextTok] eqn:Eid.
        apply parse_ident_inv in Eid.
        destruct nextTok as [nt|].
        + destruct (Token.string_in nt LONGTYPES).
          * cbn in H. injection H as <- <-.
            apply ident_at_some in Eid as [q [_ [Hq Hl]]].
            split; [lia|]. intros tok' [= <-]. eauto.
          * injection H as <- <-. split; [lia|]. intros tok' [= <-]. eauto.
        + injection H as <- <-. split; [lia|]. intros tok' [= <-]. eauto.
      - injection H as <- <-. split; [lia|]. intros tok' [= <-]. eauto. }
    destruct (Token.string_in _ MODIFIERS).
    + destruct (Lexer.parse_ident s k) as [k1 nextTok] eqn:Eid.
      apply parse_ident_inv in Eid.
      destruct (IHm _ _ _ _ _ _ _ _ _ _ Hk Eid H) as [Hj [_ Ht]].
      split; [lia|exact Ht].
    + injection H as <- <-. split; [lia|discriminate].
  - intros k1 p str ms len mods before nextTok j r Hb Hid H.
    cbn [Lexer.parse_type_mods] in H.
    pose proof (ident_at_le _ _ _ _ Hid) as Hle.
    pose proof (ident_at_bound _ _ _ _ Hid (proj2 Hb)) as Hk1.
    assert (Hexit :
      (x <- Lexer.resolve_modifiers k1 (Leaf p str ms len) mods before
              nextTok ;;
       (let '(curIndex, tok) := x in Lexer.parse_type s f curIndex tok))
      = Ok (j, r) ->
      match nextTok with
      | Some nt => Token.string_in nt MODIFIERS = false
      | None => True
      end ->
      before <= j <= String.length s
      /\ (consumed nextTok -> k1 <= j)
      /\ forall tok', r = Some tok' ->
                      exists str' ms', tok' = Leaf p str' ms' (j - p)).
    { intros Hx Hnm. apply bind_ok in Hx as [[cur tok1] [Hres Hre]].
      apply resolve_modifiers_ok in Hres as [str' [Hadd Hcase]].
      apply add_modifiers_shape in Hadd as [ms' ->].
      destruct Hcase as [[-> [-> [_ Hnp]]] | [-> [nt [-> [Hprim ->]]]]].
      - apply IHt in Hre as [Hj Ht]; [|lia].
        split; [lia|]. split; [|exact Ht].
        destruct nextTok as [nt|]; [|easy].
        intros [Hc | Hc]; congruence.
      - apply IHt in Hre as [Hj Ht]; [|lia].
        split; [lia|]. split; [lia|exact Ht]. }
    destruct nextTok as [nt|]; [|now apply Hexit].
    destruct (Token.string_in nt MODIFIERS) eqn:Hmod; [|now apply Hexit].
    clear Hexit. rewrite token_never_eq_str in H.
    destruct (Token.string_is nt "struct").
    { destruct (negb _ || negb _); [ok_inv H|].
      cbn in H. ok_inv H. apply add_modifier_leaf in Hrun. subst x.
      cbn in H. apply IHt in H as [Hj Ht]; [|lia].
      split; [lia|]. split; [lia|exact Ht]. }
    destruct (_ && _); [ok_inv H|].
    destruct (Lexer.parse_ident s k1) as [k2 nextTok2] eqn:Eid.
    apply parse_ident_inv in Eid.
    apply IHm in H as [Hj [_ Ht]]; [|lia|easy].
    split; [lia|]. split; [lia|exact Ht].
Qed.

(** ** The span of every token *)

Lemma skip_space_idem s i p ch :
  Lexer.skip_space s i = (p, ch) -> Lexer.skip_space s p = (p, ch).
Proof.
  intros H. destruct (skip_space_run s i) as [p' [H' Hr]].
  rewrite H in H'. injection H' as <- ->.
  destruct (skip_space_run s p) as [q [Hq Hrq]].
  assert (Hpp : run isspace s p p) by (apply run_refl; apply Hr).
  pose proof (run_unique _ _ _ _ _ Hrq Hpp) as ->. exact Hq.
Qed.

Lemma next_token_skip s f i p ch :
  Lexer.skip_space s i = (p, ch) ->
  Lexer.next_token s f i = Lexer.next_token s f p.
Proof.
  intros H. pose proof (skip_space_idem _ _ _ _ H) as H'.
  destruct f; [reflexivity|]. cbn [Lexer.next_token]. now rewrite H, H'.
Qed.

Lemma parse_ident_after_skip s i p c j r :
  Lexer.skip_space s i = (p, Some c) ->
  Lexer.parse_ident s p = (j, r) ->
  match r with
  | Some tok => exists str, tok = Leaf p str [] (j - p)
                            /\ p < j <= String.length s
                            /\ str = substring p (j - p) s
  | None => j = p
  end.
Proof.
  intros Hs Hid. apply skip_space_idem in Hs.
  destruct (skip_space_run s p) as [p' [Hs' Hr]].
  rewrite Hs in Hs'. injection Hs' as <- Hc.
  assert (Hpp : run isspace s p p) by (apply run_refl; apply Hr).
  apply parse_ident_inv in Hid.
  inversion Hid as [q Hq Hn | q j' c' Hq Hc' Hst Hj]; subst.
  - now apply (run_unique _ _ _ _ _ Hq Hpp).
  - pose proof (run_unique _ _ _ _ _ Hq Hpp) as ->.
    apply ident_at_some in Hid as [q [Heq [Hlt Hl]]].
    injection Heq as <- _ _. 
    eexists. split; [|split; [lia|reflexivity]].
    unfold Token.leaf. f_equal. apply length_substring. lia.
Qed.

Lemma lexed_spans s : forall f,
  (forall i j r,
      i <= String.length s ->
      Lexer.next_token s f i = Ok (j, r) ->
      i <= j <= String.length s
      /\ forall tok, r = Some tok ->
           exists a, i <= a /\ lexed_at s tok a j
                     /\ forall d, In d (subtokens tok) -> lexed s d)
  /\ (forall nested st ms len its i j g',
         i <= String.length s ->
         Lexer.parse_tokens_loop s f nested (Group st ms len its) i
         = Ok (j, g') ->
         exists st0 new,
           st = Some st0
           /\ g' = Group st ms (Some (j - st0)) (its ++ new)
           /\ i <= j <= String.length s
           /\ (nested = true -> i < j)
           /\ forall t, In t new ->
                lexed s t /\ forall d, In d (subtokens t) -> lexed s d).
Proof.
  induction f as [|f [IHn IHl]]; [split; intros; discriminate|].
  split.
  - intros i j r Hi H.
    assert (Hleaf : forall j' r' p str ms,
      Lexer.next_token s (S f) i = Ok (j', r') ->
      Lexer.skip_space s i = (p, String.get p s) ->
      i <= p -> p < j' <= String.length s ->
      r' = Some (Leaf p str ms (j' - p)) ->
      i <= j' <= String.length s
      /\ forall tok, r' = Some tok ->
           exists a, i <= a /\ lexed_at s tok a j'
                     /\ forall d, In d (subtokens tok) -> lexed s d).
    { intros j' r' p str ms H' Hs Hip Hj ->. split; [lia|].
      intros tok [= <-]. exists p. split; [easy|]. split.
      - repeat split; try easy; try lia. exists (S f).
        now rewrite <- (next_token_skip _ _ _ _ _ Hs).
      - intros d []. }
    specialize (Hleaf j r). pose proof H as H0.
    specialize (fun p str ms => Hleaf p str ms H0).
    cbn [Lexer.next_token] in H.
    destruct (skip_space_run s i) as [p [Hs Hr]]. rewrite Hs in H.
    pose proof Hr as [Hip _].
    pose proof (run_bound _ _ _ _ Hr Hi) as Hpl.
    destruct (String.get p s) as [c|] eqn:Hc;
      [|injection H as <- <-; split; [lia|discriminate]].
    pose proof (get_some_lt _ _ _ Hc) as Hp.
    rewrite <- Hc in Hs.
    assert (Hpunct : forall q j r,
               Lexer.punctuation s q c = Ok (j, r) ->
               j = q + 1 /\ r = Some (Leaf q (String c "") [] 1)).
    { unfold Lexer.punctuation. intros q j' tok'. rewrite nextchar_get.
      intros [= <- <-]. split; [easy|]. unfold Token.leaf.
      do 2 f_equal. lia. }
    destruct (chr_in c PUNCTUATION).
    { destruct (Ascii.eqb c "*").
      - rewrite nextchar_get in H.
        destruct (Lexer.parse_ident s (p + 1)) as [k1 ident] eqn:Eid.
        apply parse_ident_inv in Eid.
        destruct ident as [id|].
        + destruct (Token.string_is id "const").
          * apply bind_ok in H as [t0 [Ha H]].
            apply add_modifier_leaf in Ha. subst t0. injection H as <- <-.
            apply ident_at_some in Eid as [q [_ [Hq Hl]]].
            eapply (Hleaf p); [exact Hs|easy|lia|reflexivity].
          * apply Hpunct in H as [-> ->].
            eapply (Hleaf p); [exact Hs|easy|lia|do 2 f_equal; lia].
        + apply Hpunct in H as [-> ->].
          eapply (Hleaf p); [exact Hs|easy|lia|do 2 f_equal; lia].
      - apply Hpunct in H as [-> ->].
        eapply (Hleaf p); [exact Hs|easy|lia|do 2 f_equal; lia]. }
    clear Hpunct.
    destruct (Lexer.parse_ident s p) as [k1 tok0] eqn:Eid.
    rewrite Hc in Hs.
    pose proof (parse_ident_after_skip _ _ _ _ _ _ Hs Eid) as Hid.
    rewrite <- Hc in Hs.
    destruct tok0 as [tok0|].
    { destruct Hid as [str [-> [Hk1 _]]].
      destruct (Token.string_in _ KEYWORDS).
      - apply (proj1 (parse_type_span s f)) in H; [|lia].
        destruct H as [Hj Ht]. destruct r as [tok|]; [|split; [lia|easy]].
        destruct (Ht _ eq_refl) as [str' [ms' ->]].
        eapply (Hleaf p); [exact Hs|easy|lia|reflexivity].
      - injection H as <- <-.
        eapply (Hleaf p); [exact Hs|easy|lia|reflexivity]. }
    subst k1.
    destruct (isdigit c).
    { rewrite nextchar_get in H.
      destruct (while_char_run isdigit s (String.length s - (p + 1)) (p + 1))
        as [k [Hw Hk]]; [lia|].
      rewrite Hw in H. injection H as <- <-.
      pose proof (run_bound _ _ _ _ Hk ltac:(lia)) as Hkl.
      destruct Hk as [Hk _].
      eapply (Hleaf p); [exact Hs|easy|lia|].
      unfold Token.leaf. do 2 f_equal. apply length_substring. lia. }
    destruct (Ascii.eqb c "("); [|discriminate].
    rewrite nextchar_get in H.
    apply bind_ok in H as [[k g] [Hg H]]. injection H as <- <-.
    unfold Token.group in Hg.
    apply IHl in Hg; [|lia].
    destruct Hg as [st0 [new [Hst [-> [Hk [Hlt Hnew]]]]]].
    injection Hst as <-. specialize (Hlt eq_refl).
    replace (p + 1 - 1) with p in * by lia.
    split; [lia|]. intros tok [= <-].
    exists p. split; [easy|]. split.
    + repeat split; try (cbn; f_equal; lia); try lia. exists (S f).
      now rewrite <- (next_token_skip _ _ _ _ _ Hs).
    + cbn [subtokens app]. intros d Hd. apply in_flat_map in Hd.
      destruct Hd as [t [Ht [<- | Hd]]]; [now apply Hnew|].
      now apply (proj2 (Hnew t Ht)).
  - intros nested st ms len its i j g' Hi H.
    cbn [Lexer.parse_tokens_loop] in H.
    rewrite curchar_get in H.
    assert (Hset : forall k g,
      Lexer.set_length_to (Group st ms len its) k = Ok g ->
      exists st0, st = Some st0 /\ g = Group st ms (Some (k - st0)) its).
    { unfold Lexer.set_length_to. cbn. intros k g.
      destruct st as [st0|]; [|discriminate]. intros [= <-]. eauto. }
    destruct (nested && _) eqn:Hclose.
    { rewrite nextchar_get in H.
      apply bind_ok in H as [g [Hg H]]. injection H as <- <-.
      apply Hset in Hg as [st0 [-> ->]].
      apply andb_prop in Hclose as [_ Hclose].
      destruct (String.get i s) as [c|] eqn:Hc; [|discriminate].
      apply get_some_lt in Hc.
      exists st0, []. rewrite app_nil_r.
      split; [reflexivity|]. split; [reflexivity|]. split; [lia|].
      split; [intros; lia|]. intros t []. }
    apply bind_ok in H as [[k tok] [Hn H]].
    apply IHn in Hn as [Hk Htok]; [|easy].
    destruct tok as [tok|].
    + destruct (Htok _ eq_refl) as [a [Hia [Hlex Hsub]]].
      unfold Token.append in H. apply IHl in H; [|lia].
      destruct H as [st0 [new [-> [-> [Hj [Hlt Hnew]]]]]].
      exists st0, (tok :: new). rewrite <- app_assoc.
      pose proof Hlex as [Hst [Hlen [Hspan Hrun]]].
      split; [reflexivity|]. split; [reflexivity|]. split; [lia|].
      split; [intros; lia|]. intros t [<- | Ht]; [|now apply Hnew].
      split; [now exists a, k | exact Hsub].
    + destruct nested; [discriminate|].
      apply bind_ok in H as [g [Hg H]]. injection H as <- <-.
      apply Hset in Hg as [st0 [-> ->]].
      exists st0, []. rewrite app_nil_r.
      split; [reflexivity|]. split; [reflexivity|]. split; [lia|].
      split; [discriminate|]. intros t [].
Qed.

Lemma group_ends_with_paren s : forall f st ms len its i j g',
  i <= String.length s ->
  Lexer.parse_tokens_loop s f true (Group st ms len its) i = Ok (j, g') ->
  i < j /\ String.get (j - 1) s = Some ")"%char.
Proof.
  induction f as [|f IH]; intros st ms len its i j g' Hi H; [discriminate|].
  cbn [Lexer.parse_tokens_loop] in H. rewrite curchar_get in H.
  cbn [andb] in H.
  destruct (String.get i s) as [c|] eqn:Hc.
  - destruct (Ascii.eqb_spec c ")") as [->|Hne].
    + rewrite nextchar_get in H. ok_inv H. injection H as <- _.
      split; [lia|]. now replace (i + 1 - 1) with i by lia.
    + apply bind_ok in H as [[k tok] [Hn H]].
      apply (proj1 (lexed_spans s f)) in Hn as [Hk _]; [|easy].
      destruct tok as [tok|]; [|discriminate].
      unfold Token.append in H. apply IH in H; [|lia]. split; [lia|easy].
  - apply bind_ok in H as [[k tok] [Hn H]].
    apply (proj1 (lexed_spans s f)) in Hn as [Hk _]; [|easy].
    destruct tok as [tok|]; [|discriminate].
    unfold Token.append in H. apply IH in H; [|lia]. split; [lia|easy].
Qed.

(** ** Tokens moved to the left *)

Lemma add_modifier_any p str ms len m t :
  Token.add_modifier (Leaf p str ms len) m = Ok t ->
  forall p' len',
    Token.add_modifier (Leaf p' str ms len') m
    = Ok (Leaf p' str (ms ++ [m]) len').
Proof.
  unfold Token.add_modifier. cbn [Token.modifiers].
  destruct (str_in m ms || negb (str_in m MODIFIERS)); [discriminate|].
  reflexivity.
Qed.

Lemma add_modifiers_any p str len p' len' : forall mods ms t,
  Lexer.add_modifiers (Leaf p str ms len) mods = Ok t ->
  exists ms', t = Leaf p str ms' len
              /\ Lexer.add_modifiers (Leaf p' str ms len') mods
                 = Ok (Leaf p' str ms' len').
Proof.
  induction mods as [|m mods IH]; intros ms t H; cbn [Lexer.add_modifiers] in *.
  - injection H as <-. eauto.
  - apply bind_ok in H as [t1 [H1 H2]].
    rewrite (add_modifier_any _ _ _ _ _ _ H1 p' len'). cbn [bind].
    apply add_modifier_leaf in H1. subst t1. now apply IH.
Qed.

Lemma parse_type_int s f k p ms len :
  Lexer.parse_type s (S f) k (Leaf p "int" ms len)
  = Ok (k, Some (Leaf p "int" ms len)).
Proof. reflexivity. Qed.

Lemma resolve_modifiers_int k1 p str ms len mods before nextTok :
  str_in (last mods "") ["signed"; "unsigned"] = true ->
  match nextTok with
  | None => True
  | Some nt => Token.string_in nt PRIMTYPES = false
  end ->
  Lexer.resolve_modifiers k1 (Leaf p str ms len) mods before nextTok
  = (tok <- Lexer.add_modifiers (Leaf p "int" ms (before - p)) mods ;;
     Ok (before, tok)).
Proof.
  intros Hlast Hn. unfold Lexer.resolve_modifiers.
  destruct nextTok as [nt|]; [rewrite Hn|]; cbn [negb]; rewrite Hlast;
    reflexivity.
Qed.

Lemma resolve_modifiers_prim k1 p str ms len mods before nt :
  Token.string_in nt PRIMTYPES = true ->
  Lexer.resolve_modifiers k1 (Leaf p str ms len) mods before (Some nt)
  = (tok <- Lexer.add_modifiers (Leaf p (Token.str nt) ms (k1 - p)) mods ;;
     Ok (k1, tok)).
Proof.
  intros Hn. unfold Lexer.resolve_modifiers. rewrite Hn. reflexivity.
Qed.

(** ** A string and one of its substrings *)

Section Substring.

Variables (s : string) (a l : nat).
Hypothesis Hal : a + l <= String.length s.

Local Notation "'sub'" := (substring a l s).

Lemma length_sub : String.length sub = l.
Proof. now apply length_substring. Qed.

Lemma get_sub k : k < l -> String.get k sub = String.get (a + k) s.
Proof.
  intros H. rewrite get_substring.
  now apply Nat.ltb_lt in H as ->.
Qed.

Lemma get_sub_end k : l <= k -> String.get k sub = None.
Proof. intros H. apply get_none_iff. now rewrite length_sub. Qed.

Lemma run_sub P i j :
  run P s i j -> a <= i -> j <= a + l -> run P sub (i - a) (j - a).
Proof.
  intros [Hij [Hin Hstop]] Hai Hj. split; [lia|]. split.
  - intros k Hk. rewrite get_sub by lia. apply Hin. lia.
  - destruct (Nat.eq_dec j (a + l)) as [->|Hne].
    + rewrite get_sub_end by lia. exact I.
    + rewrite get_sub by lia. now replace (a + (j - a)) with j by lia.
Qed.

Lemma ident_at_sub i j r :
  ident_at s i j r -> a <= i -> j <= a + l ->
  ident_at sub (i - a) (j - a) (option_map (rebase a) r).
Proof.
  intros H Hai Hj. destruct H as [p Hp Hn | p j c Hp Hc Hst Hr].
  - pose proof Hp as [Hip _]. apply ident_none; [now apply run_sub|].
    destruct (Nat.eq_dec p (a + l)) as [->|Hne].
    + now rewrite get_sub_end by lia.
    + rewrite get_sub by lia. now replace (a + (p - a)) with p by lia.
  - pose proof Hp as [Hip _]. pose proof Hr as [Hpj _].
    cbn [option_map rebase Token.leaf].
    replace (String.length (substring p (j - p) s))
      with (String.length (substring (p - a) (j - a - (p - a)) sub)).
    2:{ rewrite substring_substring by lia. do 2 f_equal; lia. }
    replace (substring p (j - p) s)
      with (substring (p - a) (j - a - (p - a)) sub).
    2:{ rewrite substring_substring by lia. f_equal; lia. }
    apply (ident_some sub (i - a) (p - a) (j - a) c).
    + apply run_sub; [easy|easy|lia].
    + rewrite get_sub by lia. now replace (a + (p - a)) with p by lia.
    + exact Hst.
    + replace (p - a + 1) with (p + 1 - a) by lia.
      apply run_sub; [easy|lia|easy].
Qed.

Lemma ident_at_end i : l <= i -> ident_at sub i i None.
Proof.
  intros H. apply ident_none.
  - apply run_refl. now rewrite get_sub_end.
  - now rewrite get_sub_end.
Qed.

Lemma run_stop P i j q c :
  run P s i j -> i <= q -> String.get q s = Some c -> P c = false -> j <= q.
Proof.
  intros [_ [Hin _]] Hiq Hc HP.
  destruct (Nat.le_gt_cases j q) as [|Hgt]; [easy|].
  destruct (Hin q) as [c' [Hc' HP']]; [lia|]. congruence.
Qed.

Lemma ident_at_stop i j r q :
  ident_at s i j r -> i <= q -> String.get q s = Some ")"%char -> j <= q.
Proof.
  intros H Hiq Hq. destruct H as [p Hp Hn | p j c Hp Hc Hst Hr].
  - now apply (run_stop _ _ _ _ _ Hp Hiq Hq).
  - pose proof (run_stop _ _ _ _ _ Hp Hiq Hq eq_refl) as Hpq.
    assert (p <> q) by (intros ->; rewrite Hq in Hc; now injection Hc as <-).
    apply (run_stop _ _ _ _ ")"%char Hr); [lia|exact Hq|reflexivity].
Qed.

(** What [parse_ident] reads ahead from a cursor that is [safe]: the same
    as in [s], or nothing because the substring ends there. *)
Lemma look_ahead k k1 r :
  ident_at s k k1 r -> a <= k -> safe s a l k ->
  (k1 <= a + l
   /\ Lexer.parse_ident sub (k - a) = (k1 - a, option_map (rebase a) r))
  \/ (k = a + l /\ Lexer.parse_ident sub (k - a) = (k - a, None)).
Proof.
  intros H Hak [-> | [q [Hkq [Hq Hc]]]].
  - right. split; [easy|]. apply parse_ident_eq. apply ident_at_end. lia.
  - left. pose proof (ident_at_stop _ _ _ _ H Hkq Hc) as Hk1.
    split; [lia|]. apply parse_ident_eq. apply ident_at_sub; [easy|easy|lia].
Qed.

Lemma safe_le j : safe s a l j -> j <= a + l.
Proof. intros [-> | [q [? [? _]]]]; lia. Qed.

(** ** Reading a type token again in the substring *)

Lemma parse_type_sim : forall f,
  (forall k p str ms j tok' f',
      a <= p -> p <= k <= String.length s ->
      Lexer.parse_type s f k (Leaf p str ms (k - p)) = Ok (j, Some tok') ->
      safe s a l j ->
      2 * (l - (k - a)) + 3 <= f' ->
      Lexer.parse_type sub f' (k - a) (Leaf (p - a) str ms (k - p))
      = Ok (j - a, Some (rebase a tok')))
  /\ (forall k1 p str ms len mods before nextTok j tok' f' k1' nextTok',
         a <= p -> p <= before <= String.length s ->
         ident_at s before k1 nextTok ->
         Lexer.parse_type_mods s f k1 (Leaf p str ms len) mods before nextTok
         = Ok (j, Some tok') ->
         safe s a l j ->
         2 * (l - (before - a)) + 2 <= f' ->
         Lexer.parse_ident sub (before - a) = (k1', nextTok') ->
         Lexer.parse_type_mods sub f' k1' (Leaf (p - a) str ms len) mods
           (before - a) nextTok'
         = Ok (j - a, Some (rebase a tok'))).
Proof.
  induction f as [|f [IHt IHm]]; [split; intros; discriminate|].
  split.
  - intros k p str ms j tok' f' Hap Hk H Hsafe Hf'.
    destruct f' as [|f']; [lia|].
    pose proof (safe_le _ Hsafe) as Hjl.
    cbn [Lexer.parse_type] in H |- *.
    cbn [Token.string_is Token.string_in Token.string] in H |- *.
    destruct (String.eqb str "struct").
    { destruct (Lexer.parse_ident s k) as [k1 name] eqn:Eid.
      apply parse_ident_inv in Eid.
      destruct name as [nm|]; [|discriminate].
      destruct (Token.string_in nm KEYWORDS) eqn:Hkw; [ok_inv H|].
      cbn in H. ok_inv H. pose proof Hrun as Hadd.
      apply add_modifier_leaf in Hrun. subst x. injection H as <- <-.
      pose proof (ident_at_some _ _ _ _ Eid) as [q [-> [Hq Hl]]].
      rewrite (parse_ident_eq _ _ _ _ (ident_at_sub _ _ _ Eid ltac:(lia) Hjl)).
      cbn [option_map rebase]. cbn in Hkw |- *. rewrite Hkw.
      rewrite (add_modifier_any _ _ _ _ _ _ Hadd). cbn.
      do 4 f_equal. lia. }
    destruct (str_in str PRIMTYPES).
    { destruct (String.eqb str "long").
      - destruct (Lexer.parse_ident s k) as [k1 nextTok] eqn:Eid.
        apply parse_ident_inv in Eid.
        destruct (match nextTok with
                  | Some nt => Token.string_in nt LONGTYPES
                  | None => false
                  end) eqn:Hlong.
        + destruct nextTok as [nt|]; [|discriminate].
          cbn in H. injection H as <- <-.
          pose proof (ident_at_some _ _ _ _ Eid) as [q [-> [Hq Hl]]].
          rewrite (parse_ident_eq _ _ _ _
                     (ident_at_sub _ _ _ Eid ltac:(lia) Hjl)).
          cbn [option_map rebase]. cbn in Hlong |- *. rewrite Hlong.
          cbn. do 4 f_equal. lia.
        + injection H as <- <-.
          destruct (look_ahead _ _ _ Eid ltac:(lia) Hsafe)
            as [[Hk1 ->] | [Hkl ->]].
          * destruct nextTok as [nt|]; [|reflexivity].
            pose proof (ident_at_some _ _ _ _ Eid) as [q [-> _]].
            cbn [option_map rebase]. cbn in Hlong |- *. now rewrite Hlong.
          * reflexivity.
      - injection H as <- <-. reflexivity. }
    destruct (str_in str MODIFIERS); [|discriminate].
    destruct (Lexer.parse_ident s k) as [k1 nextTok] eqn:Eid.
    apply parse_ident_inv in Eid.
    destruct (Lexer.parse_ident sub (k - a)) as [k1' nextTok'] eqn:Eid'.
    cbn [Token.str Token.string].
    eapply IHm; eauto. lia.
  - intros k1 p str ms len mods before nextTok j tok' f' k1' nextTok'
           Hap Hb Hid H Hsafe Hf' Hid'.
    destruct f' as [|f']; [lia|].
    pose proof (safe_le _ Hsafe) as Hjl.
    pose proof (proj2 (parse_type_span s (S f)) _ _ _ _ _ _ _ _ _ _
                  Hb Hid H) as [Hbj [Hcons _]].
    pose proof (ident_at_le _ _ _ _ Hid) as Hle.
    pose proof (ident_at_bound _ _ _ _ Hid (proj2 Hb)) as Hk1.
    (* What was read ahead is part of the token: it is read in the
       substring too. *)
    assert (Hexact : consumed nextTok ->
                     k1 <= a + l /\ k1' = k1 - a
                     /\ nextTok' = option_map (rebase a) nextTok).
    { intros Hc. specialize (Hcons Hc).
      rewrite (parse_ident_eq _ _ _ _
                 (ident_at_sub _ _ _ Hid ltac:(lia) ltac:(lia))) in Hid'.
      injection Hid' as <- <-. repeat split. lia. }
    (* Leaving the loop on an identifier that is no part of the token. *)
    assert (Hexit :
      (x <- Lexer.resolve_modifiers k1 (Leaf p str ms len) mods before
              nextTok ;;
       (let '(curIndex, tok) := x in Lexer.parse_type s f curIndex tok))
      = Ok (j, Some tok') ->
      match nextTok with
      | Some nt => Token.string_in nt MODIFIERS = false
                   /\ Token.string_in nt PRIMTYPES = false
      | None => True
      end ->
      Lexer.parse_type_mods sub (S f') k1' (Leaf (p - a) str ms len) mods
        (before - a) nextTok'
      = Ok (j - a, Some (rebase a tok'))).
    { intros Hx Hno. apply bind_ok in Hx as [[cur tok1] [Hres Hre]].
      apply resolve_modifiers_ok in Hres as [str' [Hadd Hcase]].
      destruct Hcase as [[-> [-> [Hlast Hnp]]] | [_ [nt [-> [Hprim _]]]]];
        [|destruct Hno; congruence].
      destruct (add_modifiers_any _ _ _ (p - a) (before - a - (p - a))
                  _ _ _ Hadd) as [ms' [-> Hadd']].
      destruct f as [|f]; [discriminate|].
      rewrite parse_type_int in Hre. injection Hre as <- <-.
      assert (Hnext' : match nextTok' with
                       | Some nt => Token.string_in nt MODIFIERS = false
                                    /\ Token.string_in nt PRIMTYPES = false
                       | None => True
                       end).
      { destruct (look_ahead _ _ _ Hid ltac:(lia) Hsafe)
          as [[_ Hla] | [_ Hla]];
          rewrite Hla in Hid'; injection Hid' as <- <-; [|exact I].
        destruct nextTok as [nt|]; [|exact I].
        pose proof (ident_at_some _ _ _ _ Hid) as [q [-> _]]. exact Hno. }
      assert (Hres' :
        Lexer.resolve_modifiers k1' (Leaf (p - a) str ms len) mods
          (before - a) nextTok'
        = Ok (before - a, Leaf (p - a) "int" ms' (before - a - (p - a)))).
      { rewrite resolve_modifiers_int; [now rewrite Hadd'|exact Hlast|].
        destruct nextTok'; [apply Hnext'|exact I]. }
      destruct f' as [|f']; [lia|].
      cbn [Lexer.parse_type_mods].
      destruct nextTok' as [nt'|].
      - destruct Hnext' as [-> _]. rewrite Hres'. cbn [bind].
        rewrite parse_type_int. cbn [rebase]. do 4 f_equal. lia.
      - rewrite Hres'. cbn [bind].
        rewrite parse_type_int. cbn [rebase]. do 4 f_equal. lia. }
    cbn [Lexer.parse_type_mods] in H.
    destruct nextTok as [nt|]; [|now apply Hexit].
    pose proof (ident_at_some _ _ _ _ Hid) as [q [-> [Hq _]]].
    destruct (Token.string_in _ MODIFIERS) eqn:Hmod.
    { (* One more modifier. *)
      clear Hexit.
      destruct Hexact as [Hk1l [-> ->]]; [left; exact Hmod|].
      cbn [option_map rebase Lexer.parse_type_mods].
      cbn [Token.string_in Token.string_is Token.string Token.str] in *.
      rewrite Hmod. rewrite token_never_eq_str in *.
      destruct (String.eqb _ "struct").
      - destruct (negb _ || negb _); [ok_inv H|].
        cbn in H. ok_inv H. pose proof Hrun as Hadd.
        apply add_modifier_leaf in Hrun. subst x. cbn in H.
        cbn [Lexer.set_length_to Token.start Token.set_length bind].
        rewrite (add_modifier_any _ _ _ _ _ _ Hadd). cbn.
        replace (k1 - a - (p - a)) with (k1 - p) by lia.
        eapply IHt; eauto; lia.
      - destruct (_ && _); [ok_inv H|].
        destruct (Lexer.parse_ident s k1) as [k2 nextTok2] eqn:Eid.
        apply parse_ident_inv in Eid.
        destruct (Lexer.parse_ident sub (k1 - a)) as [k2' nextTok2'] eqn:Eid'.
        eapply IHm; eauto; lia. }
    destruct (Token.string_in _ PRIMTYPES) eqn:Hprim; [|now apply Hexit].
    (* The name of a primitive type. *)
    clear Hexit.
    destruct Hexact as [Hk1l [-> ->]]; [right; exact Hprim|].
    cbn [option_map rebase Lexer.parse_type_mods].
    rewrite resolve_modifiers_prim in H by exact Hprim.
    apply bind_ok in H as [[cur tok1] [Hadd Hre]].
    apply bind_ok in Hadd as [tok2 [Hadd Heq]]. injection Heq as <- <-.
    destruct (add_modifiers_any _ _ _ (p - a) (k1 - a - (p - a))
                _ _ _ Hadd) as [ms' [-> Hadd']].
    cbn [Token.string_in Token.string] in Hmod, Hprim |- *.
    rewrite Hmod.
    rewrite resolve_modifiers_prim by exact Hprim.
    cbn [Token.str Token.string] in Hadd' |- *. rewrite Hadd'.
    cbn [bind].
    replace (k1 - a - (p - a)) with (k1 - p) by lia.
    eapply IHt; eauto; lia.
Qed.

(** ** Reading a token again in the substring *)

Lemma rebase_append g t :
  rebase a (Token.append g t) = Token.append (rebase a g) (rebase a t).
Proof.
  destruct g as [|st ms len its]; [reflexivity|]. cbn.
  now rewrite map_app.
Qed.

Lemma next_token_sim : forall f,
  (forall i j tok f',
      a <= i -> i <= String.length s ->
      Lexer.next_token s f i = Ok (j, Some tok) ->
      safe s a l j ->
      2 * (l - (i - a)) + 2 <= f' ->
      Lexer.next_token sub f' (i - a) = Ok (j - a, Some (rebase a tok)))
  /\ (forall st0 ms len its i j g' f',
         a <= st0 -> a <= i -> i <= String.length s ->
         Lexer.parse_tokens_loop s f true (Group (Some st0) ms len its) i
         = Ok (j, g') ->
         j <= a + l ->
         2 * (l - (i - a)) + 3 <= f' ->
         Lexer.parse_tokens_loop sub f' true
           (rebase a (Group (Some st0) ms len its)) (i - a)
         = Ok (j - a, rebase a g')).
Proof.
  induction f as [|f [IHn IHl]]; [split; intros; discriminate|].
  split.
  - intros i j tok f' Hai Hi H Hsafe Hf'.
    destruct f' as [|f']; [lia|].
    pose proof (safe_le _ Hsafe) as Hjl.
    destruct (skip_space_run s i) as [p [Hs Hr]].
    pose proof Hr as [Hip _].
    pose proof H as Hp. rewrite (next_token_skip _ _ _ _ _ Hs) in Hp.
    apply (proj1 (lexed_spans s (S f))) in Hp as [_ Hp];
      [|now apply run_bound with isspace i].
    destruct (Hp _ eq_refl) as [a0 [Hpa0 [[_ [_ [Ha0j _]]] _]]]. clear Hp.
    cbn [Lexer.next_token] in H |- *. rewrite Hs in H.
    rewrite (skip_space_eq _ _ _ (run_sub _ _ _ Hr Hai ltac:(lia))).
    rewrite get_sub by lia. replace (a + (p - a)) with p by lia.
    destruct (String.get p s) as [c|] eqn:Hc; [|discriminate].
    assert (Hpunct : forall q, a <= q ->
      Lexer.punctuation s q c = Ok (j, Some tok) ->
      Lexer.punctuation sub (q - a) c = Ok (j - a, Some (rebase a tok))).
    { unfold Lexer.punctuation. intros q Hq. rewrite !nextchar_get.
      intros [= <- <-]. unfold Token.leaf. cbn [rebase]. same_token. }
    destruct (chr_in c PUNCTUATION).
    { destruct (Ascii.eqb c "*"); [|apply Hpunct; [lia|assumption]].
      rewrite nextchar_get in H |- *.
      destruct (Lexer.parse_ident s (p + 1)) as [k1 ident] eqn:Eid.
      apply parse_ident_inv in Eid.
      replace (p - a + 1) with (p + 1 - a) by lia.
      destruct (match ident with
                | Some i0 => Token.string_is i0 "const"
                | None => false
                end) eqn:Hconst.
      - destruct ident as [id|]; [|discriminate].
        cbn in H. injection H as <- <-.
        pose proof (ident_at_some _ _ _ _ Eid) as [q [-> [Hq Hl]]].
        rewrite (parse_ident_eq _ _ _ _
                   (ident_at_sub _ _ _ Eid ltac:(lia) Hjl)).
        cbn [option_map rebase]. cbn in Hconst |- *. rewrite Hconst.
        cbn. same_token.
      - pose proof H as H'. unfold Lexer.punctuation in H'.
        rewrite nextchar_get in H'. injection H' as <- _.
        destruct (look_ahead _ _ _ Eid ltac:(lia) Hsafe)
          as [[Hk1 ->] | [Hkl ->]].
        + destruct ident as [id|]; [|apply Hpunct; [lia|assumption]].
          pose proof (ident_at_some _ _ _ _ Eid) as [q [-> _]].
          cbn [option_map rebase]. cbn in Hconst |- *. rewrite Hconst.
          apply Hpunct; [lia|assumption].
        + apply Hpunct; [lia|assumption]. }
    clear Hpunct.
    destruct (Lexer.parse_ident s p) as [k1 tok0] eqn:Eid.
    pose proof (parse_ident_after_skip _ _ _ _ _ _ Hs Eid) as Hid.
    apply parse_ident_inv in Eid.
    destruct tok0 as [tok0|].
    { destruct Hid as [str [-> [Hk1 _]]].
      assert (Hk1j : k1 <= j).
      { destruct (Token.string_in _ KEYWORDS).
        - apply (proj1 (parse_type_span s f)) in H; [lia|lia].
        - injection H as <- _. lia. }
      rewrite (parse_ident_eq _ _ _ _
                 (ident_at_sub _ _ _ Eid ltac:(lia) ltac:(lia))).
      cbn [option_map rebase].
      cbn [Token.string_in Token.string] in H |- *.
      destruct (str_in str KEYWORDS).
      - apply (proj1 (parse_type_sim f)); try easy; lia.
      - injection H as <- <-. reflexivity. }
    subst k1.
    rewrite (parse_ident_eq _ _ _ _
               (ident_at_sub _ _ _ Eid ltac:(lia) ltac:(lia))).
    cbn [option_map].
    destruct (isdigit c).
    { rewrite nextchar_get in H |- *.
      destruct (while_char_run isdigit s (String.length s - (p + 1)) (p + 1))
        as [k [Hw Hk]]; [lia|].
      rewrite Hw in H. injection H as <- <-.
      pose proof Hk as [Hpk _].
      replace (p - a + 1) with (p + 1 - a) by lia.
      rewrite (while_char_eq _ _ _ _ _
                 (run_sub _ _ _ Hk ltac:(lia) ltac:(lia)))
        by (rewrite length_sub; lia).
      unfold Token.leaf. cbn [rebase]. rewrite substring_substring by lia.
      replace (a + (p - a)) with p by lia.
      replace (k - a - (p - a)) with (k - p) by lia. reflexivity. }
    destruct (Ascii.eqb c "("); [|discriminate].
    rewrite nextchar_get in H |- *.
    apply bind_ok in H as [[k g] [Hg H]]. injection H as <- <-.
    unfold Token.group in Hg |- *.
    eapply IHl with (f' := f') in Hg; try lia.
    cbn [rebase option_map map] in Hg.
    replace (p - a + 1) with (p + 1 - a) by lia.
    replace (p + 1 - a - 1) with (p + 1 - 1 - a) by lia.
    rewrite Hg. reflexivity.
  - intros st0 ms len its i j g' f' Hst Hai Hi H Hjl Hf'.
    destruct f' as [|f']; [lia|].
    pose proof (group_ends_with_paren _ _ _ _ _ _ _ _ _ Hi H)
      as [Hij Hclose].
    cbn [Lexer.parse_tokens_loop] in H. cbn [Lexer.parse_tokens_loop].
    rewrite curchar_get in H |- *. cbn [andb] in H |- *.
    rewrite get_sub by lia. replace (a + (i - a)) with i by lia.
    destruct (match String.get i s with
              | Some c => Ascii.eqb c ")"
              | None => false
              end).
    { rewrite nextchar_get in H |- *. cbn in H |- *.
      injection H as <- <-. cbn. same_token. }
    apply bind_ok in H as [[k tok] [Hn H]].
    destruct tok as [tok|]; [|discriminate].
    pose proof (proj1 (lexed_spans s f) _ _ _ Hi Hn) as [Hik Htok].
    destruct (Htok _ eq_refl) as [a0 [Hia0 [[_ [_ [Ha0k _]]] _]]].
    pose proof H as H'. unfold Token.append in H'.
    apply group_ends_with_paren in H' as [Hkj _]; [|lia].
    rewrite (IHn i k tok f'); try easy; try lia.
    2:{ right. exists (j - 1). repeat split; try lia. exact Hclose. }
    cbn [bind]. rewrite <- rebase_append.
    unfold Token.append in H |- *.
    eapply IHl in H; try eassumption; try lia.
Qed.

End Substring.

(** ** Lexing a token again *)

Lemma relex_lexed_at s tok a j :
  lexed_at s tok a j ->
  lex (substring a (j - a) s)
  = Ok (Group (Some 0) [] (Some (j - a)) [rebase a tok]).
Proof.
  intros [_ [_ [Haj [f Hf]]]].
  assert (Hal : a + (j - a) <= String.length s) by lia.
  pose proof (length_sub s a (j - a) Hal) as Hlen.
  pose proof (proj1 (next_token_sim s a (j - a) Hal f) a j tok
                (2 * (j - a) + 3) (le_n a) ltac:(lia) Hf
                ltac:(left; lia) ltac:(lia)) as Hsim.
  rewrite Nat.sub_diag in Hsim.
  unfold lex, lex_fuel, Lexer.parse_tokens. rewrite Hlen.
  replace (2 * (j - a) + 4) with (S (S (S (2 * (j - a) + 1)))) by lia.
  replace (2 * (j - a) + 3) with (S (S (2 * (j - a) + 1))) in Hsim by lia.
  cbn [Lexer.parse_tokens_loop andb]. rewrite Hsim. cbn [bind].
  cbn [Lexer.next_token].
  rewrite (skip_space_eq _ _ (j - a)).
  2:{ apply run_refl. now rewrite get_sub_end. }
  rewrite get_sub_end by lia. cbn. now rewrite Nat.sub_0_r.
Qed.

(** ** The root group *)

Lemma parse_type_some s : forall f,
  (forall k p str ms len j r,
      str_in str KEYWORDS = true ->
      Lexer.parse_type s f k (Leaf p str ms len) = Ok (j, r) -> r <> None)
  /\ (forall k1 p str ms len mods before nextTok j r,
         Lexer.parse_type_mods s f k1 (Leaf p str ms len) mods before nextTok
         = Ok (j, r) -> r <> None).
Proof.
  assert (Hprim : forall str, str_in str PRIMTYPES = true ->
                              str_in str KEYWORDS = true).
  { intros str H. unfold KEYWORDS, str_in. rewrite existsb_app.
    unfold str_in in H. now rewrite H. }
  induction f as [|f [IHt IHm]]; [split; intros; discriminate|].
  split.
  - intros k p str ms len j r Hkw H. cbn [Lexer.parse_type] in H.
    cbn [Token.string_is Token.string_in Token.string] in H.
    destruct (String.eqb str "struct").
    { destruct (Lexer.parse_ident s k) as [k1 name].
      destruct name as [nm|]; [|discriminate].
      destruct (Token.string_in nm KEYWORDS); ok_inv H.
      injection H as _ <-. discriminate. }
    destruct (str_in str PRIMTYPES) eqn:Hp.
    { destruct (String.eqb str "long").
      - destruct (Lexer.parse_ident s k) as [k1 nextTok].
        destruct (match nextTok with
                  | Some nt => Token.string_in nt LONGTYPES
                  | None => false
                  end); ok_inv H; injection H as _ <-; discriminate.
      - injection H as _ <-. discriminate. }
    destruct (str_in str MODIFIERS) eqn:Hm.
    + destruct (Lexer.parse_ident s k) as [k1 nextTok].
      now apply IHm in H.
    + unfold KEYWORDS, str_in in Hkw. rewrite existsb_app in Hkw.
      unfold str_in in Hp, Hm. rewrite Hp, Hm in Hkw. discriminate.
  - intros k1 p str ms len mods before nextTok j r H.
    cbn [Lexer.parse_type_mods] in H.
    assert (Hexit :
      (x <- Lexer.resolve_modifiers k1 (Leaf p str ms len) mods before
              nextTok ;;
       (let '(curIndex, tok) := x in Lexer.parse_type s f curIndex tok))
      = Ok (j, r) -> r <> None).
    { intros Hx. apply bind_ok in Hx as [[cur tok1] [Hres Hre]].
      apply resolve_modifiers_ok in Hres as [str' [Hadd Hcase]].
      apply add_modifiers_shape in Hadd as [ms' ->].
      apply IHt in Hre; [easy|].
      destruct Hcase as [[_ [-> _]] | [_ [nt [_ [Hp ->]]]]]; [reflexivity|].
      apply Hprim. unfold Token.string_in, Token.str in *.
      now destruct (Token.string nt). }
    destruct nextTok as [nt|]; [|now apply Hexit].
    destruct (Token.string_in nt MODIFIERS); [|now apply Hexit].
    rewrite token_never_eq_str in H.
    destruct (Token.string_is nt "struct").
    { destruct (negb _ || negb _); [ok_inv H|].
      cbn in H. ok_inv H. apply add_modifier_leaf in Hrun. subst x.
      cbn in H. now apply IHt in H. }
    destruct (_ && _); [ok_inv H|].
    destruct (Lexer.parse_ident s k1) as [k2 nextTok2].
    now apply IHm in H.
Qed.

Lemma next_token_none s f i j :
  i <= String.length s ->
  Lexer.next_token s f i = Ok (j, None) -> j = String.length s.
Proof.
  intros Hi H. destruct f as [|f]; [discriminate|].
  cbn [Lexer.next_token] in H.
  destruct (skip_space_run s i) as [p [Hs Hr]]. rewrite Hs in H.
  pose proof (run_bound _ _ _ _ Hr Hi) as Hp.
  destruct (String.get p s) as [c|] eqn:Hc.
  - exfalso. unfold Lexer.punctuation in H.
    destruct (chr_in c PUNCTUATION).
    { destruct (Ascii.eqb c "*").
      - rewrite nextchar_get in H.
        destruct (Lexer.parse_ident s (p + 1)) as [k1 ident].
        destruct (match ident with
                  | Some i0 => Token.string_is i0 "const"
                  | None => false
                  end); [ok_inv H|rewrite ?nextchar_get in H];
          discriminate.
      - rewrite nextchar_get in H. discriminate. }
    destruct (Lexer.parse_ident s p) as [k1 tok0] eqn:Eid.
    destruct tok0 as [tok0|].
    + apply parse_ident_inv in Eid.
      apply ident_at_some in Eid as [q [-> _]].
      destruct (Token.string_in _ KEYWORDS) eqn:Hkw; [|discriminate].
      now apply (proj1 (parse_type_some s f)) in H.
    + destruct (isdigit c).
      * rewrite nextchar_get in H.
        destruct (Lexer.while_char s isdigit _ _ _). discriminate.
      * destruct (Ascii.eqb c "("); [|discriminate].
        rewrite nextchar_get in H. ok_inv H.
        destruct x. discriminate.
  - injection H as <-. apply get_none_iff in Hc. lia.
Qed.

Lemma root_ends_at_length s : forall f st ms len its i j g',
  i <= String.length s ->
  Lexer.parse_tokens_loop s f false (Group st ms len its) i = Ok (j, g') ->
  j = String.length s.
Proof.
  induction f as [|f IH]; intros st ms len its i j g' Hi H; [discriminate|].
  cbn [Lexer.parse_tokens_loop andb] in H.
  apply bind_ok in H as [[k tok] [Hn H]].
  destruct tok as [tok|].
  - apply (proj1 (lexed_spans s f)) in Hn as [Hk _]; [|easy].
    unfold Token.append in H. apply IH in H; [easy|lia].
  - apply next_token_none in Hn; [|easy]. ok_inv H. now injection H as <- _.
Qed.

Lemma equivalent_refl : forall t, equivalent t t.
Proof.
  fix IH 1. intros [p str ms len | st ms len its]; cbn; [easy|].
  induction its as [|x its IHits]; [exact I|]. split; [apply IH|exact IHits].
Qed.

Lemma equivalent_rebase a : forall t, equivalent t (rebase a t).
Proof.
  fix IH 1. intros [p str ms len | st ms len its]; cbn; [easy|].
  induction its as [|x its IHits]; [exact I|]. split; [apply IH|exact IHits].
Qed.

(** C10.  When [line] lexes to the group [root], lexing again the
    characters that a token spans gives an equivalent token: for the root
    itself the same group, and for any token below it a group with that one
    token in it, a leaf with the same lexeme and the same modifiers or a
    group with equivalent items. *)
Theorem relex_reproduces_token :
  forall line root,
    lex line = Ok root ->
    (exists root',
        relex line root = Some (Ok root') /\ equivalent root root')
    /\ forall tok,
         In tok (subtokens root) ->
         exists tok',
           relex line tok
           = Some (Ok (Group (Some 0) [] (Token.length tok) [tok']))
           /\ equivalent tok tok'.
Proof.
  intros line root H. pose proof H as Hlex.
  unfold lex in H. apply bind_ok in H as [[j g] [H Heq]].
  injection Heq as ->. unfold Lexer.parse_tokens, Token.group in H.
  pose proof (root_ends_at_length _ _ _ _ _ _ _ _ _ (Nat.le_0_l _) H) as ->.
  apply (proj2 (lexed_spans line _)) in H; [|lia].
  destruct H as [st0 [new [[= <-] [-> [_ [_ Hnew]]]]]].
  split.
  - exists (Group (Some 0) [] (Some (String.length line - 0)) ([] ++ new)).
    split; [|apply equivalent_refl].
    unfold relex, span_of. cbn [Token.start Token.length option_map].
    rewrite Nat.sub_0_r in *. rewrite substring_all, Hlex. reflexivity.
  - intros tok Hin. cbn [subtokens app] in Hin.
    apply in_flat_map in Hin as [t [Ht Hin]].
    assert (Hl : lexed line tok).
    { destruct Hin as [<- | Hin]; [exact (proj1 (Hnew t Ht))|].
      exact (proj2 (Hnew t Ht) tok Hin). }
    destruct Hl as [a [k Hat]]. exists (rebase a tok).
    split; [|apply equivalent_rebase].
    pose proof Hat as [Hst [Hlen _]].
    unfold relex, span_of. rewrite Hst, Hlen. cbn [option_map].
    now rewrite (relex_lexed_at _ _ _ _ Hat).
Qed.

(** The tokens of ['int ( *f)(char, int* )']. *)
Lemma relex_reproduces_token_witness :
  let root :=
    Group (Some 0) [] (Some 20)
      [Leaf 0 "int" [] 3;
       Group (Some 4) [] (Some 4) [Leaf 5 "*" [] 1; Leaf 6 "f" [] 1];
       Group (Some 8) [] (Some 12)
         [Leaf 9 "char" [] 4; Leaf 13 "," [] 1;
          Leaf 15 "int" [] 3; Leaf 18 "*" [] 1]] in
  lex "int (*f)(char, int*)" = Ok root
  /\ (exists root',
         relex "int (*f)(char, int*)" root = Some (Ok root')
         /\ equivalent root root')
  /\ forall tok,
       In tok (subtokens root) ->
       exists tok',
         relex "int (*f)(char, int*)" tok
         = Some (Ok (Group (Some 0) [] (Token.length tok) [tok']))
         /\ equivalent tok tok'.
Proof.
  intros root.
  assert (H : lex "int (*f)(char, int*)" = Ok root) by reflexivity.
  split; [exact H|].
  apply (relex_reproduces_token "int (*f)(char, int*)" root H).
Defined.

(** ** The fuel of the lexer is enough *)

Lemma bind_fuel {A B : Type} (m : result A) (k : A -> result B) :
  m <> OutOfFuel -> (forall x, m = Ok x -> k x <> OutOfFuel) ->
  bind m k <> OutOfFuel.
Proof. destruct m; simpl; intros H1 H2; [now apply H2 | easy | easy]. Qed.

Lemma underline_fuel t : Token.underline t <> OutOfFuel.
Proof.
  unfold Token.underline.
  destruct (Token.start t), (Token.length t); discriminate.
Qed.

Lemma set_length_to_fuel t k : Lexer.set_length_to t k <> OutOfFuel.
Proof. unfold Lexer.set_length_to. destruct (Token.start t); discriminate. Qed.

Lemma add_modifier_fuel t m : Token.add_modifier t m <> OutOfFuel.
Proof. unfold Token.add_modifier. destruct (_ || _); discriminate. Qed.

Lemma add_modifiers_fuel mods : forall t,
  Lexer.add_modifiers t mods <> OutOfFuel.
Proof.
  induction mods as [|m mods IH]; intros t; cbn; [discriminate|].
  apply bind_fuel; [apply add_modifier_fuel|]. intros x _. apply IH.
Qed.

(** A result built from pieces that do not use fuel does not run out of
    it. *)
Ltac fuel_free :=
  repeat match goal with
         | |- Ok _ <> OutOfFuel => discriminate
         | |- Raise _ _ <> OutOfFuel => discriminate
         | |- Token.underline _ <> OutOfFuel => apply underline_fuel
         | |- Lexer.set_length_to _ _ <> OutOfFuel => apply set_length_to_fuel
         | |- Token.add_modifier _ _ <> OutOfFuel => apply add_modifier_fuel
         | |- Lexer.add_modifiers _ _ <> OutOfFuel => apply add_modifiers_fuel
         | |- bind _ _ <> OutOfFuel => apply bind_fuel; [|intros ? ?]
         | |- (if ?c then _ else _) <> OutOfFuel => destruct c
         | |- (let '(_, _) := ?p in _) <> OutOfFuel => destruct p
         end.

Lemma resolve_modifiers_fuel k1 tok mods before nextTok :
  Lexer.resolve_modifiers k1 tok mods before nextTok <> OutOfFuel.
Proof.
  unfold Lexer.resolve_modifiers. fuel_free.
  all: destruct nextTok; fuel_free.
Qed.

Lemma parse_type_fuel s : forall f,
  (forall k p str ms len,
      2 * (String.length s - k) + 3 <= f ->
      Lexer.parse_type s f k (Leaf p str ms len) <> OutOfFuel)
  /\ (forall k1 p str ms len mods before nextTok,
         ident_at s before k1 nextTok ->
         2 * (String.length s - before) + 2 <= f ->
         Lexer.parse_type_mods s f k1 (Leaf p str ms len) mods before nextTok
         <> OutOfFuel).
Proof.
  induction f as [|f [IHt IHm]]; [split; intros; lia|].
  split.
  - intros k p str ms len Hf. cbn [Lexer.parse_type].
    destruct (Token.string_is _ "struct").
    { destruct (Lexer.parse_ident s k) as [k1 [nm|]]; fuel_free. }
    destruct (Token.string_in _ PRIMTYPES).
    { destruct (Token.string_is _ "long"); [|discriminate].
      destruct (Lexer.parse_ident s k) as [k1 nextTok]. fuel_free. }
    destruct (Token.string_in _ MODIFIERS); [|discriminate].
    destruct (Lexer.parse_ident s k) as [k1 nextTok] eqn:Eid.
    apply parse_ident_inv in Eid. eapply IHm; [exact Eid|lia].
  - intros k1 p str ms len mods before nextTok Hid Hf.
    cbn [Lexer.parse_type_mods].
    assert (Hexit :
      (x <- Lexer.resolve_modifiers k1 (Leaf p str ms len) mods before
              nextTok ;;
       (let '(curIndex, tok) := x in Lexer.parse_type s f curIndex tok))
      <> OutOfFuel).
    { apply bind_fuel; [apply resolve_modifiers_fuel|].
      intros [cur tok1] Hres.
      apply resolve_modifiers_ok in Hres as [str' [Hadd Hcase]].
      apply add_modifiers_shape in Hadd as [ms' ->].
      destruct Hcase as [[-> [-> _]] | [-> [nt [-> _]]]].
      - destruct f as [|f]; [lia|]. now rewrite parse_type_int.
      - apply ident_at_some in Hid as [q [_ [Hq Hl]]]. apply IHt. lia. }
    destruct nextTok as [nt|]; [|exact Hexit].
    destruct (Token.string_in nt MODIFIERS); [|exact Hexit].
    pose proof (ident_at_some _ _ _ _ Hid) as [q [-> [Hq Hl]]].
    rewrite token_never_eq_str.
    destruct (Token.string_is _ "struct").
    { destruct (negb _ || negb _); [fuel_free|].
      apply bind_fuel; [fuel_free|]. intros t1 Ht1.
      cbn in Ht1. injection Ht1 as <-.
      apply bind_fuel; [fuel_free|]. intros t2 Ht2.
      apply add_modifier_leaf in Ht2. subst t2. cbn. apply IHt. lia. }
    destruct (_ && _); [fuel_free|].
    destruct (Lexer.parse_ident s k1) as [k2 nextTok2] eqn:Eid.
    apply parse_ident_inv in Eid. eapply IHm; [exact Eid|lia].
Qed.

Lemma next_token_fuel s : forall f,
  (forall i,
      i <= String.length s ->
      2 * (String.length s - i) + 2 <= f ->
      Lexer.next_token s f i <> OutOfFuel)
  /\ (forall nested g i,
         i <= String.length s ->
         2 * (String.length s - i) + 3 <= f ->
         Lexer.parse_tokens_loop s f nested g i <> OutOfFuel).
Proof.
  induction f as [|f [IHn IHl]]; [split; intros; lia|].
  split.
  - intros i Hi Hf. cbn [Lexer.next_token].
    destruct (skip_space_run s i) as [p [Hs Hr]]. rewrite Hs.
    pose proof Hr as [Hip _].
    destruct (String.get p s) as [c|] eqn:Hc; [|discriminate].
    pose proof (get_some_lt _ _ _ Hc) as Hp.
    rewrite <- Hc in Hs. pose proof Hs as Hs'. rewrite Hc in Hs'.
    unfold Lexer.punctuation.
    destruct (chr_in c PUNCTUATION).
    { destruct (Ascii.eqb c "*"); [|fuel_free].
      rewrite nextchar_get.
      destruct (Lexer.parse_ident s (p + 1)) as [k1 ident]. fuel_free. }
    destruct (Lexer.parse_ident s p) as [k1 tok0] eqn:Eid.
    pose proof (parse_ident_after_skip _ _ _ _ _ _ Hs' Eid) as Hid.
    destruct tok0 as [tok0|].
    { destruct Hid as [str [-> [Hk1 _]]].
      destruct (Token.string_in _ KEYWORDS); [|discriminate].
      apply (proj1 (parse_type_fuel s f)). lia. }
    subst k1. destruct (isdigit c); [fuel_free|].
    destruct (Ascii.eqb c "("); [|discriminate].
    rewrite nextchar_get. apply bind_fuel; [apply IHl; lia|].
    intros [k g] _. discriminate.
  - intros nested g i Hi Hf. cbn [Lexer.parse_tokens_loop].
    destruct (nested && _); [fuel_free|].
    apply bind_fuel; [apply IHn; lia|]. intros [k tok] Hn.
    apply (proj1 (lexed_spans s f)) in Hn as [Hk Htok]; [|easy].
    destruct tok as [tok|]; [|fuel_free].
    destruct (Htok _ eq_refl) as [a0 [Hia0 [[_ [_ [Ha0k _]]] _]]].
    apply IHl; lia.
Qed.

(** Lexing never runs out of fuel: [lex] returns a root group or raises. *)
Lemma lex_total line : lex line <> OutOfFuel.
Proof.
  unfold lex, lex_fuel, Lexer.parse_tokens.
  apply bind_fuel; [|intros [j g] _; discriminate].
  apply (proj2 (next_token_fuel line _)); lia.
Qed.

(** ** The fuel of the parser is enough *)

Lemma error_at_fuel {A : Type} tok msg :
  @Parser.error_at A tok msg <> OutOfFuel.
Proof.
  unfold Parser.error_at. destruct tok as [tok|]; [|discriminate].
  destruct (Token.start tok), (Token.length tok); discriminate.
Qed.

Lemma error_fuel {A : Type} p msg : @Parser.error A p msg <> OutOfFuel.
Proof.
  unfold Parser.error. destruct (_ <=? _); [|apply error_at_fuel].
  destruct (last _ None) as [t|]; [|discriminate].
  destruct (Token.start t), (Token.length t); discriminate.
Qed.

Lemma expect_fuel p : Parser.expect p <> OutOfFuel.
Proof.
  unfold Parser.expect.
  destruct (Parser.current p); [discriminate|apply error_fuel].
Qed.

Lemma check_void_decl_fuel p voidTok :
  Parser.check_void_decl p voidTok <> OutOfFuel.
Proof.
  unfold Parser.check_void_decl.
  destruct (Parser.child p); [discriminate|apply error_at_fuel].
Qed.

Lemma int_of_fuel str : forall acc, Token.int_of acc str <> OutOfFuel.
Proof.
  induction str as [|c str IH]; intros acc; cbn; [discriminate|].
  destruct (between 48 57 _); [apply IH|discriminate].
Qed.

Lemma get_num_fuel t : Token.get_num t <> OutOfFuel.
Proof.
  unfold Token.get_num, Token.int. destruct (_ || _); [discriminate|].
  destruct (_ <? _); [discriminate|apply int_of_fuel].
Qed.

Ltac parser_fuel_free :=
  repeat match goal with
         | |- Ok _ <> OutOfFuel => discriminate
         | |- Raise _ _ <> OutOfFuel => discriminate
         | |- Parser.error _ _ <> OutOfFuel => apply error_fuel
         | |- Parser.error_at _ _ <> OutOfFuel => apply error_at_fuel
         | |- Parser.expect _ <> OutOfFuel => apply expect_fuel
         | |- Parser.check_void_decl _ _ <> OutOfFuel =>
             apply check_void_decl_fuel
         | |- Token.get_num _ <> OutOfFuel => apply get_num_fuel
         | |- Token.underline _ <> OutOfFuel => apply underline_fuel
         | |- bind _ _ <> OutOfFuel => apply bind_fuel; [|intros ? ?]
         | |- (if ?c then _ else _) <> OutOfFuel => destruct c
         | |- (let '(_, _) := ?p in _) <> OutOfFuel => destruct p
         end.

Lemma init_fuel tokens child : Parser.init tokens child <> OutOfFuel.
Proof. unfold Parser.init. parser_fuel_free. Qed.

Lemma init_group tokens child q :
  Parser.init tokens child = Ok q ->
  Parser.tokens q = tokens /\ Token.is_group tokens = true.
Proof.
  unfold Parser.init. destruct (Token.is_group tokens); cbn [negb orb].
  - destruct (_ =? 0); [intros H; ok_inv H|]. now intros [= <-].
  - intros H. ok_inv H.
Qed.

Lemma parse_name_or_group_fuel p :
  Parser.parse_name_or_group p <> OutOfFuel.
Proof.
  unfold Parser.parse_name_or_group.
  destruct (Parser.current p); parser_fuel_free.
Qed.

Lemma parse_dimensions_fuel : forall n p dims,
  Parser.parse_dimensions n p dims <> OutOfFuel.
Proof.
  induction n as [|n IH]; intros p dims; cbn [Parser.parse_dimensions];
    [discriminate|].
  destruct (Parser.current p); [|discriminate].
  destruct (Token.string_is _ "["); [|discriminate].
  parser_fuel_free. apply IH.
Qed.

Lemma wrap_arrays_fuel voidTok : forall dims child,
  Parser.wrap_arrays voidTok child dims <> OutOfFuel.
Proof.
  induction dims as [|d dims IH]; intros child; cbn [Parser.wrap_arrays];
    [discriminate|].
  apply bind_fuel; [destruct child; parser_fuel_free|].
  intros _ _. apply IH.
Qed.

Lemma take_param_incl : forall rest items rest',
  Parser.take_param rest = (items, rest') ->
  incl items rest /\ incl rest' rest.
Proof.
  induction rest as [|t rest IH]; intros items rest' H; cbn in H.
  - injection H as <- <-. split; apply incl_refl.
  - destruct (Token.string_is t ",").
    + injection H as <- <-. split; [apply incl_nil_l|apply incl_tl, incl_refl].
    + destruct (Parser.take_param rest) as [i r].
      injection H as <- <-. destruct (IH _ _ eq_refl) as [H1 H2].
      split; [now apply incl_cons; [left|apply incl_tl]|now apply incl_tl].
Qed.

Lemma depth_items st ms len its f :
  Token.depth (Group st ms len its) <= S f ->
  forall t, In t its -> Token.depth t <= f.
Proof.
  cbn [Token.depth]. intros H. apply le_S_n in H.
  induction its as [|x its IH]; intros t []; cbn [fold_right] in H.
  - subst. lia.
  - apply IH; [lia|assumption].
Qed.

Lemma depth_group st ms len its f :
  (forall t, In t its -> Token.depth t <= f) ->
  Token.depth (Group st ms len its) <= S f.
Proof.
  cbn [Token.depth]. intros H. apply le_n_S.
  induction its as [|x its IH]; cbn [fold_right]; [lia|].
  apply Nat.max_lub; [apply H; now left|].
  apply IH. intros t Ht. apply H. now right.
Qed.

Lemma current_in p tok :
  Parser.current p = Some tok -> In tok (Token.items (Parser.tokens p)).
Proof.
  unfold Parser.current. destruct (_ <=? _); [discriminate|].
  apply nth_error_In.
Qed.

Lemma error_at_raises {A : Type} tok msg (x : A) :
  Parser.error_at tok msg <> Ok x.
Proof.
  unfold Parser.error_at. destruct tok as [tok|]; [|discriminate].
  destruct (Token.start tok), (Token.length tok); discriminate.
Qed.

Lemma error_raises {A : Type} p msg (x : A) : Parser.error p msg <> Ok x.
Proof.
  unfold Parser.error. destruct (_ <=? _); [|apply error_at_raises].
  destruct (last _ None) as [t|]; [|discriminate].
  destruct (Token.start t), (Token.length t); discriminate.
Qed.

Lemma parse_pointers_tokens : forall n p,
  Parser.tokens (Parser.parse_pointers n p) = Parser.tokens p.
Proof.
  induction n as [|n IH]; intros p; cbn [Parser.parse_pointers].
  - now destruct (Parser.current p).
  - destruct (Parser.current p); [|reflexivity].
    destruct (Token.string_is _ "*"); [|reflexivity]. now rewrite IH.
Qed.

Lemma parse_name_or_group_ok p q g :
  Parser.parse_name_or_group p = Ok (q, g) ->
  Parser.tokens q = Parser.tokens p
  /\ forall t, g = Some t -> In t (Token.items (Parser.tokens p)).
Proof.
  unfold Parser.parse_name_or_group. intros H.
  destruct (Parser.current p) as [tok|] eqn:Hc;
    [|injection H as <- <-; now split].
  apply current_in in Hc.
  destruct (Token.is_name tok).
  - destruct (Token.string_in tok KEYWORDS);
      [now apply error_raises in H|].
    injection H as <- <-. now split.
  - destruct (Token.is_group tok); injection H as <- <-.
    + split; [easy|]. now intros t [= <-].
    + now split.
Qed.

Section ParserFuel.

Variables (parse : Parser.t -> result Node) (f : nat).

Hypothesis parse_fuel : forall q,
  Token.is_group (Parser.tokens q) = true ->
  Token.depth (Parser.tokens q) <= f ->
  parse q <> OutOfFuel.

Lemma parse_params_fuel : forall n rest params,
  1 <= f ->
  (forall t, In t rest -> Token.depth t <= f - 1) ->
  Parser.parse_params parse n rest params <> OutOfFuel.
Proof.
  induction n as [|n IH]; intros rest params Hf Hrest;
    cbn [Parser.parse_params]; [discriminate|].
  destruct rest as [|t rest]; [discriminate|].
  destruct (Parser.take_param (t :: rest)) as [items rest'] eqn:Et.
  apply take_param_incl in Et as [Hi Hr].
  apply bind_fuel; [apply init_fuel|]. intros q Hq.
  apply init_group in Hq as [Hq Hg].
  apply bind_fuel.
  - apply parse_fuel; [now rewrite Hq|]. rewrite Hq.
    replace f with (S (f - 1)) by lia. apply depth_group.
    intros x Hx. apply Hrest. now apply Hi.
  - intros node _. apply IH; [easy|]. intros x Hx. apply Hrest. now apply Hr.
Qed.

Lemma parse_parameter_list_fuel p :
  (forall t, In t (Token.items (Parser.tokens p)) -> Token.depth t <= f) ->
  Parser.parse_parameter_list parse p <> OutOfFuel.
Proof.
  intros Hd. unfold Parser.parse_parameter_list.
  destruct (Parser.current p) as [g|] eqn:Hc; [|discriminate].
  apply current_in, Hd in Hc.
  destruct g as [|st ms len its]; [discriminate|].
  cbn [Token.is_group Token.string].
  apply bind_fuel; [|discriminate].
  destruct (_ =? 0); [discriminate|].
  destruct (_ && _); [discriminate|].
  apply bind_fuel; [|discriminate].
  cbn [Token.items].
  assert (Hf : 1 <= f) by (cbn [Token.depth] in Hc; lia).
  apply parse_params_fuel; [exact Hf|].
  apply depth_items with st ms len. now replace (S (f - 1)) with f by lia.
Qed.

Lemma declarator_fuel p voidTok :
  (forall t, In t (Token.items (Parser.tokens p)) -> Token.depth t <= f) ->
  Parser.declarator parse p voidTok <> OutOfFuel.
Proof.
  intros Hd. unfold Parser.declarator.
  apply bind_fuel; [apply parse_name_or_group_fuel|].
  intros [p2 parentGroup] Hng.
  apply parse_name_or_group_ok in Hng as [Hp2 Hparent].
  rewrite parse_pointers_tokens in Hp2, Hparent.
  apply bind_fuel; [apply parse_parameter_list_fuel; now rewrite Hp2|].
  intros [[p3 isFunction] params] _.
  apply bind_fuel; [apply parse_dimensions_fuel|].
  intros [p4 dimensions] _.
  apply bind_fuel; [apply wrap_arrays_fuel|]. intros c _.
  apply bind_fuel;
    [destruct (Parser.current _); [apply error_fuel|discriminate]|].
  intros _ _.
  apply bind_fuel; [|intros; apply check_void_decl_fuel].
  destruct parentGroup as [g|]; [|discriminate].
  apply bind_fuel; [apply init_fuel|]. intros q Hq.
  apply init_group in Hq as [Hq Hg].
  apply bind_fuel; [|discriminate].
  apply parse_fuel; rewrite Hq; [exact Hg|]. apply Hd. now apply Hparent.
Qed.

Lemma parse_body_fuel p :
  (forall t, In t (Token.items (Parser.tokens p)) -> Token.depth t <= f) ->
  Parser.parse_body parse p <> OutOfFuel.
Proof.
  intros Hd. unfold Parser.parse_body.
  destruct (Parser.child p); [now apply declarator_fuel|].
  apply bind_fuel; [apply expect_fuel|]. intros tok _.
  apply bind_fuel; [destruct (negb _); [apply error_fuel|discriminate]|].
  intros _ _.
  destruct (Token.string_is tok "void"); cbn [Parser.next];
    (destruct (Parser.current _);
     [now apply declarator_fuel|apply check_void_decl_fuel]).
Qed.

End ParserFuel.

Lemma parse_fuel_enough : forall f p,
  Token.is_group (Parser.tokens p) = true ->
  Token.depth (Parser.tokens p) <= f ->
  Parser.parse f p <> OutOfFuel.
Proof.
  induction f as [|f IH]; intros p Hg Hd.
  - destruct (Parser.tokens p); [discriminate|cbn [Token.depth] in Hd; lia].
  - cbn [Parser.parse]. apply (parse_body_fuel (Parser.parse f) f IH).
    destruct (Parser.tokens p) as [|st ms len its]; [intros t []|].
    now apply depth_items with st ms len.
Qed.

(** A round of the main loop never runs out of fuel: [cdecl] returns a
    tree or raises. *)
Lemma cdecl_total line : cdecl line <> OutOfFuel.
Proof.
  unfold cdecl. apply bind_fuel; [apply lex_total|]. intros tokens _.
  apply bind_fuel; [apply init_fuel|]. intros q Hq.
  apply init_group in Hq as [Hq Hg].
  apply parse_fuel_enough; now rewrite Hq.
Qed.

(** * The tokens, the failures and the trees *)

(** ** The spans of the tokens of a line *)

Lemma spanned_group n st ms len its :
  spanned n (Group st ms len its)
  <-> (exists a l, st = Some a /\ len = Some l /\ 0 < l /\ a + l <= n)
      /\ Forall (spanned n) its.
Proof.
  cbn [spanned]. split; intros [H1 H2]; (split; [exact H1|]).
  - induction its as [|x its IH]; [constructor|].
    destruct H2 as [Hx H2]. constructor; [exact Hx|now apply IH].
  - induction H2 as [|x its Hx _ IH]; [exact I|]. now split.
Qed.

Lemma lexed_spanned s : forall t,
  lexed s t -> (forall d, In d (subtokens t) -> lexed s d) ->
  spanned (String.length s) t.
Proof.
  fix IH 1. intros [p str ms l | st ms len its] [a [j Hat]] Hsub.
  - destruct Hat as [Hst [Hlen [Hspan _]]]. cbn in Hst, Hlen |- *.
    injection Hst as ->. injection Hlen as ->. lia.
  - destruct Hat as [Hst [Hlen [Hspan _]]]. cbn in Hst, Hlen.
    cbn [spanned]. split.
    { exists a, (j - a). repeat split; try assumption; lia. }
    cbn [subtokens] in Hsub.
    induction its as [|x its IHits]; [exact I|]. split.
    + apply IH.
      * apply Hsub. cbn. now left.
      * intros d Hd. apply Hsub. cbn. right. apply in_or_app. now left.
    + apply IHits. intros d Hd. apply Hsub. cbn. right.
      apply in_or_app. now right.
Qed.

Lemma lex_root line root :
  lex line = Ok root ->
  exists items,
    root = Group (Some 0) [] (Some (String.length line)) items
    /\ forall t, In t items ->
         lexed line t /\ forall d, In d (subtokens t) -> lexed line d.
Proof.
  intros H. unfold lex in H. apply bind_ok in H as [[j g] [H Heq]].
  injection Heq as ->. unfold Lexer.parse_tokens, Token.group in H.
  pose proof (root_ends_at_length _ _ _ _ _ _ _ _ _ (Nat.le_0_l _) H) as ->.
  apply (proj2 (lexed_spans line _)) in H; [|lia].
  destruct H as [st0 [new [[= <-] [-> [_ [_ Hnew]]]]]].
  exists new. rewrite Nat.sub_0_r. split; [reflexivity|exact Hnew].
Qed.

Lemma lex_subtokens line root tok :
  lex line = Ok root -> In tok (subtokens root) ->
  lexed line tok /\ forall d, In d (subtokens tok) -> lexed line d.
Proof.
  intros H Hin. apply lex_root in H as [items [-> Hnew]].
  cbn [subtokens] in Hin.
  assert (Hall : forall t, In t (flat_map (fun x => x :: subtokens x) items) ->
                           lexed line t).
  { intros t Ht. apply in_flat_map in Ht as [x [Hx [<- | Ht]]].
    - now apply Hnew.
    - now apply (proj2 (Hnew x Hx)). }
  split; [now apply Hall|].
  intros d Hd. apply Hall.
  apply in_flat_map in Hin as [x [Hx Hin]]. apply in_flat_map.
  exists x. split; [exact Hx|]. right.
  destruct Hin as [<- | Hin]; [exact Hd|].
  clear - Hin Hd. revert tok d Hin Hd.
  generalize x. fix IH 1. intros [p str ms l | st ms len its] tok d Hin Hd.
  - destruct Hin.
  - cbn [subtokens] in *. induction its as [|y its IHits]; [destruct Hin|].
    cbn [flat_map] in *. destruct Hin as [<- | Hin].
    + right. apply in_or_app. now left.
    + apply in_app_or in Hin as [Hin | Hin].
      * right. apply in_or_app. left. exact (IH _ _ _ Hin Hd).
      * right. apply in_or_app. right. now apply IHits.
Qed.

Lemma lexed_tokens_in_line line root :
  lex line = Ok root ->
  exists items,
    root = Group (Some 0) [] (Some (String.length line)) items
    /\ Forall (spanned (String.length line)) items.
Proof.
  intros H. apply lex_root in H as [items [-> Hnew]].
  exists items. split; [reflexivity|]. apply Forall_forall.
  intros t Ht. apply lexed_spanned; now apply Hnew.
Qed.

(** X1.  The root group of a line that lexes spans the whole line, and every
    token below it has a start and a length of at least one character and
    lies within the line. *)
Theorem lexed_tokens_lie_in_line :
  forall line root,
    lex line = Ok root ->
    exists items,
      root = Group (Some 0) [] (Some (String.length line)) items
      /\ Forall (spanned (String.length line)) items.
Proof. exact lexed_tokens_in_line. Qed.

(** The tokens of ['int ( *f)(char)']. *)
Lemma lexed_tokens_lie_in_line_witness :
  let root :=
    Group (Some 0) [] (Some 14)
      [Leaf 0 "int" [] 3;
       Group (Some 4) [] (Some 4) [Leaf 5 "*" [] 1; Leaf 6 "f" [] 1];
       Group (Some 8) [] (Some 6) [Leaf 9 "char" [] 4]] in
  lex "int (*f)(char)" = Ok root
  /\ exists items,
       root = Group (Some 0) [] (Some (String.length "int (*f)(char)")) items
       /\ Forall (spanned (String.length "int (*f)(char)")) items.
Proof.
  intros root.
  assert (H : lex "int (*f)(char)" = Ok root) by reflexivity.
  split; [exact H|].
  apply (lexed_tokens_lie_in_line "int (*f)(char)" root H).
Defined.

(** ** Groups and parentheses *)

Lemma next_token_group_inv s f i j g :
  i <= String.length s ->
  Lexer.next_token s f i = Ok (j, Some g) ->
  Token.is_group g = true ->
  exists p f',
    i <= p /\ p + 1 <= String.length s
    /\ String.get p s = Some "("%char
    /\ Lexer.parse_tokens_loop s f' true (Group (Some p) [] None []) (p + 1)
       = Ok (j, g).
Proof.
  intros Hi H Hgroup. destruct f as [|f]; [discriminate|].
  cbn [Lexer.next_token] in H.
  destruct (skip_space_run s i) as [p [Hs Hr]]. rewrite Hs in H.
  pose proof (run_bound _ _ _ _ Hr Hi) as Hp.
  destruct (String.get p s) as [c|] eqn:Hc; [|discriminate].
  unfold Lexer.punctuation in H.
  destruct (chr_in c PUNCTUATION).
  { exfalso. destruct (Ascii.eqb c "*").
    - rewrite nextchar_get in H.
      destruct (Lexer.parse_ident s (p + 1)) as [k1 ident].
      destruct (match ident with
                | Some i0 => Token.string_is i0 "const"
                | None => false
                end).
      + apply bind_ok in H as [t0 [Ha H]].
        apply add_modifier_leaf in Ha. subst t0.
        injection H as _ <-. discriminate.
      + rewrite ?nextchar_get in H. injection H as _ <-. discriminate.
    - rewrite ?nextchar_get in H. injection H as _ <-. discriminate. }
  destruct (Lexer.parse_ident s p) as [k1 tok0] eqn:Eid.
  pose proof (parse_ident_after_skip _ _ _ _ _ _ Hs Eid) as Hid.
  destruct tok0 as [tok0|].
  { exfalso. destruct Hid as [str [-> [Hk1 _]]].
    destruct (Token.string_in _ KEYWORDS);
      [|injection H as _ <-; discriminate].
    apply (proj1 (parse_type_span s f)) in H as [_ H]; [|lia].
    destruct (H _ eq_refl) as [str' [ms' ->]]. discriminate. }
  subst k1.
  destruct (isdigit c).
  { exfalso. rewrite nextchar_get in H.
    destruct (Lexer.while_char s isdigit _ _ _).
    injection H as _ <-. discriminate. }
  destruct (Ascii.eqb_spec c "(") as [->|]; [|discriminate].
  rewrite nextchar_get in H.
  apply bind_ok in H as [[k g0] [Hg H]]. injection H as <- <-.
  unfold Token.group in Hg. replace (p + 1 - 1) with p in Hg by lia.
  exists p, f. destruct Hr as [Hip _].
  split; [exact Hip|]. split; [apply get_some_lt in Hc; lia|].
  split; [exact Hc|exact Hg].
Qed.

Lemma next_token_group s f i j st ms len its :
  i <= String.length s ->
  Lexer.next_token s f i = Ok (j, Some (Group st ms len its)) ->
  exists p, st = Some p /\ ms = [] /\ p + 2 <= j
            /\ String.get p s = Some "("%char
            /\ String.get (j - 1) s = Some ")"%char.
Proof.
  intros Hi H.
  apply next_token_group_inv in H as [p [f' [_ [Hp1 [Hc Hg]]]]];
    [|exact Hi|reflexivity].
  pose proof (group_ends_with_paren _ _ _ _ _ _ _ _ _ Hp1 Hg) as [Hlt Hend].
  apply (proj2 (lexed_spans s f')) in Hg; [|lia].
  destruct Hg as [st0 [new [[= <-] [Heq _]]]].
  injection Heq as -> -> _ _. exists p.
  repeat split; try easy. lia.
Qed.

(** X2.  In the tree of a line that lexes, every group below the root spans
    a parenthesised part of the line: its first character is ['('] and its
    last one is [')']. *)
Theorem groups_span_parentheses :
  forall line root g,
    lex line = Ok root ->
    In g (subtokens root) ->
    Token.is_group g = true ->
    exists a l,
      Token.start g = Some a /\ Token.length g = Some l /\ 2 <= l
      /\ String.get a line = Some "("%char
      /\ String.get (a + l - 1) line = Some ")"%char.
Proof.
  intros line root g H Hin Hg.
  destruct (lex_subtokens _ _ _ H Hin) as [[a [j Hat]] _].
  destruct Hat as [Hst [Hlen [Hspan [fuel Hrun]]]].
  destruct g as [p str ms l | st ms len its]; [discriminate|].
  apply next_token_group in Hrun as [p [-> [_ [Hj [Hopen Hclose]]]]]; [|lia].
  cbn in Hst. injection Hst as ->.
  exists a, (j - a). cbn. split; [reflexivity|]. split; [exact Hlen|].
  split; [lia|]. split; [exact Hopen|].
  now replace (a + (j - a) - 1) with (j - 1) by lia.
Qed.

(** The group of the parameters of ['int f(char, int)']. *)
Lemma groups_span_parentheses_witness :
  let g :=
    Group (Some 5) [] (Some 11)
      [Leaf 6 "char" [] 4; Leaf 10 "," [] 1; Leaf 12 "int" [] 3] in
  exists a l,
    Token.start g = Some a /\ Token.length g = Some l /\ 2 <= l
    /\ String.get a "int f(char, int)" = Some "("%char
    /\ String.get (a + l - 1) "int f(char, int)" = Some ")"%char.
Proof.
  intros g.
  apply (groups_span_parentheses "int f(char, int)"
           (Group (Some 0) [] (Some 16)
              [Leaf 0 "int" [] 3; Leaf 4 "f" [] 1;
               Group (Some 5) [] (Some 11)
                 [Leaf 6 "char" [] 4; Leaf 10 "," [] 1; Leaf 12 "int" [] 3]])
           (Group (Some 5) [] (Some 11)
              [Leaf 6 "char" [] 4; Leaf 10 "," [] 1; Leaf 12 "int" [] 3])).
  - reflexivity.
  - cbn. right. right. now left.
  - reflexivity.
Defined.

(** ** Lines that are not blank *)

Lemma next_token_none_blank s f i j :
  i <= String.length s ->
  Lexer.next_token s f i = Ok (j, None) ->
  forall k, i <= k < String.length s ->
            exists c, String.get k s = Some c /\ isspace c = true.
Proof.
  intros Hi H. destruct f as [|f]; [discriminate|].
  cbn [Lexer.next_token] in H.
  destruct (skip_space_run s i) as [p [Hs Hr]]. rewrite Hs in H.
  pose proof (run_bound _ _ _ _ Hr Hi) as Hp.
  destruct (String.get p s) as [c|] eqn:Hc.
  - exfalso. unfold Lexer.punctuation in H.
    destruct (chr_in c PUNCTUATION).
    { destruct (Ascii.eqb c "*").
      - rewrite nextchar_get in H.
        destruct (Lexer.parse_ident s (p + 1)) as [k1 ident].
        destruct (match ident with
                  | Some i0 => Token.string_is i0 "const"
                  | None => false
                  end); [ok_inv H|rewrite ?nextchar_get in H];
          discriminate.
      - rewrite nextchar_get in H. discriminate. }
    destruct (Lexer.parse_ident s p) as [k1 tok0] eqn:Eid.
    destruct tok0 as [tok0|].
    + apply parse_ident_inv in Eid.
      apply ident_at_some in Eid as [q [-> _]].
      destruct (Token.string_in _ KEYWORDS) eqn:Hkw; [|discriminate].
      now apply (proj1 (parse_type_some s f)) in H.
    + destruct (isdigit c).
      * rewrite nextchar_get in H.
        destruct (Lexer.while_char s isdigit _ _ _). discriminate.
      * destruct (Ascii.eqb c "("); [|discriminate].
        rewrite nextchar_get in H. ok_inv H.
        destruct x. discriminate.
  - apply get_none_iff in Hc. intros k Hk. apply Hr. lia.
Qed.

Lemma rstrip_not_blank : forall s,
  rstrip s <> "" ->
  exists k c, String.get k (rstrip s) = Some c /\ isspace c = false.
Proof.
  induction s as [|c s IH]; intros H; [now elim H|].
  cbn [rstrip] in *. destruct (rstrip s) as [|c' r] eqn:Hr.
  - destruct (isspace c) eqn:Hc; [now elim H|]. now exists 0, c.
  - destruct IH as [k [d [Hk Hd]]]; [discriminate|].
    exists (S k), d. split; [exact Hk|exact Hd].
Qed.

Lemma not_blank_has_a_token s root :
  (exists k c, String.get k s = Some c /\ isspace c = false) ->
  lex s = Ok root -> Token.items root <> [].
Proof.
  intros [k [c [Hk Hc]]] H. unfold lex in H.
  apply bind_ok in H as [[j g] [H Heq]]. injection Heq as ->.
  unfold Lexer.parse_tokens, Token.group, lex_fuel in H.
  replace (2 * String.length s + 4) with (S (2 * String.length s + 3)) in H
    by lia.
  cbn [Lexer.parse_tokens_loop andb] in H.
  apply bind_ok in H as [[i tok] [Hn H]].
  destruct tok as [tok|].
  - apply (proj1 (lexed_spans s _)) in Hn as [Hi _]; [|lia].
    unfold Token.append in H.
    apply (proj2 (lexed_spans s _)) in H as [st0 [new [_ [-> _]]]]; [|lia].
    cbn. discriminate.
  - exfalso.
    destruct (next_token_none_blank _ _ _ _ (Nat.le_0_l _) Hn k)
      as [c' [Hk' Hc']].
    + apply get_some_lt in Hk. lia.
    + congruence.
Qed.

(** X3.  The main loop strips the line and skips it when nothing is left;
    so when the line that it lexes gives a root group, that group has a
    token and the parser is built on it: the root is never reported as
    empty. *)
Theorem stripped_line_has_a_token :
  forall line root,
    strip line <> "" ->
    lex (strip line) = Ok root ->
    Token.items root <> []
    /\ Parser.init root None = Ok (Parser.Build root None 0).
Proof.
  intros line root Hne H.
  assert (Hit : Token.items root <> []).
  { apply (not_blank_has_a_token (strip line)); [|exact H].
    now apply rstrip_not_blank. }
  split; [exact Hit|].
  apply lex_root in H as [items [-> _]]. cbn in Hit.
  unfold Parser.init, Token.is_group, Token.len. cbn.
  destruct items; [now elim Hit|reflexivity].
Qed.

(** The line ['  int x  ']. *)
Lemma stripped_line_has_a_token_witness :
  let root := Group (Some 0) [] (Some 5) [Leaf 0 "int" [] 3; Leaf 4 "x" [] 1] in
  Token.items root <> []
  /\ Parser.init root None = Ok (Parser.Build root None 0).
Proof.
  intros root.
  apply (stripped_line_has_a_token "  int x  " root).
  - discriminate.
  - reflexivity.
Defined.

(** ** What the lexer raises *)

Lemma bind_raise {A B : Type} (m : result A) (k : A -> result B) e c :
  bind m k = Raise e c ->
  m = Raise e c \/ exists x, m = Ok x /\ k x = Raise e c.
Proof. destruct m; simpl; [eauto | intros [= -> ->]; auto | discriminate]. Qed.

Lemma add_modifier_raise t m e c :
  Token.add_modifier t m = Raise e c ->
  e = RuntimeError "internal error" /\ c = None.
Proof.
  unfold Token.add_modifier. destruct (_ || _); [|discriminate].
  now intros [= <- <-].
Qed.

Lemma add_modifiers_raise s : forall mods t e c,
  Lexer.add_modifiers t mods = Raise e c -> lexer_failure s e c.
Proof.
  induction mods as [|m mods IH]; intros t e c H; simpl in H; [discriminate|].
  apply bind_raise in H as [H | [t1 [_ H]]].
  - right. now apply add_modifier_raise in H.
  - now apply IH in H.
Qed.

Lemma caret_at s k msg :
  k <= String.length s ->
  lexer_failure s (LexerError msg) (Some (k, 1)).
Proof. intros Hk. left. split; [eauto|]. cbn. lia. Qed.

Lemma caret_under s a b msg :
  a <= b <= String.length s ->
  lexer_failure s (LexerError msg) (Some (a, b - a)).
Proof. intros Hk. left. split; [eauto|]. cbn. lia. Qed.

Lemma resolve_modifiers_raise s k1 p str ms len mods before nextTok e c :
  before <= String.length s ->
  ident_at s before k1 nextTok ->
  Lexer.resolve_modifiers k1 (Leaf p str ms len) mods before nextTok
  = Raise e c ->
  lexer_failure s e c.
Proof.
  intros Hb Hid H.
  pose proof (ident_at_bound _ _ _ _ Hid Hb) as Hk1.
  unfold Lexer.resolve_modifiers in H.
  apply bind_raise in H as [H | [[cur tok1] [H1 H]]].
  - destruct nextTok as [nt|].
    + apply ident_at_some in Hid as [q [-> [Hq _]]].
      cbn [Token.underline Token.start Token.length bind] in H.
      destruct (negb _); [|discriminate].
      destruct (str_in _ _); [discriminate|].
      injection H as <- <-. apply caret_under. lia.
    + destruct (str_in _ _); [discriminate|].
      injection H as <- <-. now apply caret_at.
  - assert (Hleaf : exists str', tok1 = Leaf p str' ms len).
    { destruct (match nextTok with
                | Some nt => negb (Token.string_in nt PRIMTYPES)
                | None => true
                end).
      - destruct (str_in _ _).
        + injection H1 as <- <-. cbn. eauto.
        + destruct nextTok; [ok_inv H1|discriminate].
      - injection H1 as <- <-. cbn. eauto. }
    destruct Hleaf as [str' ->]. cbn in H.
    apply bind_raise in H as [H | [t2 [_ H]]]; [|discriminate].
    now apply add_modifiers_raise with (s := s) in H.
Qed.

Lemma parse_type_raise s : forall f,
  (forall k p str ms e c,
      p <= k <= String.length s ->
      Lexer.parse_type s f k (Leaf p str ms (k - p)) = Raise e c ->
      lexer_failure s e c)
  /\ (forall k1 p str ms len mods before nextTok e c,
         p <= before <= String.length s ->
         ident_at s before k1 nextTok ->
         Lexer.parse_type_mods s f k1 (Leaf p str ms len) mods before nextTok
         = Raise e c ->
         lexer_failure s e c).
Proof.
  induction f as [|f [IHt IHm]]; [split; intros; discriminate|].
  split.
  - intros k p str ms e c Hk H. cbn [Lexer.parse_type] in H.
    destruct (Token.string_is _ "struct").
    { destruct (Lexer.parse_ident s k) as [k1 name] eqn:Eid.
      apply parse_ident_inv in Eid.
      pose proof (ident_at_bound _ _ _ _ Eid (proj2 Hk)) as Hk1.
      destruct name as [nm|].
      - apply ident_at_some in Eid as [q [-> [Hq _]]].
        destruct (Token.string_in _ KEYWORDS).
        + cbn in H. injection H as <- <-. apply caret_under. lia.
        + cbn in H. apply bind_raise in H as [H | [t1 [_ H]]];
            [|discriminate].
          right. now apply add_modifier_raise in H.
      - injection H as <- <-. now apply caret_at. }
    destruct (Token.string_in _ PRIMTYPES).
    { destruct (Token.string_is _ "long"); [|discriminate].
      destruct (Lexer.parse_ident s k) as [k1 nextTok].
      destruct (match nextTok with
                | Some nt => Token.string_in nt LONGTYPES
                | None => false
                end); cbn in H; discriminate. }
    destruct (Token.string_in _ MODIFIERS); [|discriminate].
    destruct (Lexer.parse_ident s k) as [k1 nextTok] eqn:Eid.
    apply parse_ident_inv in Eid.
    exact (IHm _ _ _ _ _ _ _ _ _ _ Hk Eid H).
  - intros k1 p str ms len mods before nextTok e c Hb Hid H.
    cbn [Lexer.parse_type_mods] in H.
    pose proof (ident_at_le _ _ _ _ Hid) as Hle.
    pose proof (ident_at_bound _ _ _ _ Hid (proj2 Hb)) as Hk1.
    assert (Hexit :
      (x <- Lexer.resolve_modifiers k1 (Leaf p str ms len) mods before
              nextTok ;;
       (let '(curIndex, tok) := x in Lexer.parse_type s f curIndex tok))
      = Raise e c ->
      lexer_failure s e c).
    { intros Hx. apply bind_raise in Hx as [Hx | [[cur tok1] [Hres Hre]]].
      - now apply resolve_modifiers_raise with (s := s) in Hx.
      - apply resolve_modifiers_ok in Hres as [str' [Hadd Hcase]].
        apply add_modifiers_shape in Hadd as [ms' ->].
        apply IHt in Hre; [exact Hre|].
        destruct Hcase as [[-> _] | [-> _]]; lia. }
    destruct nextTok as [nt|]; [|now apply Hexit].
    destruct (Token.string_in nt MODIFIERS) eqn:Hmod; [|now apply Hexit].
    clear Hexit. rewrite token_never_eq_str in H.
    destruct (Token.string_is nt "struct").
    { destruct (negb _ || negb _).
      - cbn in H. injection H as <- <-. apply caret_under. lia.
      - cbn in H. apply bind_raise in H as [H | [t1 [Ha H]]].
        + right. now apply add_modifier_raise in H.
        + apply add_modifier_leaf in Ha. subst t1. cbn in H.
          apply IHt in H; [exact H|lia]. }
    destruct (_ && _).
    { cbn in H. injection H as <- <-. apply caret_under. lia. }
    destruct (Lexer.parse_ident s k1) as [k2 nextTok2] eqn:Eid.
    apply parse_ident_inv in Eid.
    apply IHm in H; [exact H|lia|exact Eid].
Qed.

Lemma next_token_raise s : forall f,
  (forall i e c,
      i <= String.length s ->
      Lexer.next_token s f i = Raise e c -> lexer_failure s e c)
  /\ (forall nested st0 ms len its i e c,
         i <= String.length s ->
         Lexer.parse_tokens_loop s f nested (Group (Some st0) ms len its) i
         = Raise e c ->
         lexer_failure s e c).
Proof.
  induction f as [|f [IHn IHl]]; [split; intros; discriminate|].
  split.
  - intros i e c Hi H. cbn [Lexer.next_token] in H.
    destruct (skip_space_run s i) as [p [Hs Hr]]. rewrite Hs in H.
    pose proof (run_bound _ _ _ _ Hr Hi) as Hpl.
    destruct (String.get p s) as [ch|] eqn:Hc; [|discriminate].
    pose proof (get_some_lt _ _ _ Hc) as Hp.
    unfold Lexer.punctuation in H.
    destruct (chr_in ch PUNCTUATION).
    { destruct (Ascii.eqb ch "*").
      - rewrite ?nextchar_get in H.
        destruct (Lexer.parse_ident s (p + 1)) as [k1 ident].
        destruct (match ident with
                  | Some i0 => Token.string_is i0 "const"
                  | None => false
                  end); [|discriminate].
        apply bind_raise in H as [H | [t1 [_ H]]]; [|discriminate].
        right. now apply add_modifier_raise in H.
      - rewrite nextchar_get in H. discriminate. }
    destruct (Lexer.parse_ident s p) as [k1 tok0] eqn:Eid.
    pose proof (parse_ident_after_skip _ _ _ _ _ _ Hs Eid) as Hid.
    destruct tok0 as [tok0|].
    { destruct Hid as [str [-> [Hk1 _]]].
      destruct (Token.string_in _ KEYWORDS); [|discriminate].
      apply (proj1 (parse_type_raise s f)) in H; [exact H|lia]. }
    subst k1.
    destruct (isdigit ch).
    { rewrite nextchar_get in H.
      destruct (Lexer.while_char s isdigit _ _ _). discriminate. }
    destruct (Ascii.eqb ch "(").
    + rewrite nextchar_get in H.
      apply bind_raise in H as [H | [[k g] [_ H]]]; [|discriminate].
      unfold Token.group in H. apply IHl in H; [exact H|lia].
    + injection H as <- <-. apply caret_at. lia.
  - intros nested st0 ms len its i e c Hi H.
    cbn [Lexer.parse_tokens_loop] in H.
    destruct (nested && _).
    { rewrite nextchar_get in H. cbn in H. discriminate. }
    apply bind_raise in H as [H | [[k tok] [Hn H]]].
    + now apply IHn in H.
    + apply (proj1 (lexed_spans s f)) in Hn as [Hk _]; [|exact Hi].
      destruct tok as [tok|].
      * unfold Token.append in H. apply IHl in H; [exact H|lia].
      * destruct nested; [|cbn in H; discriminate].
        injection H as <- <-. left. split; [eauto|exact I].
Qed.

Lemma lex_raise line e c : lex line = Raise e c -> lexer_failure line e c.
Proof.
  unfold lex, Lexer.parse_tokens, Token.group. intros H.
  apply bind_raise in H as [H | [[j g] [_ H]]]; [|discriminate].
  apply (proj2 (next_token_raise line _)) in H; [exact H|lia].
Qed.

(** X4.  Lexing a line ends, and in one of three ways: it returns the root
    group, it raises a [LexerError], or it raises the [RuntimeError] of
    [add_modifier] without a caret line.  Nothing else is raised (Python's
    limit on the depth of recursion, which deeply nested parentheses reach,
    is left aside). *)
Theorem lex_outcome :
  forall line,
    (exists root, lex line = Ok root)
    \/ (exists msg shown, lex line = Raise (LexerError msg) shown)
    \/ lex line = Raise (RuntimeError "internal error") None.
Proof.
  intros line. destruct (lex line) as [root | e c |] eqn:H.
  - left. eauto.
  - right. apply lex_raise in H as [[[msg ->] _] | [-> ->]]; eauto.
  - now apply lex_total in H.
Qed.

Lemma lexer_caret_in_line line e shown :
  lex line = Raise e shown -> under_input line shown.
Proof.
  intros H. apply lex_raise in H as [[_ H] | [_ ->]]; [exact H|exact I].
Qed.

(** X5.  The caret line that the lexer prints before it raises lies under
    the input: its carets stand under characters of the line, or it is one
    caret just after the last character. *)
Theorem lexer_caret_under_input :
  forall line e shown, lex line = Raise e shown -> under_input line shown.
Proof. exact lexer_caret_in_line. Qed.

(** The line ['struct'], where an identifier is missing at the end. *)
Lemma lexer_caret_under_input_witness : under_input "struct" (Some (6, 1)).
Proof.
  apply (lexer_caret_under_input "struct"
           (LexerError "expected an identifier")).
  reflexivity.
Defined.

(** ** The state of the parser along a declarator *)

Lemma parse_pointers_child (Q : option Node -> Prop) :
  (forall c k, Q c -> Q (Some (Pointer c [] k))) ->
  forall n p, Q (Parser.child p) ->
              Q (Parser.child (Parser.parse_pointers n p)).
Proof.
  intros HQ. induction n as [|n IH]; intros p Hp; cbn [Parser.parse_pointers].
  - now destruct (Parser.current p).
  - destruct (Parser.current p) as [tok|]; [|exact Hp].
    destruct (Token.string_is tok "*"); [|exact Hp].
    apply IH. cbn. now apply HQ.
Qed.

Lemma parse_name_or_group_child p q g :
  Parser.parse_name_or_group p = Ok (q, g) ->
  Parser.child q = Parser.child p.
Proof.
  unfold Parser.parse_name_or_group. intros H.
  destruct (Parser.current p) as [tok|]; [|now injection H as <- <-].
  destruct (Token.is_name tok).
  - destruct (Token.string_in tok KEYWORDS);
      [now apply error_raises in H|].
    now injection H as <- <-.
  - destruct (Token.is_group tok); now injection H as <- <-.
Qed.

Lemma parse_parameter_list_state parse p q isFunction params :
  Parser.parse_parameter_list parse p = Ok (q, isFunction, params) ->
  Parser.tokens q = Parser.tokens p /\ Parser.child q = Parser.child p.
Proof.
  unfold Parser.parse_parameter_list. intros H.
  destruct (Parser.current p) as [g|]; [|now injection H as <- _ _].
  destruct (Token.is_group g); [|now injection H as <- _ _].
  apply bind_ok in H as [ps [_ H]]. now injection H as <- _ _.
Qed.

Lemma parse_dimensions_state : forall n p dims q dims',
  Parser.parse_dimensions n p dims = Ok (q, dims') ->
  Parser.tokens q = Parser.tokens p /\ Parser.child q = Parser.child p.
Proof.
  induction n as [|n IH]; intros p dims q dims' H;
    cbn [Parser.parse_dimensions] in H.
  - destruct (Parser.current p); now injection H as <- _.
  - destruct (Parser.current p) as [tok|]; [|now injection H as <- _].
    destruct (Token.string_is tok "["); [|now injection H as <- _].
    apply bind_ok in H as [tok1 [_ H]].
    apply bind_ok in H as [[p1 dims1] [H1 H]].
    apply bind_ok in H as [tok2 [_ H]].
    destruct (negb _); [now apply error_raises in H|].
    apply IH in H as [Ht Hc]. cbn in Ht, Hc.
    destruct (Token.is_num tok1).
    + apply bind_ok in H1 as [num [_ H1]]. injection H1 as <- _.
      cbn in Ht, Hc. now split.
    + injection H1 as <- _. cbn in Ht, Hc. now split.
Qed.

(** ** Decimal texts *)

Lemma int_of_acc : forall d acc,
  Token.int_of (Z.pos acc) (NilEmpty.string_of_uint d)
  = Ok (Z.pos (Pos.of_uint_acc d acc)).
Proof.
  induction d as [|d IH|d IH|d IH|d IH|d IH|d IH|d IH|d IH|d IH|d IH];
    intros acc; cbn [NilEmpty.string_of_uint Token.int_of Pos.of_uint_acc];
    [reflexivity| | | | | | | | | |];
    (match goal with
     | |- (if ?c then _ else _) = _ =>
         replace c with true by (vm_compute; reflexivity)
     end);
    (match goal with
     | |- context [Z.of_nat ?e] =>
         let v := eval vm_compute in (Z.of_nat e) in
         change (Z.of_nat e) with v
     end);
    match goal with
    | |- Token.int_of ?z _ = Ok (Z.pos (Pos.of_uint_acc _ ?a)) =>
        replace z with (Z.pos a) by lia
    end; apply IH.
Qed.

Lemma int_of_uint : forall d,
  Token.int_of 0%Z (NilEmpty.string_of_uint d) = Ok (Z.of_N (Pos.of_uint d)).
Proof.
  induction d as [|d IH|d IH|d IH|d IH|d IH|d IH|d IH|d IH|d IH|d IH];
    cbn [NilEmpty.string_of_uint Token.int_of Pos.of_uint];
    [reflexivity|exact IH| | | | | | | | |];
    (match goal with
     | |- (if ?c then _ else _) = _ =>
         replace c with true by (vm_compute; reflexivity)
     end);
    (match goal with
     | |- context [Z.of_nat ?e] =>
         let v := eval vm_compute in (Z.of_nat e) in
         change (Z.of_nat e) with v
     end);
    match goal with
    | |- Token.int_of ?z _ = Ok (Z.of_N (N.pos (Pos.of_uint_acc _ ?a))) =>
        replace z with (Z.pos a) by lia
    end; apply int_of_acc.
Qed.

Lemma to_uint_digit p :
  exists c str,
    NilEmpty.string_of_uint (Pos.to_uint p) = String c str
    /\ isdigit c = true.
Proof.
  pose proof (DecimalPos.Unsigned.of_to p) as H.
  destruct (Pos.to_uint p); [discriminate| | | | | | | | | |];
    cbn [NilEmpty.string_of_uint]; do 2 eexists; (split; [reflexivity|]);
    reflexivity.
Qed.

Lemma length_string_of_uint : forall d,
  String.length (NilEmpty.string_of_uint d) = Decimal.nb_digits d.
Proof.
  induction d; cbn [NilEmpty.string_of_uint String.length Decimal.nb_digits];
    congruence.
Qed.

Lemma string_of_uint_not_nil d :
  d <> Decimal.Nil ->
  NilZero.string_of_uint d = NilEmpty.string_of_uint d.
Proof. destruct d; [easy|reflexivity..]. Qed.

(** A text that [int_of] reads is a text of decimal digits. *)
Lemma int_of_text : forall s acc z,
  Token.int_of acc s = Ok z -> exists d, NilEmpty.string_of_uint d = s.
Proof.
  induction s as [|c s IH]; intros acc z H; [now exists Decimal.Nil|].
  cbn [Token.int_of] in H.
  destruct (between 48 57 (nat_of_ascii c)) eqn:Hc; [|discriminate].
  apply IH in H as [d <-].
  destruct c as [[] [] [] [] [] [] [] []]; try discriminate Hc;
    first [ now exists (Decimal.D0 d) | now exists (Decimal.D1 d)
          | now exists (Decimal.D2 d) | now exists (Decimal.D3 d)
          | now exists (Decimal.D4 d) | now exists (Decimal.D5 d)
          | now exists (Decimal.D6 d) | now exists (Decimal.D7 d)
          | now exists (Decimal.D8 d) | now exists (Decimal.D9 d) ].
Qed.

Lemma to_int_of_N n : Z.to_int (Z.of_N n) = Decimal.Pos (N.to_uint n).
Proof. now destruct n. Qed.

(** [str] writes the value of a text of at most [MAX_STR_DIGITS] digits. *)
Lemma str_of_int_of_uint d :
  d <> Decimal.Nil ->
  Decimal.nb_digits d <= MAX_STR_DIGITS ->
  exists text, str_of_int (Z.of_N (Pos.of_uint d)) = Ok text.
Proof.
  intros Hd Hlen. unfold str_of_int.
  rewrite Z.abs_eq by apply N2Z.is_nonneg.
  rewrite to_int_of_N, DecimalPos.Unsigned.to_of.
  cbn [NilZero.string_of_int].
  rewrite string_of_uint_not_nil by apply DecimalFacts.unorm_nonnil.
  rewrite length_string_of_uint.
  pose proof (DecimalFacts.nb_digits_unorm d Hd) as Hn.
  destruct (Nat.ltb_spec MAX_STR_DIGITS
              (Decimal.nb_digits (Decimal.unorm d))); [lia|eauto].
Qed.

(** What [int] returns: the value of a text of decimal digits that is not
    longer than [MAX_STR_DIGITS]. *)
Lemma int_ok s z :
  Token.int s = Ok z ->
  exists d, NilEmpty.string_of_uint d = s
            /\ z = Z.of_N (Pos.of_uint d)
            /\ String.length s <= MAX_STR_DIGITS.
Proof.
  unfold Token.int. intros H.
  destruct (Nat.ltb_spec MAX_STR_DIGITS (String.length s)); [discriminate|].
  pose proof H as H'. apply int_of_text in H' as [d <-].
  rewrite int_of_uint in H. injection H as <-. now exists d.
Qed.

Lemma get_num_printable tok z :
  Token.get_num tok = Ok z -> (0 <= z)%Z /\ printable (Some z).
Proof.
  unfold Token.get_num. intros H.
  destruct (Token.is_group tok || negb (Token.is_num tok)) eqn:Hn;
    [discriminate|].
  apply orb_false_elim in Hn as [_ Hn]. apply negb_false_iff in Hn.
  apply int_ok in H as [d [Hd [-> Hlen]]].
  split; [apply N2Z.is_nonneg|]. cbn [printable].
  apply str_of_int_of_uint.
  - intros ->. cbn in Hd. unfold Token.is_num, Token.str in *.
    destruct (Token.string tok) as [[|c str]|]; discriminate.
  - now rewrite <- length_string_of_uint, Hd.
Qed.

(** ** The trees of the parser are well formed *)

Lemma well_formed_function b c w ps :
  well_formed b (Function c w ps)
  <-> w = (if Node.is_Function c then [FUNCTION_RETURNED] else [])
          ++ (if b then [FUNCTION_PASSED] else [])
      /\ well_formed_child c
      /\ match ps with
         | Some ps => Forall (well_formed true) ps
         | None => True
         end.
Proof.
  cbn [well_formed]. unfold well_formed_child.
  split; intros [H1 [H2 H3]]; (split; [exact H1|split; [exact H2|]]);
    (destruct ps as [ps|]; [|exact I]).
  - induction ps as [|x ps IH]; [constructor|].
    destruct H3 as [Hx H3]. constructor; [exact Hx|now apply IH].
  - induction H3 as [|x ps Hx _ IH]; [exact I|]. now split.
Qed.

Lemma well_formed_as_param n :
  Node.is_Function (Some n) = false ->
  well_formed false n -> well_formed true n.
Proof. destruct n; cbn [Node.is_Function]; [easy|easy|easy|discriminate]. Qed.

Lemma wrap_arrays_well_formed voidTok : forall dims child c,
  well_formed_child child ->
  Forall printable dims ->
  Parser.wrap_arrays voidTok child dims = Ok c ->
  well_formed_child c /\ (child <> None -> c <> None).
Proof.
  induction dims as [|dim dims IH]; intros child c Hwf Hdims H;
    cbn [Parser.wrap_arrays] in H.
  - injection H as <-. now split.
  - apply bind_ok in H as [u [Hc H]].
    destruct child as [ch|]; [|now apply error_at_raises in Hc].
    inversion Hdims as [|? ? Hdim Hdims']; subst.
    apply IH in H as [H1 H2]; [|clear H|exact Hdims'].
    + split; [exact H1|]. intros _. now apply H2.
    + cbn [Node.is_Function]. destruct ch; cbn; auto.
Qed.

Lemma parse_dimensions_printable : forall n p dims q dims',
  Forall printable dims ->
  Parser.parse_dimensions n p dims = Ok (q, dims') ->
  Forall printable dims'.
Proof.
  induction n as [|n IH]; intros p dims q dims' Hdims H;
    cbn [Parser.parse_dimensions] in H.
  - destruct (Parser.current p); now injection H as _ <-.
  - destruct (Parser.current p) as [tok|]; [|now injection H as _ <-].
    destruct (Token.string_is tok "["); [|now injection H as _ <-].
    apply bind_ok in H as [tok1 [_ H]].
    apply bind_ok in H as [[p1 dims1] [H1 H]].
    apply bind_ok in H as [tok2 [_ H]].
    destruct (negb _); [now apply error_raises in H|].
    apply IH in H; [exact H|].
    destruct (Token.is_num tok1).
    + apply bind_ok in H1 as [num [Hnum H1]]. injection H1 as _ <-.
      apply Forall_app. split; [exact Hdims|].
      constructor; [|constructor]. now apply get_num_printable in Hnum.
    + injection H1 as _ <-. apply Forall_app. split; [exact Hdims|].
      constructor; [exact I|constructor].
Qed.

Section ParserTrees.

Variable parse : Parser.t -> result Node.

Hypothesis parse_gives_well_formed : forall q node,
  well_formed_child (Parser.child q) ->
  parse q = Ok node -> well_formed false node.

Lemma parse_params_well_formed : forall n rest params ps,
  Forall (well_formed true) params ->
  Parser.parse_params parse n rest params = Ok ps ->
  Forall (well_formed true) ps.
Proof.
  induction n as [|n IH]; intros rest params ps Hps H;
    cbn [Parser.parse_params] in H; [now injection H as <-|].
  destruct rest as [|t rest]; [now injection H as <-|].
  destruct (Parser.take_param (t :: rest)) as [items rest'].
  apply bind_ok in H as [q [Hq H]].
  apply bind_ok in H as [node [Hnode H]].
  apply IH in H; [exact H|].
  apply Forall_app. split; [exact Hps|]. constructor; [|constructor].
  unfold Parser.init in Hq. destruct (_ || _); [ok_inv Hq|].
  injection Hq as <-.
  apply parse_gives_well_formed in Hnode; [|exact I].
  destruct node as [c w sz | c w k | w nm ms | c w pars];
    cbn [Node.is_Function Node.add_warning]; try exact Hnode.
  apply well_formed_function in Hnode as [-> [Hc Hpars]].
  apply well_formed_function. rewrite app_nil_r. now split.
Qed.

Lemma parse_parameter_list_well_formed p q isFunction params :
  Parser.parse_parameter_list parse p = Ok (q, isFunction, params) ->
  match params with
  | Some ps => Forall (well_formed true) ps
  | None => True
  end.
Proof.
  unfold Parser.parse_parameter_list. intros H.
  destruct (Parser.current p) as [g|];
    [|injection H as _ _ <-; constructor].
  destruct (Token.is_group g); [|injection H as _ _ <-; constructor].
  apply bind_ok in H as [ps [Hps H]]. injection H as _ _ <-.
  destruct (_ =? 0); [now injection Hps as <-|].
  destruct (_ && _); [injection Hps as <-; constructor|].
  apply bind_ok in Hps as [l [Hl Hps]]. injection Hps as <-.
  apply parse_params_well_formed in Hl; [exact Hl|constructor].
Qed.

Lemma declarator_well_formed p voidTok node :
  well_formed_child (Parser.child p) ->
  Parser.declarator parse p voidTok = Ok node ->
  well_formed false node.
Proof.
  intros Hwf H. unfold Parser.declarator in H.
  apply bind_ok in H as [[p2 parentGroup] [Hng H]].
  apply parse_name_or_group_child in Hng.
  apply bind_ok in H as [[[p3 isFunction] params] [Hpl H]].
  pose proof (parse_parameter_list_well_formed _ _ _ _ Hpl) as Hparams.
  apply parse_parameter_list_state in Hpl as [_ Hc3].
  apply bind_ok in H as [[p4 dimensions] [Hd H]].
  pose proof (parse_dimensions_printable _ _ _ _ _ (Forall_nil _) Hd)
    as Hsizes.
  apply parse_dimensions_state in Hd as [_ Hc4].
  apply bind_ok in H as [c [Hw H]].
  apply wrap_arrays_well_formed in Hw as [Hc _];
    [|idtac|now apply Forall_rev].
  2:{ rewrite Hc4, Hc3, Hng.
      apply (parse_pointers_child well_formed_child); [|exact Hwf].
      intros c0 k Hc0. cbn. now split. }
  apply bind_ok in H as [u [_ H]].
  apply bind_ok in H as [p5 [Hp5 H]].
  assert (Hc5 : well_formed_child (Parser.child p5)).
  { assert (Hf : well_formed_child
                   (Parser.child
                      (if isFunction
                       then Parser.set_child (Parser.set_child p4 c)
                              (Some (if Node.is_Function c
                                     then Node.add_warning
                                            (Function c [] params)
                                            FUNCTION_RETURNED
                                     else Function c [] params))
                       else Parser.set_child p4 c))).
    { destruct isFunction; [|exact Hc]. cbn [Parser.set_child Parser.child].
      unfold well_formed_child.
      destruct (Node.is_Function c) eqn:Hfun; cbn [Node.add_warning];
        apply well_formed_function; rewrite Hfun; now split. }
    destruct parentGroup as [g|].
    - apply bind_ok in Hp5 as [q [Hq Hp5]].
      apply bind_ok in Hp5 as [nd [Hnd Hp5]]. injection Hp5 as <-.
      cbn [Parser.set_child Parser.child].
      apply parse_gives_well_formed in Hnd; [exact Hnd|].
      unfold Parser.init in Hq. destruct (_ || _); [ok_inv Hq|].
      injection Hq as <-. exact Hf.
    - injection Hp5 as <-. exact Hf. }
  unfold Parser.check_void_decl in H.
  destruct (Parser.child p5) as [c5|]; [|now apply error_at_raises in H].
  injection H as <-. exact Hc5.
Qed.

Lemma parse_body_well_formed p node :
  well_formed_child (Parser.child p) ->
  Parser.parse_body parse p = Ok node ->
  well_formed false node.
Proof.
  intros Hwf H. unfold Parser.parse_body in H.
  destruct (Parser.child p) eqn:Hchild.
  { apply declarator_well_formed in H; [exact H|now rewrite Hchild]. }
  apply bind_ok in H as [tok [_ H]].
  apply bind_ok in H as [u [_ H]].
  assert (Hcheck : forall q v,
            well_formed_child (Parser.child q) ->
            Parser.check_void_decl q v = Ok node -> well_formed false node).
  { unfold Parser.check_void_decl. intros q v Hq Hv.
    destruct (Parser.child q); [|now apply error_at_raises in Hv].
    now injection Hv as <-. }
  destruct (Token.string_is tok "void"); cbn [Parser.next] in H;
    (destruct (Parser.current _);
     [apply declarator_well_formed in H|apply Hcheck in H]);
    try exact H; cbn; try rewrite Hchild; exact I || reflexivity.
Qed.

End ParserTrees.

Lemma parse_well_formed : forall f p node,
  well_formed_child (Parser.child p) ->
  Parser.parse f p = Ok node -> well_formed false node.
Proof.
  induction f as [|f IH]; intros p node Hwf H; [discriminate|].
  cbn [Parser.parse] in H.
  exact (parse_body_well_formed (Parser.parse f) (IH) p node Hwf H).
Qed.

Lemma cdecl_well_formed line tree :
  cdecl line = Ok tree -> well_formed false tree.
Proof.
  unfold cdecl. intros H. apply bind_ok in H as [tokens [_ H]].
  apply bind_ok in H as [q [Hq H]].
  apply parse_well_formed in H; [exact H|].
  unfold Parser.init in Hq. destruct (_ || _); [ok_inv Hq|].
  now injection Hq as <-.
Qed.

(** X6.  A tree that the parser returns is well formed: every array has an
    element type and a size that [str] writes (no number, or one of at most
    [MAX_STR_DIGITS] digits), and a node carries a warning exactly when it
    is an array of raw functions, a function that returns a raw function or
    a raw function that stands as a parameter; pointers and named types
    carry none. *)
Theorem parsed_tree_is_well_formed :
  forall line tree, cdecl line = Ok tree -> well_formed false tree.
Proof. exact cdecl_well_formed. Qed.

(** The declaration ['int (f[3])(int g())']. *)
Lemma parsed_tree_is_well_formed_witness :
  well_formed false
    (Array
       (Some (Function (Some (Type_ [] "int" [])) []
                (Some [Function (Some (Type_ [] "int" [])) [FUNCTION_PASSED]
                         None])))
       [ARRAY_OF_FUNCTIONS] (Some 3%Z)).
Proof.
  apply (parsed_tree_is_well_formed "int (f[3])(int g())"). reflexivity.
Defined.

(** ** Rendering a tree of the parser *)

Lemma height_positive n : 1 <= Display.height n.
Proof. destruct n; cbn [Display.height]; lia. Qed.

(** The parameters of a function, when each of them is rendered or runs
    out of fuel as its height tells. *)
Lemma display_params_well_formed fuel indent : forall params,
  (forall n,
      In n params ->
      (Display.height n <= fuel ->
       exists out, Display.display fuel indent n = Ok out)
      /\ (fuel < Display.height n ->
          Display.display fuel indent n = OutOfFuel)) ->
  let highest :=
    fold_right (fun param h => Nat.max (Display.height param) h) 0 params in
  (highest <= fuel ->
   exists outs,
     Display.display_params (Display.display fuel) indent params = Ok outs)
  /\ (fuel < highest ->
      Display.display_params (Display.display fuel) indent params
      = OutOfFuel).
Proof.
  induction params as [|x params IH]; intros Hall;
    cbn [fold_right Display.display_params].
  - split; [eauto|lia].
  - destruct (Hall x (or_introl eq_refl)) as [Hok Hout].
    destruct IH as [IHok IHout]; [intros n Hn; apply Hall; now right|].
    destruct (le_lt_dec (Display.height x) fuel) as [Hx|Hx].
    + destruct (Hok Hx) as [out ->]. cbn [bind]. split.
      * intros Hmax. destruct IHok as [outs ->]; [lia|]. cbn [bind]. eauto.
      * intros Hmax. rewrite IHout by lia. reflexivity.
    + rewrite (Hout Hx). cbn [bind]. split; [lia|reflexivity].
Qed.

(** A well-formed tree is rendered when the fuel is at least its height,
    and runs out of fuel otherwise. *)
Lemma display_well_formed : forall fuel n b indent,
  well_formed b n ->
  (Display.height n <= fuel ->
   exists out, Display.display fuel indent n = Ok out)
  /\ (fuel < Display.height n -> Display.display fuel indent n = OutOfFuel).
Proof.
  induction fuel as [|fuel IH]; intros n b indent Hwf.
  { pose proof (height_positive n). split; [lia|reflexivity]. }
  destruct n as [c w sz | c w k | w nm ms | c w ps];
    cbn [Display.display Display.height].
  - cbn [well_formed] in Hwf. destruct Hwf as [_ [Hc Hsz]].
    assert (Hsize : exists size,
              match sz with
              | Some z => str_of_int z
              | None => Ok "??"
              end = Ok size).
    { destruct sz as [z|]; [exact Hsz|eauto]. }
    destruct Hsize as [size ->]. cbn [bind].
    destruct c as [c|]; [|destruct Hc].
    destruct (IH c false (indent + 1) Hc) as [Hok Hout]. split.
    + intros Hh. destruct Hok as [out ->]; [lia|]. cbn [bind]. eauto.
    + intros Hh. rewrite Hout by lia. reflexivity.
  - cbn [well_formed] in Hwf. destruct Hwf as [_ Hc].
    destruct c as [c|]; [|split; [eauto|lia]].
    destruct (IH c false (indent + 1) Hc) as [Hok Hout]. split.
    + intros Hh. destruct Hok as [out ->]; [lia|]. cbn [bind]. eauto.
    + intros Hh. rewrite Hout by lia. reflexivity.
  - split; [eauto|lia].
  - apply well_formed_function in Hwf as [_ [Hc Hps]].
    set (hc := match c with Some c0 => Display.height c0 | None => 0 end).
    set (hp := match ps with
               | Some params =>
                   fold_right
                     (fun param h => Nat.max (Display.height param) h) 0
                     params
               | None => 0
               end).
    match goal with
    | |- context [bind ?m ?k] =>
        assert (Hret : (hc <= fuel -> exists out, m = Ok out)
                       /\ (fuel < hc -> m = OutOfFuel));
        [|assert (Htaken : forall returned,
                    (hp <= fuel -> exists out, k returned = Ok out)
                    /\ (fuel < hp -> k returned = OutOfFuel))]
    end.
    { subst hc. destruct c as [c|]; [|split; [eauto|lia]].
      destruct (IH c false (indent + 1) Hc) as [Hok Hout]. split.
      - intros Hh. destruct (Hok Hh) as [out ->]. cbn [bind]. eauto.
      - intros Hh. now rewrite (Hout Hh). }
    { intros returned. subst hp.
      destruct ps as [ps|]; [|cbn [bind]; split; [eauto|lia]].
      destruct ps as [|p ps]; [cbn [bind fold_right]; split; [eauto|lia]|].
      rewrite Forall_forall in Hps.
      destruct (display_params_well_formed fuel (indent + 1) (p :: ps))
        as [Hok Hout].
      { intros n Hn. exact (IH n true (indent + 1) (Hps n Hn)). }
      split.
      - intros Hh. destruct (Hok Hh) as [outs ->]. cbn [bind]. eauto.
      - intros Hh. now rewrite (Hout Hh). }
    destruct Hret as [Hrok Hrout]. split.
    + intros Hh. destruct Hrok as [out ->]; [lia|]. cbn [bind].
      apply (Htaken out). lia.
    + intros Hh. destruct (le_lt_dec hc fuel) as [Hc'|Hc'].
      * destruct (Hrok Hc') as [out ->]. cbn [bind].
        apply (Htaken out). lia.
      * now rewrite (Hrout Hc').
Qed.

(** X7.  Rendering a tree that the parser returned needs as many nested
    calls of [display] as the tree is high, and nothing else: with that
    many calls allowed it returns the text, raising nothing (every
    [display] finds the child that it prints and [str] writes every size);
    with fewer it runs out of them, which in Python is the
    [RecursionError] of a tree higher than the recursion limit allows. *)
Theorem display_of_parsed_tree :
  forall line tree fuel,
    cdecl line = Ok tree ->
    (Display.height tree <= fuel ->
     exists out, Display.display fuel 0 tree = Ok out)
    /\ (fuel < Display.height tree ->
        Display.display fuel 0 tree = OutOfFuel).
Proof.
  intros line tree fuel H. apply cdecl_well_formed in H.
  now apply display_well_formed with (b := false).
Qed.

(** The declaration ['int *x[3]'], a tree of three nodes one in the
    other, with three nested calls and with two. *)
Lemma display_of_parsed_tree_witness :
  let tree :=
    Array (Some (Pointer (Some (Type_ [] "int" [])) [] false)) []
          (Some 3%Z) in
  cdecl "int *x[3]" = Ok tree
  /\ (exists out, Display.display 3 0 tree = Ok out)
  /\ Display.display 2 0 tree = OutOfFuel.
Proof.
  intros tree.
  assert (H : cdecl "int *x[3]" = Ok tree) by reflexivity.
  split; [exact H|]. split.
  - apply (proj1 (display_of_parsed_tree "int *x[3]" tree 3 H)).
    cbn. lia.
  - apply (proj2 (display_of_parsed_tree "int *x[3]" tree 2 H)).
    cbn. lia.
Defined.

(** ** What the parser raises *)

Lemma spanned_some n tok :
  spanned n tok ->
  exists a l, Token.start tok = Some a /\ Token.length tok = Some l
              /\ a + l <= n.
Proof.
  destruct tok as [p str ms l | st ms len its]; cbn [spanned].
  - intros [_ H]. exists p, l. now cbn.
  - intros [[a [l [-> [-> [_ H]]]]] _]. exists a, l. now cbn.
Qed.

Lemma error_at_failure {A : Type} s tok msg e c :
  spanned (String.length s) tok ->
  @Parser.error_at A (Some tok) msg = Raise e c -> parser_failure s e c.
Proof.
  intros Hs H. apply spanned_some in Hs as [a [l [Ha [Hl Hal]]]].
  unfold Parser.error_at in H. rewrite Ha, Hl in H. injection H as <- <-.
  left. split; [eauto|]. cbn. now left.
Qed.

Lemma last_some (l : list Token) :
  l <> [] -> exists t, last (map Some l) None = Some t /\ In t l.
Proof.
  induction l as [|x l IH]; intros H; [now elim H|].
  destruct l as [|y l]; [exists x; cbn; auto|].
  destruct IH as [t [Ht Hin]]; [discriminate|].
  exists t. split; [exact Ht|now right].
Qed.

Lemma error_failure {A : Type} s p msg e c :
  readable (String.length s) (Parser.tokens p) ->
  @Parser.error A p msg = Raise e c -> parser_failure s e c.
Proof.
  intros [Hall Hne] H. unfold Parser.error in H.
  destruct (Token.len (Parser.tokens p) <=? Parser.index p) eqn:Hi.
  - destruct (last_some _ Hne) as [t [Ht Hin]]. rewrite Ht in H.
    rewrite Forall_forall in Hall.
    destruct (spanned_some _ _ (Hall _ Hin)) as [a [l [Ha [Hl Hal]]]].
    rewrite Ha, Hl in H. injection H as <- <-.
    left. split; [eauto|]. cbn. lia.
  - apply Nat.leb_gt in Hi. unfold Token.len in Hi.
    destruct (nth_error (Token.items (Parser.tokens p)) (Parser.index p))
      as [tok|] eqn:Hn.
    + apply nth_error_In in Hn. rewrite Forall_forall in Hall.
      now apply error_at_failure with (s := s) in H; [|apply Hall].
    + apply nth_error_None in Hn. lia.
Qed.

Lemma expect_failure s p e c :
  readable (String.length s) (Parser.tokens p) ->
  Parser.expect p = Raise e c -> parser_failure s e c.
Proof.
  intros Hr H. unfold Parser.expect in H.
  destruct (Parser.current p); [discriminate|].
  now apply error_failure with (s := s) in H.
Qed.

Lemma current_spanned n p tok :
  readable n (Parser.tokens p) ->
  Parser.current p = Some tok -> spanned n tok.
Proof.
  intros [Hall _] H. apply current_in in H.
  rewrite Forall_forall in Hall. now apply Hall.
Qed.

Lemma expect_spanned n p tok :
  readable n (Parser.tokens p) ->
  Parser.expect p = Ok tok -> spanned n tok.
Proof.
  intros Hr H. unfold Parser.expect in H.
  destruct (Parser.current p) as [t|] eqn:Hc.
  - injection H as <-. now apply current_spanned with p.
  - now apply error_raises in H.
Qed.

Lemma init_failure s tokens child e c :
  spanned (String.length s) tokens ->
  Parser.init tokens child = Raise e c -> parser_failure s e c.
Proof.
  intros Hs H. apply spanned_some in Hs as [a [l [Ha [Hl Hal]]]].
  unfold Parser.init in H. destruct (_ || _); [|discriminate].
  unfold Token.underline in H. rewrite Ha, Hl in H. cbn in H.
  injection H as <- <-. left. split; [eauto|]. cbn. now left.
Qed.

Lemma init_param_failure s items child e c :
  Parser.init (Group None [] None items) child = Raise e c ->
  parser_failure s e c.
Proof.
  unfold Parser.init. destruct (_ || _); [|discriminate].
  cbn. intros [= <- <-]. right. auto.
Qed.

Lemma init_readable n tokens child q :
  Forall (spanned n) (Token.items tokens) ->
  Parser.init tokens child = Ok q ->
  readable n (Parser.tokens q) /\ Parser.child q = child.
Proof.
  intros Hall H. unfold Parser.init in H.
  destruct (negb _ || _) eqn:Hc; [ok_inv H|]. injection H as <-. cbn.
  apply orb_false_elim in Hc as [_ Hc]. apply Nat.eqb_neq in Hc.
  split; [|reflexivity]. split; [exact Hall|].
  unfold Token.len in Hc. intros Hnil. now rewrite Hnil in Hc.
Qed.

Lemma int_of_raise str : forall acc e c,
  Token.int_of acc str = Raise e c -> e = ValueError /\ c = None.
Proof.
  induction str as [|ch str IH]; intros acc e c H; cbn in H; [discriminate|].
  destruct (between 48 57 _); [now apply IH in H|].
  now injection H as <- <-.
Qed.

Lemma get_num_failure s tok e c :
  Token.is_num tok = true ->
  Token.get_num tok = Raise e c -> parser_failure s e c.
Proof.
  intros Hn H. unfold Token.get_num in H. rewrite Hn in H.
  assert (Hg : Token.is_group tok = false).
  { unfold Token.is_num, Token.is_group in *.
    now destruct (Token.string tok). }
  rewrite Hg in H. cbn [orb negb] in H. unfold Token.int in H.
  destruct (_ <? _).
  - injection H as <- <-. right. auto.
  - apply int_of_raise in H as [-> ->]. right. auto.
Qed.

Lemma parse_name_or_group_failure s p e c :
  readable (String.length s) (Parser.tokens p) ->
  Parser.parse_name_or_group p = Raise e c -> parser_failure s e c.
Proof.
  intros Hr H. unfold Parser.parse_name_or_group in H.
  destruct (Parser.current p) as [tok|]; [|discriminate].
  destruct (Token.is_name tok).
  - destruct (Token.string_in tok KEYWORDS); [|discriminate].
    now apply error_failure with (s := s) in H.
  - destruct (Token.is_group tok); discriminate.
Qed.

Lemma parse_dimensions_failure s : forall n p dims e c,
  readable (String.length s) (Parser.tokens p) ->
  Parser.parse_dimensions n p dims = Raise e c -> parser_failure s e c.
Proof.
  induction n as [|n IH]; intros p dims e c Hr H;
    cbn [Parser.parse_dimensions] in H.
  - destruct (Parser.current p); discriminate.
  - destruct (Parser.current p) as [tok|]; [|discriminate].
    destruct (Token.string_is tok "["); [|discriminate].
    apply bind_raise in H as [H | [tok1 [_ H]]].
    { now apply expect_failure with (s := s) in H. }
    apply bind_raise in H as [H | [[p1 dims1] [H1 H]]].
    { destruct (Token.is_num tok1) eqn:Hnum; [|discriminate].
      apply bind_raise in H as [H | [num [_ H]]]; [|discriminate].
      now apply get_num_failure with (s := s) in H. }
    assert (Hp1 : Parser.tokens p1 = Parser.tokens p).
    { destruct (Token.is_num tok1).
      - apply bind_ok in H1 as [num [_ H1]]. now injection H1 as <- _.
      - now injection H1 as <- _. }
    apply bind_raise in H as [H | [tok2 [_ H]]].
    { apply expect_failure with (s := s) in H; [exact H|now rewrite Hp1]. }
    destruct (negb _).
    + apply error_failure with (s := s) in H; [exact H|now rewrite Hp1].
    + apply IH in H; [exact H|]. cbn. now rewrite Hp1.
Qed.

Lemma wrap_arrays_failure s voidTok : forall dims child e c,
  (child = None ->
   exists tok, voidTok = Some tok /\ spanned (String.length s) tok) ->
  Parser.wrap_arrays voidTok child dims = Raise e c -> parser_failure s e c.
Proof.
  induction dims as [|dim dims IH]; intros child e c Hv H;
    cbn [Parser.wrap_arrays] in H; [discriminate|].
  apply bind_raise in H as [H | [u [_ H]]].
  - destruct child; [discriminate|].
    destruct (Hv eq_refl) as [tok [-> Hs]].
    now apply error_at_failure with (s := s) in H.
  - apply IH in H; [exact H|discriminate].
Qed.

Lemma wrap_arrays_none voidTok : forall dims child,
  Parser.wrap_arrays voidTok child dims = Ok None -> child = None.
Proof.
  induction dims as [|dim dims IH]; intros child H;
    cbn [Parser.wrap_arrays] in H; [now injection H|].
  apply bind_ok in H as [u [_ H]]. now apply IH in H.
Qed.

Lemma take_param_spanned n : forall rest items rest',
  Forall (spanned n) rest ->
  Parser.take_param rest = (items, rest') ->
  Forall (spanned n) items /\ Forall (spanned n) rest'.
Proof.
  intros rest items rest' Hall H. apply take_param_incl in H as [Hi Hr].
  rewrite Forall_forall in Hall.
  split; apply Forall_forall; intros x Hx; apply Hall; auto.
Qed.

Section ParserFailures.

Variables (s : string) (parse : Parser.t -> result Node).

Hypothesis parse_failure : forall q e c,
  readable (String.length s) (Parser.tokens q) ->
  parse q = Raise e c -> parser_failure s e c.

Lemma parse_params_failure : forall n rest params e c,
  Forall (spanned (String.length s)) rest ->
  Parser.parse_params parse n rest params = Raise e c ->
  parser_failure s e c.
Proof.
  induction n as [|n IH]; intros rest params e c Hall H;
    cbn [Parser.parse_params] in H; [discriminate|].
  destruct rest as [|t rest]; [discriminate|].
  destruct (Parser.take_param (t :: rest)) as [items rest'] eqn:Et.
  apply take_param_spanned with (n := String.length s) in Et as [Hi Hr];
    [|exact Hall].
  apply bind_raise in H as [H | [q [Hq H]]].
  { now apply init_param_failure with (s := s) in H. }
  apply init_readable with (n := String.length s) in Hq as [Hq _];
    [|exact Hi].
  apply bind_raise in H as [H | [node [_ H]]].
  { now apply parse_failure in H. }
  now apply IH in H.
Qed.

Lemma parse_parameter_list_failure p e c :
  readable (String.length s) (Parser.tokens p) ->
  Parser.parse_parameter_list parse p = Raise e c -> parser_failure s e c.
Proof.
  intros Hr H. unfold Parser.parse_parameter_list in H.
  destruct (Parser.current p) as [g|] eqn:Hc; [|discriminate].
  apply current_spanned with (n := String.length s) in Hc; [|exact Hr].
  destruct g as [|st ms len its]; [discriminate|].
  cbn [Token.is_group Token.string] in H.
  apply bind_raise in H as [H | [ps [_ H]]]; [|discriminate].
  destruct (_ =? 0); [discriminate|].
  destruct (_ && _); [discriminate|].
  apply bind_raise in H as [H | [l [_ H]]]; [|discriminate].
  apply parse_params_failure in H; [exact H|].
  now apply spanned_group in Hc.
Qed.

Lemma declarator_failure p voidTok e c :
  readable (String.length s) (Parser.tokens p) ->
  (Parser.child p = None ->
   exists tok, voidTok = Some tok /\ spanned (String.length s) tok) ->
  Parser.declarator parse p voidTok = Raise e c -> parser_failure s e c.
Proof.
  intros Hr Hv H. unfold Parser.declarator in H.
  set (p1 := Parser.parse_pointers _ p) in H.
  assert (Hr1 : readable (String.length s) (Parser.tokens p1))
    by (unfold p1; now rewrite parse_pointers_tokens).
  assert (Hv1 : Parser.child p1 = None ->
                exists tok, voidTok = Some tok
                            /\ spanned (String.length s) tok).
  { unfold p1.
    apply (parse_pointers_child
             (fun c => c = None ->
                       exists tok, voidTok = Some tok
                                   /\ spanned (String.length s) tok));
      [discriminate|exact Hv]. }
  clearbody p1. clear Hr Hv.
  apply bind_raise in H as [H | [[p2 parentGroup] [Hng H]]].
  { now apply parse_name_or_group_failure with (s := s) in H. }
  pose proof (parse_name_or_group_child _ _ _ Hng) as Hc2.
  apply parse_name_or_group_ok in Hng as [Ht2 Hparent].
  apply bind_raise in H as [H | [[[p3 isFunction] params] [Hpl H]]].
  { apply parse_parameter_list_failure in H; [exact H|now rewrite Ht2]. }
  apply parse_parameter_list_state in Hpl as [Ht3 Hc3].
  apply bind_raise in H as [H | [[p4 dimensions] [Hd H]]].
  { apply parse_dimensions_failure with (s := s) in H; [exact H|].
    now rewrite Ht3, Ht2. }
  apply parse_dimensions_state in Hd as [Ht4 Hc4].
  assert (Hr4 : readable (String.length s) (Parser.tokens p4))
    by now rewrite Ht4, Ht3, Ht2.
  apply bind_raise in H as [H | [c4 [Hw H]]].
  { apply wrap_arrays_failure with (s := s) in H; [exact H|].
    rewrite Hc4, Hc3, Hc2. exact Hv1. }
  assert (Hv4 : c4 = None ->
                exists tok, voidTok = Some tok
                            /\ spanned (String.length s) tok).
  { intros ->. apply wrap_arrays_none in Hw.
    apply Hv1. now rewrite <- Hc2, <- Hc3, <- Hc4. }
  apply bind_raise in H as [H | [u [_ H]]].
  { destruct (Parser.current _); [|discriminate].
    now apply error_failure with (s := s) in H. }
  apply bind_raise in H as [H | [p5 [Hp5 H]]].
  - destruct parentGroup as [g|]; [|discriminate].
    assert (Hg : spanned (String.length s) g).
    { destruct Hr4 as [Hall _]. rewrite Forall_forall in Hall.
      apply Hall. rewrite Ht4, Ht3, Ht2. now apply Hparent. }
    apply bind_raise in H as [H | [q [Hq H]]].
    { now apply init_failure with (s := s) in H. }
    apply bind_raise in H as [H | [node [_ H]]]; [|discriminate].
    apply parse_failure in H; [exact H|].
    destruct g as [|st ms len its].
    { unfold Parser.init in Hq. cbn in Hq. discriminate. }
    apply spanned_group in Hg as [_ Hg].
    now apply init_readable with (n := String.length s) in Hq as [Hq _].
  - unfold Parser.check_void_decl in H.
    destruct (Parser.child p5) eqn:Hc5; [discriminate|].
    assert (Hnone : c4 = None).
    { destruct parentGroup as [g|].
      - apply bind_ok in Hp5 as [q [_ Hp5]].
        apply bind_ok in Hp5 as [node [_ Hp5]]. injection Hp5 as <-.
        discriminate.
      - injection Hp5 as <-. destruct isFunction; [discriminate|].
        exact Hc5. }
    destruct (Hv4 Hnone) as [tok [-> Hs]].
    now apply error_at_failure with (s := s) in H.
Qed.

Lemma parse_body_failure p e c :
  readable (String.length s) (Parser.tokens p) ->
  Parser.parse_body parse p = Raise e c -> parser_failure s e c.
Proof.
  intros Hr H. unfold Parser.parse_body in H.
  destruct (Parser.child p) eqn:Hchild.
  { apply declarator_failure in H; [exact H|exact Hr|].
    rewrite Hchild. discriminate. }
  apply bind_raise in H as [H | [tok [Htok H]]].
  { now apply expect_failure with (s := s) in H. }
  apply expect_spanned with (n := String.length s) in Htok; [|exact Hr].
  apply bind_raise in H as [H | [u [_ H]]].
  { destruct (negb _); [|discriminate].
    now apply error_failure with (s := s) in H. }
  destruct (Token.string_is tok "void"); cbn [Parser.next] in H.
  - destruct (Parser.current _).
    + apply declarator_failure in H; [exact H|exact Hr|].
      intros _. eauto.
    + unfold Parser.check_void_decl in H. cbn in H. rewrite Hchild in H.
      now apply error_at_failure with (s := s) in H.
  - destruct (Parser.current _).
    + apply declarator_failure in H; [exact H|exact Hr|discriminate].
    + discriminate.
Qed.

End ParserFailures.

Lemma parse_raise s : forall f p e c,
  readable (String.length s) (Parser.tokens p) ->
  Parser.parse f p = Raise e c -> parser_failure s e c.
Proof.
  induction f as [|f IH]; intros p e c Hr H; [discriminate|].
  cbn [Parser.parse] in H.
  exact (parse_body_failure s (Parser.parse f) (IH) p e c Hr H).
Qed.

Lemma parser_raise line root e c :
  lex line = Ok root ->
  (parser <- Parser.init root None ;;
   Parser.parse (Token.depth root) parser) = Raise e c ->
  parser_failure line e c.
Proof.
  intros Hlex H.
  apply lexed_tokens_in_line in Hlex as [items [-> Hall]].
  apply bind_raise in H as [H | [q [Hq H]]].
  - unfold Parser.init in H. destruct (_ || _); [|discriminate].
    cbn in H. injection H as <- <-. left. split; [eauto|]. cbn. now left.
  - apply init_readable with (n := String.length line) in Hq as [Hq _];
      [|exact Hall].
    now apply parse_raise with (s := line) in H.
Qed.

(** ** A round of the main loop *)

Lemma cdecl_after_lex line root :
  lex line = Ok root ->
  cdecl line
  = (parser <- Parser.init root None ;;
     Parser.parse (Token.depth root) parser).
Proof. intros H. unfold cdecl. now rewrite H. Qed.

(** X8.  The caret line that the parser prints before it raises a
    [ParserError] lies under the input: its carets stand under characters
    of the line, or it is one caret just after the last character. *)
Theorem parser_caret_under_input :
  forall line msg shown,
    cdecl line = Raise (ParserError msg) shown -> under_input line shown.
Proof.
  intros line msg shown H.
  destruct (lex line) as [root | e c |] eqn:Hlex.
  - rewrite (cdecl_after_lex _ _ Hlex) in H.
    apply (parser_raise _ _ _ _ Hlex) in H as [[_ H] | [[H | H] _]];
      [exact H|discriminate|discriminate].
  - unfold cdecl in H. rewrite Hlex in H. cbn in H. injection H as -> ->.
    now apply lexer_caret_in_line in Hlex.
  - unfold cdecl in H. rewrite Hlex in H. discriminate.
Qed.

(** The line ['int x['], where a token is missing at the end. *)
Lemma parser_caret_under_input_witness : under_input "int x[" (Some (6, 1)).
Proof.
  apply (parser_caret_under_input "int x[" "expected another token").
  reflexivity.
Defined.

(** X9.  A round of the main loop ends, and in one of four ways: it prints
    (nothing for a blank line, the report of a [LexerError] or of a
    [ParserError], or the tree), or it ends the program with the
    [RuntimeError] of [add_modifier], with a [TypeError] or with a
    [ValueError].  No [IndexError] and no [AttributeError] is raised: a
    parser always has a token to point at, the [void] token is kept when
    there is no child, and the tree that is displayed has the children
    that [display] prints.  (Python's limit on the depth of recursion is
    left aside.) *)
Theorem main_round_outcome :
  forall line,
    (exists out, main_round line = Ok out)
    \/ main_round line = Raise (RuntimeError "internal error") None
    \/ main_round line = Raise TypeError None
    \/ main_round line = Raise ValueError None.
Proof.
  intros line. unfold main_round.
  destruct (_ =? 0); [left; eauto|].
  destruct (lex (strip line)) as [root | e c |] eqn:Hlex.
  - pose proof (cdecl_after_lex _ _ Hlex) as Hc.
    destruct (parser <- Parser.init root None ;;
              Parser.parse (Token.depth root) parser)
      as [tree | e c |] eqn:Hp.
    + apply cdecl_well_formed in Hc. left.
      apply (proj1 (display_well_formed _ _ false 0 Hc)). lia.
    + clear Hc.
      apply (parser_raise _ _ _ _ Hlex) in Hp
        as [[[msg ->] _] | [[-> | ->] ->]]; [left; eauto|auto|auto].
    + now apply cdecl_total in Hc.
  - apply lex_raise in Hlex as [[[msg ->] _] | [-> ->]]; [left; eauto|auto].
  - now apply lex_total in Hlex.
Qed.

(** ** The modifiers of a token *)

Lemma str_in_In x l : str_in x l = true <-> In x l.
Proof.
  unfold str_in. rewrite existsb_exists. split.
  - intros [y [Hy Heq]]. apply String.eqb_eq in Heq. now subst.
  - intros H. exists x. split; [exact H|apply String.eqb_refl].
Qed.

Lemma str_in_not_In x l : str_in x l = false <-> ~ In x l.
Proof.
  rewrite <- str_in_In. destruct (str_in x l); split; congruence.
Qed.

Lemma add_modifiers_nodup p str len : forall mods ms t,
  NoDup ms ->
  Lexer.add_modifiers (Leaf p str ms len) mods = Ok t ->
  t = Leaf p str (ms ++ mods) len /\ NoDup (ms ++ mods).
Proof.
  induction mods as [|m mods IH]; intros ms t Hnd H; simpl in H.
  - injection H as <-. now rewrite app_nil_r.
  - apply bind_ok in H as [t1 [H1 H2]].
    assert (Hm : ~ In m ms).
    { unfold Token.add_modifier in H1. cbn [Token.modifiers] in H1.
      destruct (str_in m ms) eqn:Hin; [discriminate|].
      now apply str_in_not_In. }
    apply add_modifier_leaf in H1. subst t1.
    apply IH in H2.
    + rewrite <- app_assoc in H2. exact H2.
    + apply NoDup_app; repeat split; try assumption.
      * constructor; [easy|constructor].
      * intros x Hx [<- | []]. contradiction.
Qed.

Lemma legal_nil : legal_modifiers [].
Proof.
  split; [constructor|]. split; [intros x []|].
  split; [intros [[] _]|intros []].
Qed.

Lemma legal_const : legal_modifiers ["const"].
Proof.
  split; [constructor; [easy|constructor]|].
  split; [intros x [<- | []]; cbn; auto|].
  split; [intros [[H | []] _]; discriminate|].
  intros [H | []]. discriminate.
Qed.

Lemma legal_struct ms :
  ms = [] \/ ms = ["const"] -> legal_modifiers (ms ++ ["struct"]).
Proof.
  intros [-> | ->]; cbn [app].
  - split; [constructor; [easy|constructor]|].
    split; [intros x [<- | []]; cbn; auto|].
    split; [intros [[H | []] _]; discriminate|]. auto.
  - split.
    { constructor; [intros [H | []]; discriminate|].
      constructor; [easy|constructor]. }
    split; [intros x [<- | [<- | []]]; cbn; auto|].
    split; [intros [[H | [H | []]] _]; discriminate|]. auto.
Qed.

Lemma primtype_not_modifier str :
  str_in str PRIMTYPES = true -> str_in str MODIFIERS = false.
Proof.
  intros H. apply str_in_In in H. cbn in H.
  repeat (destruct H as [<- | H]; [reflexivity|]). destruct H.
Qed.

Lemma modifier_cases str :
  str_in str MODIFIERS = true -> String.eqb str "struct" = false ->
  In str ["unsigned"; "signed"; "const"].
Proof.
  intros H Hs. apply str_in_In in H. cbn in H |- *.
  destruct H as [<- | [<- | [<- | [<- | []]]]]; auto. discriminate.
Qed.

Lemma parse_type_modifiers s : forall f,
  (forall k p str ms len j tok',
      (if String.eqb str "struct" then ms = [] \/ ms = ["const"]
       else if str_in str MODIFIERS then ms = []
       else legal_modifiers ms) ->
      Lexer.parse_type s f k (Leaf p str ms len) = Ok (j, Some tok') ->
      legal_modifiers (Token.modifiers tok'))
  /\ (forall k1 p str len mods before nextTok j tok',
         incl mods ["unsigned"; "signed"; "const"] ->
         ~ (In "signed" mods /\ In "unsigned" mods) ->
         Lexer.parse_type_mods s f k1 (Leaf p str [] len) mods before nextTok
         = Ok (j, Some tok') ->
         legal_modifiers (Token.modifiers tok')).
Proof.
  induction f as [|f [IHt IHm]]; [split; intros; discriminate|].
  split.
  - intros k p str ms len j tok' Hpre H. cbn [Lexer.parse_type] in H.
    unfold Token.string_is, Token.string_in in H. cbn [Token.string] in H.
    destruct (String.eqb str "struct") eqn:Hstruct.
    { destruct (Lexer.parse_ident s k) as [k1 name].
      destruct name as [nm|]; [|discriminate].
      destruct (match Token.string nm with
                | Some s' => str_in s' KEYWORDS
                | None => false
                end); [ok_inv H|].
      cbn in H. ok_inv H. apply add_modifier_leaf in Hrun. subst x.
      injection H as _ <-. cbn. now apply legal_struct. }
    destruct (str_in str PRIMTYPES) eqn:Hprim.
    { rewrite (primtype_not_modifier _ Hprim) in Hpre.
      destruct (String.eqb str "long").
      - destruct (Lexer.parse_ident s k) as [k1 nextTok].
        match type of H with
        | (if ?c then _ else _) = _ => destruct c
        end; cbn in H; injection H as _ <-; exact Hpre.
      - injection H as _ <-. exact Hpre. }
    destruct (str_in str MODIFIERS) eqn:Hmod; [|discriminate].
    subst ms. cbn [Token.str Token.string] in H.
    destruct (Lexer.parse_ident s k) as [k1 nextTok].
    pose proof (modifier_cases _ Hmod Hstruct) as Hcases.
    apply IHm in H; [exact H| |].
    + intros x [<- | []]. exact Hcases.
    + intros [[Hs | []] [Hu | []]]. congruence.
  - intros k1 p str len mods before nextTok j tok' Hincl Hsign H.
    cbn [Lexer.parse_type_mods] in H.
    assert (Hexit :
      (x <- Lexer.resolve_modifiers k1 (Leaf p str [] len) mods before
              nextTok ;;
       (let '(curIndex, tok) := x in Lexer.parse_type s f curIndex tok))
      = Ok (j, Some tok') ->
      legal_modifiers (Token.modifiers tok')).
    { intros Hx. apply bind_ok in Hx as [[cur tok1] [Hres Hre]].
      apply resolve_modifiers_ok in Hres as [str' [Hadd Hcase]].
      apply add_modifiers_nodup in Hadd as [-> Hnd]; [|constructor].
      cbn [app] in Hre, Hnd.
      apply IHt in Hre; [exact Hre|].
      assert (Hstr : str_in str' PRIMTYPES = true).
      { destruct Hcase as [[_ [-> _]] | [_ [nt [_ [Hp ->]]]]];
          [reflexivity|].
        unfold Token.string_in in Hp. unfold Token.str.
        now destruct (Token.string nt). }
      rewrite (primtype_not_modifier _ Hstr).
      assert (Hns : String.eqb str' "struct" = false).
      { destruct (String.eqb_spec str' "struct") as [->|]; [|reflexivity].
        discriminate. }
      rewrite Hns. split; [exact Hnd|]. split.
      { intros x Hx. apply Hincl in Hx. cbn in Hx |- *. tauto. }
      split; [exact Hsign|].
      intros Hin. apply Hincl in Hin. cbn in Hin.
      destruct Hin as [H0 | [H0 | [H0 | []]]]; discriminate. }
    destruct nextTok as [nt|]; [|now apply Hexit].
    destruct (Token.string_in nt MODIFIERS) eqn:Hmod; [|now apply Hexit].
    clear Hexit. rewrite token_never_eq_str in H.
    unfold Token.string_is in H.
    destruct nt as [q nstr nms nlen | ]; [|discriminate].
    cbn [Token.string Token.string_in Token.str] in H, Hmod.
    destruct (String.eqb nstr "struct") eqn:Hstruct.
    { destruct (negb _ || negb _) eqn:Hcond; [ok_inv H|].
      unfold Lexer.set_length_to, Token.add_modifier in H.
      cbn [Token.start Token.set_length Token.modifiers bind str_in
           existsb String.eqb Ascii.eqb Bool.eqb MODIFIERS orb negb
           Token.set_string] in H.
      apply IHt in H; [exact H|]. cbn. now right. }
    pose proof (modifier_cases _ Hmod Hstruct) as Hcases.
    destruct (_ && _) eqn:Hconflict; [ok_inv H|].
    destruct (Lexer.parse_ident s k1) as [k2 nextTok2].
    apply IHm in H; [exact H| |].
    + intros x Hx. apply in_app_or in Hx as [Hx | [<- | []]];
        [now apply Hincl|exact Hcases].
    + intros [Hs Hu].
      apply in_app_or in Hs as [Hs | [-> | []]];
        apply in_app_or in Hu as [Hu | [Heq | []]];
        try discriminate; try tauto.
      * subst nstr. cbn in Hconflict.
        apply str_in_In in Hs. rewrite Hs in Hconflict. discriminate.
      * cbn in Hconflict. apply str_in_In in Hu.
        rewrite Hu, orb_true_r in Hconflict. discriminate.
Qed.

Lemma loop_returns_group s : forall f nested st ms len its i j g,
  Lexer.parse_tokens_loop s f nested (Group st ms len its) i = Ok (j, g) ->
  exists len' its', g = Group st ms len' its'.
Proof.
  induction f as [|f IH]; intros nested st ms len its i j g H;
    [discriminate|].
  cbn [Lexer.parse_tokens_loop] in H.
  assert (Hset : forall k g0,
    Lexer.set_length_to (Group st ms len its) k = Ok g0 ->
    exists len' its', g0 = Group st ms len' its').
  { unfold Lexer.set_length_to. cbn. intros k g0.
    destruct st as [st0|]; [|discriminate]. intros [= <-]. eauto. }
  destruct (nested && _).
  { rewrite nextchar_get in H. apply bind_ok in H as [g0 [Hg H]].
    injection H as _ <-. now apply Hset in Hg. }
  apply bind_ok in H as [[k tok] [_ H]].
  destruct tok as [tok|].
  - unfold Token.append in H. now apply IH in H.
  - destruct nested; [discriminate|].
    apply bind_ok in H as [g0 [Hg H]]. injection H as _ <-.
    now apply Hset in Hg.
Qed.

Lemma next_token_modifiers s f i j tok :
  i <= String.length s ->
  Lexer.next_token s f i = Ok (j, Some tok) ->
  legal_modifiers (Token.modifiers tok).
Proof.
  intros Hi H. destruct tok as [q str ms l | st ms len its].
  2:{ apply next_token_group in H as [p [_ [-> _]]]; [|exact Hi].
      apply legal_nil. }
  destruct f as [|f]; [discriminate|].
  cbn [Lexer.next_token] in H.
  destruct (Lexer.skip_space s i) as [p [ch|]]; [|discriminate].
  unfold Lexer.punctuation in H.
  destruct (chr_in ch PUNCTUATION).
  { destruct (Ascii.eqb ch "*").
    - rewrite ?nextchar_get in H.
      destruct (Lexer.parse_ident s (p + 1)) as [k1 ident].
      destruct (match ident with
                | Some i0 => Token.string_is i0 "const"
                | None => false
                end).
      + apply bind_ok in H as [t0 [Ha H]].
        apply add_modifier_leaf in Ha. subst t0.
        injection H as _ _ _ <- _. apply legal_const.
      + injection H as _ _ _ <- _. apply legal_nil.
    - rewrite nextchar_get in H. injection H as _ _ _ <- _.
      apply legal_nil. }
  destruct (Lexer.parse_ident s p) as [k1 tok0] eqn:Eid.
  destruct tok0 as [tok0|].
  { apply parse_ident_inv in Eid.
    apply ident_at_some in Eid as [q0 [-> _]].
    destruct (Token.string_in _ KEYWORDS).
    - apply (proj1 (parse_type_modifiers s f)) in H; [exact H|].
      destruct (String.eqb _ "struct"); [now left|].
      destruct (str_in _ MODIFIERS); [reflexivity|apply legal_nil].
    - injection H as _ _ _ <- _. apply legal_nil. }
  destruct (isdigit ch).
  { rewrite nextchar_get in H.
    destruct (Lexer.while_char s isdigit _ _ _).
    injection H as _ _ _ <- _. apply legal_nil. }
  destruct (Ascii.eqb ch "("); [|discriminate].
  rewrite nextchar_get in H. apply bind_ok in H as [[k g] [Hg H]].
  injection H as _ ->. unfold Token.group in Hg.
  apply loop_returns_group in Hg as [len' [its' Heq]]. discriminate.
Qed.

(** X10.  A token of a line that lexes carries modifiers that go together:
    distinct ones of [MODIFIERS], never both [signed] and [unsigned], and
    [struct] alone or after [const] only. *)
Theorem lexed_modifiers_are_legal :
  forall line root tok,
    lex line = Ok root ->
    In tok (subtokens root) ->
    legal_modifiers (Token.modifiers tok).
Proof.
  intros line root tok H Hin.
  destruct (lex_subtokens _ _ _ H Hin) as [[a [j Hat]] _].
  destruct Hat as [_ [_ [Hspan [fuel Hrun]]]].
  apply next_token_modifiers in Hrun; [exact Hrun|lia].
Qed.

(** The type token of ['unsigned const long x']. *)
Lemma lexed_modifiers_are_legal_witness :
  legal_modifiers ["unsigned"; "const"].
Proof.
  apply (lexed_modifiers_are_legal "unsigned const long x"
           (Group (Some 0) [] (Some 21)
              [Leaf 0 "long" ["unsigned"; "const"] 19; Leaf 20 "x" [] 1])
           (Leaf 0 "long" ["unsigned"; "const"] 19)).
  - reflexivity.
  - cbn. now left.
Defined.

(** ** Where a token ends *)

Lemma ident_char_not_space c : Lexer.ident_char c = true -> isspace c = false.
Proof.
  destruct c as [[] [] [] [] [] [] [] []]; vm_compute; congruence.
Qed.

Lemma isdigit_not_space c : isdigit c = true -> isspace c = false.
Proof.
  destruct c as [[] [] [] [] [] [] [] []]; vm_compute; congruence.
Qed.

Lemma ident_start_char c :
  Lexer.ident_start c = true -> Lexer.ident_char c = true.
Proof.
  unfold Lexer.ident_start, Lexer.ident_char. intros ->. reflexivity.
Qed.

Lemma run_last P s i j :
  run P s i j -> i < j ->
  exists c, String.get (j - 1) s = Some c /\ P c = true.
Proof. intros [_ [H _]] Hij. apply H. lia. Qed.

Lemma ident_at_ends s i j tok :
  ident_at s i j (Some tok) -> ends_on_text s j.
Proof.
  intros H. inversion H as [|p j' c Hsp Hc Hst Hrun]; subst.
  pose proof Hrun as [Hle _].
  destruct (Nat.eq_dec j (p + 1)) as [->|Hne].
  - exists c. replace (p + 1 - 1) with p by lia. split; [exact Hc|].
    now apply ident_char_not_space, ident_start_char.
  - destruct (run_last _ _ _ _ Hrun ltac:(lia)) as [d [Hd Hid]].
    exists d. split; [exact Hd|now apply ident_char_not_space].
Qed.

Lemma parse_type_ends s : forall f,
  (forall k p str ms j r,
      p <= k <= String.length s ->
      ends_on_text s k ->
      Lexer.parse_type s f k (Leaf p str ms (k - p)) = Ok (j, r) ->
      ends_on_text s j)
  /\ (forall k1 p str ms len mods before nextTok j r,
         p <= before <= String.length s ->
         ends_on_text s before ->
         ident_at s before k1 nextTok ->
         Lexer.parse_type_mods s f k1 (Leaf p str ms len) mods before nextTok
         = Ok (j, r) ->
         ends_on_text s j).
Proof.
  induction f as [|f [IHt IHm]]; [split; intros; discriminate|].
  split.
  - intros k p str ms j r Hk He H. cbn [Lexer.parse_type] in H.
    destruct (Token.string_is _ "struct").
    { destruct (Lexer.parse_ident s k) as [k1 name] eqn:Eid.
      apply parse_ident_inv in Eid.
      destruct name as [nm|]; [|discriminate].
      destruct (Token.string_in nm KEYWORDS); [ok_inv H|].
      cbn in H. ok_inv H. injection H as <- _.
      now apply ident_at_ends in Eid. }
    destruct (Token.string_in _ PRIMTYPES).
    { destruct (Token.string_is _ "long").
      - destruct (Lexer.parse_ident s k) as [k1 nextTok] eqn:Eid.
        apply parse_ident_inv in Eid.
        destruct nextTok as [nt|].
        + destruct (Token.string_in nt LONGTYPES).
          * cbn in H. injection H as <- _. now apply ident_at_ends in Eid.
          * now injection H as <- _.
        + now injection H as <- _.
      - now injection H as <- _. }
    destruct (Token.string_in _ MODIFIERS).
    + destruct (Lexer.parse_ident s k) as [k1 nextTok] eqn:Eid.
      apply parse_ident_inv in Eid.
      exact (IHm _ _ _ _ _ _ _ _ _ _ Hk He Eid H).
    + now injection H as <- _.
  - intros k1 p str ms len mods before nextTok j r Hb He Hid H.
    cbn [Lexer.parse_type_mods] in H.
    pose proof (ident_at_le _ _ _ _ Hid) as Hle.
    pose proof (ident_at_bound _ _ _ _ Hid (proj2 Hb)) as Hk1.
    assert (Hexit :
      (x <- Lexer.resolve_modifiers k1 (Leaf p str ms len) mods before
              nextTok ;;
       (let '(curIndex, tok) := x in Lexer.parse_type s f curIndex tok))
      = Ok (j, r) ->
      ends_on_text s j).
    { intros Hx. apply bind_ok in Hx as [[cur tok1] [Hres Hre]].
      apply resolve_modifiers_ok in Hres as [str' [Hadd Hcase]].
      apply add_modifiers_shape in Hadd as [ms' ->].
      destruct Hcase as [[-> _] | [-> [nt [-> _]]]].
      - apply IHt in Hre; [exact Hre|lia|exact He].
      - apply IHt in Hre; [exact Hre|lia|].
        now apply ident_at_ends in Hid. }
    destruct nextTok as [nt|]; [|now apply Hexit].
    destruct (Token.string_in nt MODIFIERS) eqn:Hmod; [|now apply Hexit].
    clear Hexit. rewrite token_never_eq_str in H.
    pose proof (ident_at_ends _ _ _ _ Hid) as He1.
    destruct (Token.string_is nt "struct").
    { destruct (negb _ || negb _); [ok_inv H|].
      cbn in H. ok_inv H. apply add_modifier_leaf in Hrun. subst x.
      cbn in H. apply IHt in H; [exact H|lia|exact He1]. }
    destruct (_ && _); [ok_inv H|].
    destruct (Lexer.parse_ident s k1) as [k2 nextTok2] eqn:Eid.
    apply parse_ident_inv in Eid.
    apply IHm in H; [exact H|lia|exact He1|exact Eid].
Qed.

Lemma next_token_ends s f i j tok :
  i <= String.length s ->
  Lexer.next_token s f i = Ok (j, Some tok) -> ends_on_text s j.
Proof.
  intros Hi H. destruct f as [|f]; [discriminate|].
  cbn [Lexer.next_token] in H.
  destruct (skip_space_run s i) as [p [Hs Hr]]. rewrite Hs in H.
  pose proof (run_bound _ _ _ _ Hr Hi) as Hpl.
  assert (Hnsp : match String.get p s with
                 | Some c => isspace c = false
                 | None => True
                 end) by apply Hr.
  destruct (String.get p s) as [c|] eqn:Hc; [|discriminate].
  pose proof (get_some_lt _ _ _ Hc) as Hp.
  assert (Hpe : ends_on_text s (p + 1)).
  { exists c. now replace (p + 1 - 1) with p by lia. }
  unfold Lexer.punctuation in H.
  destruct (chr_in c PUNCTUATION).
  { destruct (Ascii.eqb c "*").
    - rewrite ?nextchar_get in H.
      destruct (Lexer.parse_ident s (p + 1)) as [k1 ident] eqn:Eid.
      apply parse_ident_inv in Eid.
      destruct ident as [id|].
      + destruct (Token.string_is id "const").
        * apply bind_ok in H as [t0 [_ H]]. injection H as <- _.
          now apply ident_at_ends in Eid.
        * now injection H as <- _.
      + now injection H as <- _.
    - rewrite nextchar_get in H. now injection H as <- _. }
  destruct (Lexer.parse_ident s p) as [k1 tok0] eqn:Eid.
  pose proof (parse_ident_after_skip _ _ _ _ _ _ Hs Eid) as Hid.
  apply parse_ident_inv in Eid.
  destruct tok0 as [tok0|].
  { pose proof (ident_at_ends _ _ _ _ Eid) as Hk1.
    destruct Hid as [str [-> [Hk _]]].
    destruct (Token.string_in _ KEYWORDS).
    - apply (proj1 (parse_type_ends s f)) in H; [exact H|lia|exact Hk1].
    - now injection H as <- _. }
  subst k1.
  destruct (isdigit c) eqn:Hdig.
  { rewrite nextchar_get in H.
    destruct (while_char_run isdigit s (String.length s - (p + 1)) (p + 1))
      as [k [Hw Hk]]; [lia|].
    rewrite Hw in H. injection H as <- _.
    pose proof Hk as [Hle _].
    destruct (Nat.eq_dec k (p + 1)) as [->|Hne]; [exact Hpe|].
    destruct (run_last _ _ _ _ Hk ltac:(lia)) as [d [Hd Hdd]].
    exists d. split; [exact Hd|now apply isdigit_not_space]. }
  destruct (Ascii.eqb c "("); [|discriminate].
  rewrite nextchar_get in H.
  apply bind_ok in H as [[k g] [Hg H]]. injection H as <- _.
  unfold Token.group in Hg.
  apply group_ends_with_paren in Hg as [_ Hg]; [|lia].
  exists ")"%char. split; [exact Hg|reflexivity].
Qed.

Lemma group_closes_after_text s : forall f st ms len its i j g',
  i <= String.length s ->
  ends_on_text s i ->
  Lexer.parse_tokens_loop s f true (Group st ms len its) i = Ok (j, g') ->
  ends_on_text s (j - 1).
Proof.
  induction f as [|f IH]; intros st ms len its i j g' Hi He H;
    [discriminate|].
  cbn [Lexer.parse_tokens_loop] in H. rewrite curchar_get in H.
  cbn [andb] in H.
  assert (Hnext :
    (x <- Lexer.next_token s f i ;;
     (let '(curIndex, tok) := x in
      match tok with
      | Some tok0 =>
          Lexer.parse_tokens_loop s f true
            (Token.append (Group st ms len its) tok0) curIndex
      | None => Raise (LexerError "expected closing )") None
      end)) = Ok (j, g') ->
    ends_on_text s (j - 1)).
  { intros Hx. apply bind_ok in Hx as [[k tok] [Hn Hx]].
    destruct tok as [tok|]; [|discriminate].
    pose proof (next_token_ends _ _ _ _ _ Hi Hn) as Hk.
    apply (proj1 (lexed_spans s f)) in Hn as [Hkl _]; [|exact Hi].
    unfold Token.append in Hx. apply IH in Hx; [exact Hx|lia|exact Hk]. }
  destruct (String.get i s) as [c|] eqn:Hc; [|now apply Hnext].
  destruct (Ascii.eqb c ")"); [|now apply Hnext].
  rewrite nextchar_get in H. ok_inv H. injection H as <- _.
  now replace (i + 1 - 1) with i by lia.
Qed.

Lemma next_token_group_text s f i j st ms len its :
  i <= String.length s ->
  Lexer.next_token s f i = Ok (j, Some (Group st ms len its)) ->
  ends_on_text s (j - 1).
Proof.
  intros Hi H.
  apply next_token_group_inv in H as [p [f' [_ [Hp1 [Hc Hg]]]]];
    [|exact Hi|reflexivity].
  apply group_closes_after_text in Hg; [exact Hg|exact Hp1|].
  exists "("%char. replace (p + 1 - 1) with p by lia. now split.
Qed.

(** X11.  A line lexes only when no closing parenthesis of a group follows
    whitespace: in the tree of a line that lexes, the character just before
    the [')'] that ends a group is not whitespace. *)
Theorem no_blank_before_closing_parenthesis :
  forall line root g,
    lex line = Ok root ->
    In g (subtokens root) ->
    Token.is_group g = true ->
    exists a l c,
      Token.start g = Some a /\ Token.length g = Some l
      /\ String.get (a + l - 2) line = Some c /\ isspace c = false.
Proof.
  intros line root g H Hin Hg.
  destruct (lex_subtokens _ _ _ H Hin) as [[a [j Hat]] _].
  destruct Hat as [Hst [Hlen [Hspan [fuel Hrun]]]].
  destruct g as [p str ms l | st ms len its]; [discriminate|].
  pose proof Hrun as Hrun'.
  apply next_token_group in Hrun' as [p [_ [_ [Hj _]]]]; [|lia].
  apply next_token_group_text in Hrun as [c [Hc Hsp]]; [|lia].
  exists a, (j - a), c. split; [exact Hst|]. split; [exact Hlen|].
  split; [|exact Hsp].
  now replace (a + (j - a) - 2) with (j - 1 - 1) by lia.
Qed.

(** The group of ['int f(char c)'], which ends in ['c)']. *)
Lemma no_blank_before_closing_parenthesis_witness :
  let g :=
    Group (Some 5) [] (Some 8) [Leaf 6 "char" [] 4; Leaf 11 "c" [] 1] in
  exists a l c,
    Token.start g = Some a /\ Token.length g = Some l
    /\ String.get (a + l - 2) "int f(char c)" = Some c /\ isspace c = false.
Proof.
  intros g.
  apply (no_blank_before_closing_parenthesis "int f(char c)"
           (Group (Some 0) [] (Some 13)
              [Leaf 0 "int" [] 3; Leaf 4 "f" [] 1;
               Group (Some 5) [] (Some 8)
                 [Leaf 6 "char" [] 4; Leaf 11 "c" [] 1]])
           (Group (Some 5) [] (Some 8)
              [Leaf 6 "char" [] 4; Leaf 11 "c" [] 1])).
  - reflexivity.
  - cbn. right. right. now left.
  - reflexivity.
Defined.

(** ** The order of the tokens *)

Lemma loop_in_order s : forall f nested st ms len its i j g',
  i <= String.length s ->
  Lexer.parse_tokens_loop s f nested (Group st ms len its) i = Ok (j, g') ->
  exists new,
    Token.items g' = its ++ new
    /\ in_order i new (if nested then j - 1 else j).
Proof.
  induction f as [|f IH]; intros nested st ms len its i j g' Hi H;
    [discriminate|].
  cbn [Lexer.parse_tokens_loop] in H.
  assert (Hset : forall k g,
    Lexer.set_length_to (Group st ms len its) k = Ok g ->
    Token.items g = its).
  { unfold Lexer.set_length_to. cbn. intros k g.
    destruct st as [st0|]; [|discriminate]. now intros [= <-]. }
  destruct (nested && _) eqn:Hclose.
  { rewrite nextchar_get in H.
    apply bind_ok in H as [g [Hg H]]. injection H as <- <-.
    apply Hset in Hg. exists []. rewrite app_nil_r.
    apply andb_prop in Hclose as [-> _]. split; [exact Hg|]. cbn. lia. }
  apply bind_ok in H as [[k tok] [Hn H]].
  apply (proj1 (lexed_spans s f)) in Hn as [Hk Htok]; [|exact Hi].
  destruct tok as [tok|].
  - destruct (Htok _ eq_refl) as [a [Hia [Hlex _]]].
    destruct Hlex as [Hst [Hlen [Hspan _]]].
    unfold Token.append in H. apply IH in H as [new [Hitems Hord]]; [|lia].
    exists (tok :: new). rewrite <- app_assoc in Hitems.
    split; [exact Hitems|]. cbn [in_order].
    exists a, (k - a). repeat split; try assumption; try lia.
    now replace (a + (k - a)) with k by lia.
  - destruct nested; [discriminate|].
    apply bind_ok in H as [g [Hg H]]. injection H as <- <-.
    apply Hset in Hg. exists []. rewrite app_nil_r.
    split; [exact Hg|]. cbn. lia.
Qed.

(** X12.  The tokens of a line that lexes stand in the order of the text and
    do not overlap: the tokens of the root lie one after the other between
    the start and the end of the line, and the tokens of a group lie one
    after the other between its two parentheses. *)
Theorem tokens_stand_in_order :
  forall line root,
    lex line = Ok root ->
    in_order 0 (Token.items root) (String.length line)
    /\ forall g,
         In g (subtokens root) ->
         Token.is_group g = true ->
         exists a l,
           Token.start g = Some a /\ Token.length g = Some l
           /\ in_order (a + 1) (Token.items g) (a + l - 1).
Proof.
  intros line root H. split.
  - unfold lex in H. apply bind_ok in H as [[j g] [H Heq]].
    injection Heq as ->. unfold Lexer.parse_tokens, Token.group in H.
    pose proof (root_ends_at_length _ _ _ _ _ _ _ _ _ (Nat.le_0_l _) H)
      as ->.
    apply loop_in_order in H as [new [-> Hord]]; [exact Hord|lia].
  - intros g Hin Hg.
    destruct (lex_subtokens _ _ _ H Hin) as [[a [j Hat]] _].
    destruct Hat as [Hst [Hlen [Hspan [fuel Hrun]]]].
    apply next_token_group_inv in Hrun as [p [f' [_ [Hp1 [Hc Hloop]]]]];
      [|lia|exact Hg].
    pose proof Hloop as Hloop'.
    apply (proj2 (lexed_spans line f')) in Hloop'; [|exact Hp1].
    destruct Hloop' as [st0 [new0 [[= <-] [-> _]]]].
    cbn in Hst. injection Hst as ->.
    apply loop_in_order in Hloop as [new [Hitems Hord]]; [|exact Hp1].
    exists a, (j - a). split; [reflexivity|]. split; [exact Hlen|].
    rewrite Hitems. cbn [app].
    now replace (a + (j - a) - 1) with (j - 1) by lia.
Qed.

(** The tokens of ['int f(char, int)']. *)
Lemma tokens_stand_in_order_witness :
  let root :=
    Group (Some 0) [] (Some 16)
      [Leaf 0 "int" [] 3; Leaf 4 "f" [] 1;
       Group (Some 5) [] (Some 11)
         [Leaf 6 "char" [] 4; Leaf 10 "," [] 1; Leaf 12 "int" [] 3]] in
  in_order 0 (Token.items root) (String.length "int f(char, int)")
  /\ forall g,
       In g (subtokens root) ->
       Token.is_group g = true ->
       exists a l,
         Token.start g = Some a /\ Token.length g = Some l
         /\ in_order (a + 1) (Token.items g) (a + l - 1).
Proof.
  intros root. apply (tokens_stand_in_order "int f(char, int)" root).
  reflexivity.
Defined.

(** ** Reading a size back *)

(** X13.  The decimal text of a size reads back as that size, and a size
    that was read is one that is written: when [str(n)] is the text of
    [n >= 0] (it has at most [MAX_STR_DIGITS] digits), [get_num] on a
    number token with that lexeme returns [n]; and when [get_num] returns
    [n], [n] is not negative and [str(n)], which [Array.display] calls,
    raises nothing. *)
Theorem get_num_of_str :
  (forall (n : Z) (start : nat) (text : string),
      (0 <= n)%Z ->
      str_of_int n = Ok text ->
      Token.get_num (Token.leaf start text) = Ok n)
  /\ (forall (tok : Token) (n : Z),
         Token.get_num tok = Ok n ->
         (0 <= n)%Z /\ exists text, str_of_int n = Ok text).
Proof.
  split; [|exact get_num_printable].
  intros n start text Hn H. destruct n as [|p|p]; [|clear Hn|lia].
  { injection H as <-. reflexivity. }
  unfold str_of_int in H. cbn [Z.abs Z.to_int NilZero.string_of_int] in H.
  assert (Hp : Pos.to_uint p <> Decimal.Nil).
  { pose proof (DecimalPos.Unsigned.of_to p) as Hof. intros Heq.
    rewrite Heq in Hof. discriminate. }
  rewrite (string_of_uint_not_nil _ Hp) in H.
  destruct (Nat.ltb_spec MAX_STR_DIGITS
              (String.length (NilEmpty.string_of_uint (Pos.to_uint p))))
    as [Hlen|Hlen]; [discriminate|].
  injection H as <-.
  destruct (to_uint_digit p) as [c [str [Heq Hc]]].
  unfold Token.get_num, Token.leaf.
  cbn [Token.is_group Token.is_num Token.string Token.str orb negb].
  rewrite Heq, Hc. cbn [negb]. rewrite <- Heq. unfold Token.int.
  destruct (Nat.ltb_spec MAX_STR_DIGITS
              (String.length (NilEmpty.string_of_uint (Pos.to_uint p))));
    [lia|].
  rewrite int_of_uint. now rewrite DecimalPos.Unsigned.of_to.
Qed.

(** The size [120]. *)
Lemma get_num_of_str_witness :
  Token.get_num (Token.leaf 6 "120") = Ok 120%Z
  /\ (0 <= 120)%Z /\ exists text, str_of_int 120 = Ok text.
Proof.
  split.
  - apply (proj1 get_num_of_str 120%Z 6 "120"); [lia|reflexivity].
  - apply (proj2 get_num_of_str (Leaf 6 "120" [] 3) 120%Z). reflexivity.
Defined.

(** ** The order of the dimensions *)

Lemma arrays_app child : forall dims dims',
  arrays child (dims ++ dims') = arrays (arrays child dims') dims.
Proof.
  induction dims as [|dim dims IH]; intros dims'; cbn [app arrays];
    [reflexivity|]. now rewrite IH.
Qed.

Lemma wrap_arrays_arrays voidTok : forall dims child,
  Parser.wrap_arrays voidTok (Some child) dims
  = Ok (Some (arrays child (rev dims))).
Proof.
  induction dims as [|dim dims IH]; intros child;
    cbn [Parser.wrap_arrays rev bind]; [reflexivity|].
  rewrite arrays_app. cbn [arrays]. rewrite <- IH. f_equal. f_equal.
  now destruct child.
Qed.

Lemma current_nth st gm gl its c i :
  Parser.current (Parser.Build (Group st gm gl its) c i) = nth_error its i.
Proof.
  unfold Parser.current, Token.len.
  cbn [Parser.tokens Parser.index Token.items].
  destruct (Nat.leb_spec (List.length its) i) as [H|H]; [|reflexivity].
  symmetry. now apply nth_error_None.
Qed.

Lemma nth_error_after (pre l : list Token) k :
  nth_error (pre ++ l) (List.length pre + k) = nth_error l k.
Proof.
  rewrite nth_error_app2 by lia. f_equal. lia.
Qed.

Lemma string_is_string t s :
  Token.string_is t s = true -> Token.string t = Some s.
Proof.
  unfold Token.string_is. destruct (Token.string t) as [s'|]; [|discriminate].
  intros H. apply String.eqb_eq in H. now subst.
Qed.

Lemma dimension_opens first size :
  dimension first size ->
  exists open rest,
    first = open :: rest /\ Token.string open = Some "[".
Proof.
  intros [open num close z Ho _ _ _ | open close Ho _];
    apply string_is_string in Ho; eauto.
Qed.

(** The loop over the dimensions reads the tokens of all of them and
    collects their sizes in the order in which they are written. *)
Lemma parse_dimensions_reads : forall toks sizes,
  dimensions toks sizes ->
  forall n st gm gl pre c acc,
    List.length sizes <= n ->
    Parser.parse_dimensions n
      (Parser.Build (Group st gm gl (pre ++ toks)) c (List.length pre)) acc
    = Ok (Parser.Build (Group st gm gl (pre ++ toks)) c
            (List.length pre + List.length toks),
          acc ++ sizes).
Proof.
  induction 1 as [|first rest size sizes Hfirst Hrest IH];
    intros n st gm gl pre c acc Hn.
  - rewrite !app_nil_r, Nat.add_0_r.
    destruct n; cbn [Parser.parse_dimensions];
      rewrite ?current_end by lia; reflexivity.
  - destruct n as [|n]; [cbn in Hn; lia|].
    assert (Hn' : List.length sizes <= n) by (cbn in Hn; lia).
    specialize (IH n st gm gl (pre ++ first) c (acc ++ [size]) Hn').
    rewrite <- !app_assoc in IH.
    cbn [Parser.parse_dimensions].
    destruct Hfirst as [open num close z Ho Hnum Hz Hc | open close Ho Hc].
    + pose proof (string_is_string _ _ Hc) as Hcs.
      cbn [app]. rewrite current_nth.
      rewrite <- (Nat.add_0_r (List.length pre)) at 1.
      rewrite nth_error_after. cbn [nth_error]. rewrite Ho.
      cbn [Parser.next fst Parser.tokens Parser.child Parser.index].
      unfold Parser.expect. rewrite current_nth, nth_error_after.
      cbn [nth_error bind]. rewrite Hnum, Hz. cbn [bind].
      cbn [Parser.next fst Parser.tokens Parser.child Parser.index].
      rewrite current_nth.
      replace (List.length pre + 1 + 1) with (List.length pre + 2) by lia.
      rewrite nth_error_after. cbn [nth_error bind]. rewrite Hc.
      cbn [negb]. cbn [app List.length] in IH.
      replace (List.length pre + 2 + 1)
        with (List.length (pre ++ [open; num; close]))
        by (rewrite length_app; cbn; lia).
      rewrite IH. f_equal. f_equal. f_equal.
      rewrite !length_app. cbn. lia.
    + pose proof (string_is_string _ _ Hc) as Hcs.
      assert (Hnot : Token.is_num close = false).
      { unfold Token.is_num. now rewrite Hcs. }
      cbn [app]. rewrite current_nth.
      rewrite <- (Nat.add_0_r (List.length pre)) at 1.
      rewrite nth_error_after. cbn [nth_error]. rewrite Ho.
      cbn [Parser.next fst Parser.tokens Parser.child Parser.index].
      unfold Parser.expect. rewrite current_nth, nth_error_after.
      cbn [nth_error bind]. rewrite Hnot. cbn [bind].
      rewrite current_nth, nth_error_after. cbn [nth_error bind].
      rewrite Hc. cbn [negb].
      cbn [Parser.next fst Parser.tokens Parser.child Parser.index].
      cbn [app List.length] in IH.
      replace (List.length pre + 1 + 1)
        with (List.length (pre ++ [open; close]))
        by (rewrite length_app; cbn; lia).
      rewrite IH. f_equal. f_equal. f_equal.
      rewrite !length_app. cbn. lia.
Qed.

Lemma no_dimensions sizes : dimensions [] sizes -> sizes = [].
Proof.
  intros H. inversion H as [|first rest size sizes' Hfirst _ Heq]; [easy|].
  apply dimension_opens in Hfirst as [open [rest' [-> _]]]. discriminate.
Qed.

Lemma dimensions_length toks sizes :
  dimensions toks sizes -> List.length sizes <= List.length toks.
Proof.
  induction 1 as [|first rest size sizes Hfirst _ IH]; [easy|].
  apply dimension_opens in Hfirst as [open [rest' [-> _]]].
  rewrite length_app. cbn. lia.
Qed.

Lemma dimensions_head toks sizes :
  dimensions toks sizes ->
  match toks with
  | [] => True
  | t :: _ => Token.string t = Some "["
  end.
Proof.
  intros [|first rest size sizes' Hfirst _]; [exact I|].
  now apply dimension_opens in Hfirst as [open [rest' [-> Ho]]].
Qed.

(** X14.  The dimensions of a declarator are read in the order in which
    they are written and wrap the type from the last one to the first, so
    that the first dimension written is the outermost array: a type that
    is not [void], an optional name and the tokens of the dimensions
    [sizes] parse into the arrays of [sizes] around the type, the first of
    them outermost. *)
Theorem first_dimension_is_outermost :
  forall fuel st gm gl ty name toks sizes,
    Token.is_type ty = true ->
    Token.string_is ty "void" = false ->
    (name = [] \/
     exists nm, name = [nm] /\ Token.is_name nm = true
                /\ Token.string_in nm KEYWORDS = false) ->
    dimensions toks sizes ->
    Parser.parse (S fuel)
      (Parser.Build (Group st gm gl (ty :: name ++ toks)) None 0)
    = Ok (arrays (Node.of_type_token ty) sizes).
Proof.
  intros fuel st gm gl ty name toks sizes Hty Hvoid Hname Hdims.
  set (G := Group st gm gl (ty :: name ++ toks)).
  set (child := Some (Node.of_type_token ty)).
  cbn [Parser.parse]. unfold Parser.parse_body. cbn [Parser.child].
  unfold Parser.expect. unfold G at 1. rewrite current_nth.
  cbn [nth_error bind]. rewrite Hty. cbn [negb bind]. rewrite Hvoid.
  cbn [Parser.next Parser.set_child Parser.tokens Parser.child Parser.index].
  fold G. fold child. unfold G at 1. rewrite current_nth.
  change (nth_error (ty :: name ++ toks) (0 + 1))
    with (nth_error (name ++ toks) 0).
  pose proof (dimensions_head _ _ Hdims) as Hhead.
  destruct (nth_error (name ++ toks) 0) as [t|] eqn:Hnth.
  2:{ assert (E : name ++ toks = []).
      { revert Hnth. destruct (name ++ toks); [reflexivity|discriminate]. }
      apply app_eq_nil in E as [_ ->]. apply no_dimensions in Hdims.
      subst sizes. reflexivity. }
  clear t Hnth. change (0 + 1) with 1.
  (* the pointers: none *)
  unfold Parser.declarator.
  cbn [Parser.tokens Parser.index].
  assert (Hpost : match name ++ toks with
                  | [] => True
                  | t :: _ => Token.string_is t "*" = false
                  end).
  { destruct Hname as [-> | [nm [-> [Hnm _]]]].
    - cbn [app]. destruct toks as [|t toks]; [exact I|].
      unfold Token.string_is. now rewrite Hhead.
    - now apply name_is_no_star. }
  pose proof (parse_pointers_stars st gm gl (name ++ toks) Hpost []
                [ty] child (Token.len G - 0 - 1) (Forall_nil _)
                (Nat.le_0_l _)) as Hptr.
  cbn [app List.length pointers fold_left Nat.add] in Hptr.
  fold G in Hptr.
  replace (Token.len G - 0 - 1) with (Token.len G - 1) in Hptr by lia.
  rewrite Hptr. clear Hptr Hpost.
  (* the name *)
  assert (Hng :
    Parser.parse_name_or_group (Parser.Build G child 1)
    = Ok (Parser.Build G child (List.length (ty :: name)), None)).
  { unfold Parser.parse_name_or_group, G. rewrite current_nth.
    cbn [nth_error].
    destruct Hname as [-> | [nm [-> [Hnm Hkw]]]].
    - cbn [app List.length]. destruct toks as [|t toks]; [reflexivity|].
      unfold Token.is_name, Token.is_group. now rewrite Hhead.
    - cbn [app nth_error List.length]. rewrite Hnm, Hkw. reflexivity. }
  rewrite Hng. cbn [bind]. clear Hng.
  (* no parameter list *)
  assert (Hpl : forall parse,
    Parser.parse_parameter_list parse
      (Parser.Build G child (List.length (ty :: name)))
    = Ok (Parser.Build G child (List.length (ty :: name)), false, Some [])).
  { intros parse. unfold Parser.parse_parameter_list, G.
    rewrite current_nth.
    change (ty :: name ++ toks) with ((ty :: name) ++ toks).
    rewrite <- (Nat.add_0_r (List.length (ty :: name))) at 1.
    rewrite nth_error_after.
    destruct toks as [|t toks]; [reflexivity|]. cbn [nth_error].
    unfold Token.is_group. now rewrite Hhead. }
  rewrite Hpl. cbn [bind]. clear Hpl.
  (* the dimensions *)
  cbn [Parser.tokens Parser.index].
  pose proof (parse_dimensions_reads _ _ Hdims
                (Token.len G - List.length (ty :: name)) st gm gl
                (ty :: name) child []) as Hd.
  change ((ty :: name) ++ toks) with (ty :: name ++ toks) in Hd.
  fold G in Hd. rewrite Hd; clear Hd.
  2:{ unfold G, Token.len. cbn [Token.items List.length].
      rewrite length_app. pose proof (dimensions_length _ _ Hdims). lia. }
  cbn [bind app Parser.child]. unfold child at 1.
  rewrite wrap_arrays_arrays, rev_involutive. cbn [bind].
  unfold Parser.set_child. cbn [Parser.tokens Parser.index Parser.child].
  unfold G at 1. rewrite current_end.
  2:{ cbn [List.length]. rewrite length_app. cbn [List.length]. lia. }
  cbn [bind]. reflexivity.
Qed.

(** The tokens of ['int x[2][]']: an array of 2 arrays of unknown size. *)
Lemma first_dimension_is_outermost_witness :
  Parser.parse 1
    (Parser.Build
       (Group (Some 0) [] (Some 10)
          ([Leaf 0 "int" [] 3; Leaf 4 "x" [] 1]
           ++ [Leaf 5 "[" [] 1; Leaf 6 "2" [] 1; Leaf 7 "]" [] 1]
           ++ [Leaf 8 "[" [] 1; Leaf 9 "]" [] 1] ++ []))
       None 0)
  = Ok (Array (Some (Array (Some (Type_ [] "int" [])) [] None)) []
              (Some 2%Z)).
Proof.
  apply (first_dimension_is_outermost 0 (Some 0) [] (Some 10)
           (Leaf 0 "int" [] 3) [Leaf 4 "x" [] 1]
           ([Leaf 5 "[" [] 1; Leaf 6 "2" [] 1; Leaf 7 "]" [] 1]
            ++ [Leaf 8 "[" [] 1; Leaf 9 "]" [] 1] ++ [])
           [Some 2%Z; None]).
  - reflexivity.
  - reflexivity.
  - right. exists (Leaf 4 "x" [] 1). repeat split.
  - apply dimensions_more;
      [apply dimension_sized; reflexivity|].
    apply dimensions_more; [apply dimension_unsized; reflexivity|].
    apply dimensions_none.
Defined.

(** ** A comma at the end of the parameters *)

Lemma take_param_no_comma : forall rest,
  existsb (fun tok => Token.string_is tok ",") rest = false ->
  Parser.take_param rest = (rest, []).
Proof.
  induction rest as [|x rest IH]; intros H; cbn in H |- *; [reflexivity|].
  apply orb_false_elim in H as [Hx H]. rewrite Hx, (IH H). reflexivity.
Qed.

Lemma take_param_app : forall rest extra,
  existsb (fun tok => Token.string_is tok ",") rest = true ->
  Parser.take_param (rest ++ extra)
  = (fst (Parser.take_param rest), snd (Parser.take_param rest) ++ extra).
Proof.
  induction rest as [|x rest IH]; intros extra H; cbn in H; [discriminate|].
  cbn [app Parser.take_param].
  destruct (Token.string_is x ","); [reflexivity|].
  cbn [orb] in H. rewrite (IH extra H).
  now destruct (Parser.take_param rest).
Qed.

Lemma take_param_keeps_last : forall r t,
  Token.string_is t "," = false ->
  existsb (fun tok => Token.string_is tok ",") (r ++ [t]) = true ->
  exists r', snd (Parser.take_param (r ++ [t])) = r' ++ [t]
             /\ List.length r' < List.length r.
Proof.
  induction r as [|x r IH]; intros t Ht H; cbn in H.
  - rewrite Ht in H. discriminate.
  - cbn [app Parser.take_param].
    destruct (Token.string_is x ","); [exists r; cbn; split; [easy|lia]|].
    cbn [orb] in H. destruct (IH t Ht H) as [r' [Hr' Hlen]].
    exists r'. destruct (Parser.take_param (r ++ [t])). cbn in Hr' |- *.
    split; [exact Hr'|lia].
Qed.

Lemma parse_params_done parse n params :
  Parser.parse_params parse n [] params = Ok params.
Proof. now destruct n. Qed.

(** X15.  A comma after the last parameter changes nothing: the loop over a
    parameter group that ends in a comma gives what it gives on the group
    without that comma. *)
Theorem trailing_comma_is_ignored :
  forall parse comma,
    Token.string_is comma "," = true ->
    forall n r t params,
    Token.string_is t "," = false ->
    List.length (r ++ [t]) <= n ->
    Parser.parse_params parse (S n) (r ++ [t; comma]) params
    = Parser.parse_params parse n (r ++ [t]) params.
Proof.
  intros parse comma Hcomma.
  induction n as [|n IH]; intros r t params Ht Hn.
  { rewrite length_app in Hn. cbn in Hn. lia. }
  assert (Hr : List.length r <= n)
    by (rewrite length_app in Hn; cbn in Hn; lia).
  clear Hn.
  replace (r ++ [t; comma]) with ((r ++ [t]) ++ [comma])
    by now rewrite <- app_assoc.
  destruct (r ++ [t]) as [|x rest] eqn:Hrest;
    [now destruct r|].
  cbn [Parser.parse_params app]. rewrite <- Hrest.
  change (x :: rest ++ [comma]) with ((x :: rest) ++ [comma]).
  rewrite <- Hrest.
  destruct (existsb (fun tok => Token.string_is tok ",") (r ++ [t]))
    eqn:Hfound.
  - rewrite (take_param_app _ _ Hfound).
    destruct (take_param_keeps_last _ _ Ht Hfound) as [r' [Hr' Hlen]].
    destruct (Parser.take_param (r ++ [t])) as [items rest'].
    cbn [fst snd] in Hr' |- *. subst rest'.
    destruct (Parser.init (Group None [] None items) None) as [q| |];
      [|reflexivity|reflexivity].
    cbn [bind]. destruct (parse q) as [node| |]; [|reflexivity|reflexivity].
    cbn [bind].
    replace ((r' ++ [t]) ++ [comma]) with (r' ++ [t; comma])
      by now rewrite <- app_assoc.
    apply IH; [exact Ht|]. rewrite length_app. cbn. lia.
  - rewrite (take_param_no_comma _ Hfound).
    assert (Hall : existsb (fun tok => Token.string_is tok ",")
                     ((r ++ [t]) ++ [comma]) = true).
    { rewrite existsb_app. cbn. rewrite Hcomma. now rewrite orb_true_r. }
    assert (Htake : Parser.take_param ((r ++ [t]) ++ [comma])
                    = (r ++ [t], [])).
    { clear - Hfound Hcomma. induction (r ++ [t]) as [|y l IHl].
      - cbn. now rewrite Hcomma.
      - cbn in Hfound |- *. apply orb_false_elim in Hfound as [Hy Hl].
        rewrite Hy, (IHl Hl). reflexivity. }
    rewrite Htake.
    destruct (Parser.init (Group None [] None (r ++ [t])) None) as [q| |];
      [|reflexivity|reflexivity].
    cbn [bind]. destruct (parse q) as [node| |]; [|reflexivity|reflexivity].
    cbn [bind]. now rewrite !parse_params_done.
Qed.

(** The parameters ['int a, char b,'] and ['int a, char b']. *)
Lemma trailing_comma_is_ignored_witness :
  let int_a := [Leaf 6 "int" [] 3; Leaf 10 "a" [] 1] in
  let char_b := [Leaf 13 "char" [] 4; Leaf 18 "b" [] 1] in
  let comma := Leaf 11 "," [] 1 in
  Parser.parse_params (Parser.parse 1) 6
    (int_a ++ comma :: char_b ++ [Leaf 19 "," [] 1]) []
  = Parser.parse_params (Parser.parse 1) 5 (int_a ++ comma :: char_b) [].
Proof.
  intros int_a char_b comma.
  apply (trailing_comma_is_ignored (Parser.parse 1) (Leaf 19 "," [] 1)
           eq_refl 5
           [Leaf 6 "int" [] 3; Leaf 10 "a" [] 1; Leaf 11 "," [] 1;
            Leaf 13 "char" [] 4]
           (Leaf 18 "b" [] 1) []).
  - reflexivity.
  - cbn. lia.
Defined.
